(** * GenomeSpy core: parameter mediator, vertex builders, sample facets

    A shallow embedding of three pieces of the repository:

    - [packages/core/src/view/paramMediator.js]: the hierarchical reactive
      parameter store ([ParamMediator], [activateExprRefProps]);
    - [packages/genome-spy/src/gl/dataToVertices.js]: [VertexBuilder] and
      [RectVertexBuilder];
    - the sample-facet GLSL include ([isFacetedSamples], [isInTransit],
      [applySampleFacet]).

    JavaScript numbers have exact rational arithmetic here: rounding is
    not modelled, the non-finite values (NaN and the two infinities) are.
    GLSL floats are exact rationals. *)

From stdpp Require Import base option list gmap strings.
From Stdlib Require Import QArith Qminmax Lqa.

Set Default Proof Using "Type".
#[local] Set Warnings "-clear-no-such-hyp".
Close Scope Q_scope.
Local Open Scope string_scope.
Local Open Scope list_scope.
Local Open Scope nat_scope.

(* ===================================================================== *)
(** * JavaScript numbers and values *)
(* ===================================================================== *)

Module Num.

Local Open Scope Q_scope.

(** A JavaScript number: NaN, an infinity, or a finite (exact) rational. *)
Inductive num := NaN | NegInf | Fin (q : Q) | PosInf.

Definition Qlt_bool (p q : Q) : bool := negb (Qle_bool q p).

(** [a < b], [a > b], [a <= b] and [a === b]: every comparison with NaN is
    false. *)
Definition lt (a b : num) : bool :=
  match a, b with
  | NaN, _ | _, NaN => false
  | _, NegInf => false
  | NegInf, _ => true
  | PosInf, _ => false
  | Fin _, PosInf => true
  | Fin p, Fin q => Qlt_bool p q
  end.

Definition gt (a b : num) : bool := lt b a.

Definition eqb (a b : num) : bool :=
  match a, b with
  | NegInf, NegInf | PosInf, PosInf => true
  | Fin p, Fin q => Qeq_bool p q
  | _, _ => false
  end.

Definition le (a b : num) : bool := lt a b || eqb a b.

Definition isFinite (a : num) : bool :=
  match a with Fin _ => true | _ => false end.

Definition neg (a : num) : num :=
  match a with
  | NaN => NaN
  | NegInf => PosInf
  | PosInf => NegInf
  | Fin q => Fin (- q)
  end.

Definition add (a b : num) : num :=
  match a, b with
  | NaN, _ | _, NaN => NaN
  | NegInf, PosInf | PosInf, NegInf => NaN
  | NegInf, _ | _, NegInf => NegInf
  | PosInf, _ | _, PosInf => PosInf
  | Fin p, Fin q => Fin (p + q)
  end.

Definition sub (a b : num) : num := add a (neg b).

(** The sign of a non-NaN number, as a comparison with zero. *)
Definition sign (a : num) : comparison :=
  match a with
  | NegInf => Lt
  | PosInf => Gt
  | Fin q => q ?= 0
  | NaN => Eq
  end.

Definition inf_of (s : comparison) : num :=
  match s with Lt => NegInf | Gt => PosInf | Eq => NaN end.

Definition sign_mul (s t : comparison) : comparison :=
  match s, t with
  | Eq, _ | _, Eq => Eq
  | Lt, Lt | Gt, Gt => Gt
  | _, _ => Lt
  end.

Definition mul (a b : num) : num :=
  match a, b with
  | NaN, _ | _, NaN => NaN
  | Fin p, Fin q => Fin (p * q)
  | _, _ => inf_of (sign_mul (sign a) (sign b))
  end.

(** Division; zero is taken as positive zero. *)
Definition div (a b : num) : num :=
  match a, b with
  | NaN, _ | _, NaN => NaN
  | Fin p, Fin q =>
      if Qeq_bool q 0 then inf_of (p ?= 0) else Fin (p / q)
  | Fin _, _ => Fin 0
  | _, Fin q => inf_of (sign_mul (sign a) (if Qeq_bool q 0 then Gt else sign b))
  | _, _ => NaN
  end.

Definition of_nat (n : nat) : num := Fin (inject_Z (Z.of_nat n)).

Definition isNaN (a : num) : bool :=
  match a with NaN => true | _ => false end.

End Num.

Abbreviation num := Num.num.

(** JavaScript values, as far as the parameter store distinguishes them:
    objects are references. *)
Inductive value :=
| VUndefined
| VNull
| VBool (b : bool)
| VNum (n : num)
| VStr (s : string)
| VObj (ref : nat).

(** [a === b]. *)
Definition strict_eq (a b : value) : bool :=
  match a, b with
  | VUndefined, VUndefined | VNull, VNull => true
  | VBool x, VBool y => bool_decide (x = y)
  | VNum x, VNum y => Num.eqb x y
  | VStr x, VStr y => bool_decide (x = y)
  | VObj x, VObj y => bool_decide (x = y)
  | _, _ => false
  end.

(* ===================================================================== *)
(** * Results of calls that may throw *)
(* ===================================================================== *)

(** The errors [paramMediator.js] and [dataToVertices.js] raise. *)
Inductive error :=
| BothValueAndExpr (name : string)
    (* "Parameter must not have both value and expr: " + name *)
| SetterAlreadyAllocated (name : string)
    (* "Setter already allocated for parameter: " + name *)
| SetterNotFound (name : string)
    (* "Setter not found for parameter: " + name *)
| UnknownVariable (param expr : string)
    (* `Unknown variable "${param}" in expression: ${expr}` *)
| CompileError (expr : string)
    (* thrown by createFunction *)
| TypeError
    (* a property read on undefined, or a call of a non-function *)
| StaleReference.
    (* a handle to an object that was never created; no JavaScript run
       produces one *)

(** A call returns, throws, or is cut off by the recursion bound. *)
Inductive result (A : Type) :=
| Ok (a : A)
| Throw (e : error)
| OutOfFuel.

Arguments Ok {A} a.
Arguments Throw {A} e.
Arguments OutOfFuel {A}.

Global Instance result_ret : MRet result := λ A a, Ok a.
Global Instance result_bind : MBind result := λ A B f r,
  match r with
  | Ok a => f a
  | Throw e => Throw e
  | OutOfFuel => OutOfFuel
  end.

(** An insertion-ordered [Set] of values with decidable identity. *)
Definition set_add {A} `{EqDecision A} (x : A) (s : list A) : list A :=
  if decide (x ∈ s) then s else s ++ [x].

Definition set_delete {A} `{EqDecision A} (x : A) (s : list A) : list A :=
  filter (λ y, y ≠ x) s.

(** An insertion-ordered [Map]: [set] on a present key keeps its place. *)
Fixpoint map_set {K V} `{EqDecision K} (k : K) (v : V) (m : list (K * V))
  : list (K * V) :=
  match m with
  | [] => [(k, v)]
  | (k', v') :: m' =>
      if decide (k' = k) then (k, v) :: m' else (k', v') :: map_set k v m'
  end.

Fixpoint map_get {K V} `{EqDecision K} (k : K) (m : list (K * V)) : option V :=
  match m with
  | [] => None
  | (k', v') :: m' => if decide (k' = k) then Some v' else map_get k m'
  end.

(* ===================================================================== *)
(** * ParamMediator *)
(* ===================================================================== *)

Module ParamMediator.

(** What [createFunction] of [utils/expression.js] returns: the free
    variables of the expression (the keys of an object, so each name
    once), its code, and the function itself, which reads the global
    object and the datum. *)
Record CompiledExpr := {
  globals : list string;
  code : string;
  run : (string → value) → value → value
}.

(** [VariableParameter]: [param_value] and [param_expr] are [Some] when the
    key is present in the object. *)
Record VariableParameter := {
  param_name : string;
  param_value : option value;
  param_expr : option string
}.

(** The functions that end up in a listener registry. Two kinds are
    closures made in [paramMediator.js], at most one for each description;
    any other function is opaque and does not call back into a mediator.
    Function identity is equality of these descriptions. *)
Inductive listener :=
| Reapply (m : nat) (name : string) (expr : string)
    (* [() => realSetter(expr(null))] of [registerParam] on mediator [m] *)
| BatchChange (g : nat) (key : string)
    (* [() => batchPropertyChange(key)] of the [g]-th
       [activateExprRefProps] call *)
| Callback (id : nat).

Global Instance listener_eq_dec : EqDecision listener.
Proof. solve_decision. Defined.

(** An [ExprRefFunction]: the compiled function with the two collections
    its closures capture. *)
Record ExprRefFunction := {
  fn : CompiledExpr;
  mediatorsForParams : list (string * nat);
  myListeners : list listener
}.

(** A mediator object. [allocatedSetters] holds the names only: the setter
    stored under a name is the closure over that name. *)
Record Mediator := {
  paramValues : gmap string value;
  paramListeners : gmap string (list listener);
  allocatedSetters : gset string;
  expressions : gmap string ExprRefFunction;
  paramConfigs : gmap string VariableParameter;
  parentFinder : option nat
}.

(** The state of one [activateExprRefProps] call, and the microtask queue. *)
Record Batch := {
  alteredProps : list string;
  batchListener : option nat
}.

Inductive microtask := Flush (g : nat).

(** The heap: mediators and batches by reference, the pending microtasks,
    and the calls made to the listeners of [activateExprRefProps]. *)
Record World := {
  mediators : gmap nat Mediator;
  nextMediator : nat;
  batches : gmap nat Batch;
  nextBatch : nat;
  microtasks : list microtask;
  delivered : list (nat * list string)
}.

Definition emptyWorld : World :=
  {| mediators := ∅; nextMediator := 0; batches := ∅; nextBatch := 0;
     microtasks := []; delivered := [] |}.

Definition newMediatorObject (parent : option nat) : Mediator :=
  {| paramValues := ∅; paramListeners := ∅; allocatedSetters := ∅;
     expressions := ∅; paramConfigs := ∅; parentFinder := parent |}.

(** Dereferencing. A reference nothing was created for reads as a new
    object. *)
Definition mediator (w : World) (m : nat) : Mediator :=
  default (newMediatorObject None) (mediators w !! m).

Definition batch (w : World) (g : nat) : Batch :=
  default {| alteredProps := []; batchListener := None |} (batches w !! g).

Definition setMediator (m : nat) (med : Mediator) (w : World) : World :=
  {| mediators := <[m := med]> (mediators w);
     nextMediator := nextMediator w; batches := batches w;
     nextBatch := nextBatch w; microtasks := microtasks w;
     delivered := delivered w |}.

Definition setBatch (g : nat) (b : Batch) (w : World) : World :=
  {| mediators := mediators w; nextMediator := nextMediator w;
     batches := <[g := b]> (batches w); nextBatch := nextBatch w;
     microtasks := microtasks w; delivered := delivered w |}.

Definition setMicrotasks (q : list microtask) (w : World) : World :=
  {| mediators := mediators w; nextMediator := nextMediator w;
     batches := batches w; nextBatch := nextBatch w;
     microtasks := q; delivered := delivered w |}.

Definition setDelivered (d : list (nat * list string)) (w : World) : World :=
  {| mediators := mediators w; nextMediator := nextMediator w;
     batches := batches w; nextBatch := nextBatch w;
     microtasks := microtasks w; delivered := d |}.

Definition setParamValues (pv : gmap string value) (med : Mediator) : Mediator :=
  {| paramValues := pv; paramListeners := paramListeners med;
     allocatedSetters := allocatedSetters med; expressions := expressions med;
     paramConfigs := paramConfigs med; parentFinder := parentFinder med |}.

Definition setParamListeners (pl : gmap string (list listener)) (med : Mediator)
  : Mediator :=
  {| paramValues := paramValues med; paramListeners := pl;
     allocatedSetters := allocatedSetters med; expressions := expressions med;
     paramConfigs := paramConfigs med; parentFinder := parentFinder med |}.

Definition setAllocatedSetters (a : gset string) (med : Mediator) : Mediator :=
  {| paramValues := paramValues med; paramListeners := paramListeners med;
     allocatedSetters := a; expressions := expressions med;
     paramConfigs := paramConfigs med; parentFinder := parentFinder med |}.

Definition setExpressions (e : gmap string ExprRefFunction) (med : Mediator)
  : Mediator :=
  {| paramValues := paramValues med; paramListeners := paramListeners med;
     allocatedSetters := allocatedSetters med; expressions := e;
     paramConfigs := paramConfigs med; parentFinder := parentFinder med |}.

Definition setParamConfigs (c : gmap string VariableParameter) (med : Mediator)
  : Mediator :=
  {| paramValues := paramValues med; paramListeners := paramListeners med;
     allocatedSetters := allocatedSetters med; expressions := expressions med;
     paramConfigs := c; parentFinder := parentFinder med |}.

(** [new ParamMediator(parentFinder)]. *)
Definition newMediator (parent : option nat) (w : World) : nat * World :=
  let m := nextMediator w in
  (m, {| mediators := <[m := newMediatorObject parent]> (mediators w);
         nextMediator := S m; batches := batches w; nextBatch := nextBatch w;
         microtasks := microtasks w; delivered := delivered w |}).

(** ** Reading *)

(** [getValue(paramName)]: [this.#paramValues.get(paramName)]. *)
Definition getValue (m : nat) (paramName : string) (w : World) : value :=
  default VUndefined (paramValues (mediator w m) !! paramName).

(** [this.#paramValues.has(paramName)]. *)
Definition hasValue (w : World) (paramName : string) (m : nat) : bool :=
  bool_decide (is_Some (paramValues (mediator w m) !! paramName)).

(** [findMediatorForParam(paramName)]: one unit of fuel per mediator
    visited. *)
Fixpoint findMediatorForParam (fuel : nat) (m : nat) (paramName : string)
         (w : World) : result (option nat) :=
  match fuel with
  | O => OutOfFuel
  | S fuel' =>
      if hasValue w paramName m then Ok (Some m)
      else
        match parentFinder (mediator w m) with
        | None => Ok None
        | Some p => findMediatorForParam fuel' p paramName w
        end
  end.

(** [findValue(paramName)]: [mediator?.getValue(paramName)]. *)
Definition findValue (fuel : nat) (m : nat) (paramName : string) (w : World)
  : result value :=
  mo ← findMediatorForParam fuel m paramName w;
  mret (match mo with
        | Some o => getValue o paramName w
        | None => VUndefined
        end).

(** The parent chain of a mediator: the mediator, its parent, and so on up
    to the root. *)
Inductive parentChain (w : World) : nat → list nat → Prop :=
| chain_root m :
    parentFinder (mediator w m) = None → parentChain w m [m]
| chain_step m p chain :
    parentFinder (mediator w m) = Some p →
    parentChain w p chain →
    parentChain w m (m :: chain).

(** The nearest mediator of a chain that owns a name. *)
Definition nearestOwner (w : World) (paramName : string) (chain : list nat)
  : option nat :=
  List.find (hasValue w paramName) chain.

(** The global object of an expression: one getter per bound variable,
    reading [mediator.getValue(param)]. *)
Definition globalObject (bindings : list (string * nat)) (w : World)
  : string → value :=
  λ param,
    match map_get param bindings with
    | Some mp => getValue mp param w
    | None => VUndefined
    end.

(** Calling an expression function with a datum. *)
Definition callExpr (e : ExprRefFunction) (datum : value) (w : World) : value :=
  run (fn e) (globalObject (mediatorsForParams e) w) datum.

(** [fn.identifier()]. *)
Definition identifier (e : ExprRefFunction) : string := code (fn e).

(** ** Batched property changes *)

(** [batchPropertyChange(prop)] of the [g]-th [activateExprRefProps] call. *)
Definition batchPropertyChange (g : nat) (prop : string) (w : World) : World :=
  let b := batch w g in
  let altered := alteredProps b ++ [prop] in
  let w1 :=
    setBatch g {| alteredProps := altered; batchListener := batchListener b |} w in
  if decide (length altered = 1) then
    setMicrotasks (microtasks w1 ++ [Flush g]) w1
  else w1.

(** The queued function: [listener(alteredProps.slice());
    alteredProps.length = 0]. *)
Definition runMicrotask (t : microtask) (w : World) : result World :=
  match t with
  | Flush g =>
      let b := batch w g in
      match batchListener b with
      | None => Throw TypeError
      | Some cb =>
          let w1 := setDelivered (delivered w ++ [(cb, alteredProps b)]) w in
          mret (setBatch g {| alteredProps := []; batchListener := Some cb |} w1)
      end
  end.

(** The end of a tick: the microtask queue is run until it is empty. *)
Fixpoint runMicrotasks (fuel : nat) (w : World) : result World :=
  match fuel with
  | O => OutOfFuel
  | S fuel' =>
      match microtasks w with
      | [] => mret w
      | t :: q =>
          w1 ← runMicrotask t (setMicrotasks q w);
          runMicrotasks fuel' w1
      end
  end.

(** ** Setters and listeners *)

(** A listener call, with the listener calls made while it ran. *)
#[warnings="-register-all"]
Inductive call := Call (l : listener) (nested : list call).

Definition calledListener (c : call) : listener :=
  match c with Call l _ => l end.

Definition nestedCalls (c : call) : list call :=
  match c with Call _ n => n end.

(** [this.#paramValues.set(paramName, value)]. *)
Definition storeValue (m : nat) (paramName : string) (v : value) (w : World)
  : World :=
  let med := mediator w m in
  setMediator m (setParamValues (<[paramName := v]> (paramValues med)) med) w.

(** [this.paramListeners.get(paramName)], an absent entry read as no
    listeners. *)
Definition listenersOf (w : World) (m : nat) (paramName : string)
  : list listener :=
  default [] (paramListeners (mediator w m) !! paramName).

Section Notify.
(** The setter closures, as far as the recursion bound allows. *)
Variable setter : nat → string → value → World → result (World * list call).

(** [listener()]. *)
Definition invokeListener (l : listener) (w : World) : result (World * call) :=
  match l with
  | Reapply m name expr =>
      match expressions (mediator w m) !! expr with
      | None => Throw StaleReference
      | Some e =>
          '(w1, cs) ← setter m name (callExpr e VNull w) w;
          mret (w1, Call l cs)
      end
  | BatchChange g key => mret (batchPropertyChange g key w, Call l [])
  | Callback _ => mret (w, Call l [])
  end.

(** [for (const listener of listeners) listener()]. No listener changes
    a registry, so the iteration is over the set as it was. *)
Fixpoint notify (listeners : list listener) (w : World)
  : result (World * list call) :=
  match listeners with
  | [] => mret (w, [])
  | l :: rest =>
      '(w1, c) ← invokeListener l w;
      '(w2, cs) ← notify rest w1;
      mret (w2, c :: cs)
  end.
End Notify.

(** The [setter] closure of [allocateSetter], for mediator [m] and name
    [paramName]. *)
Fixpoint setValue (fuel : nat) (m : nat) (paramName : string) (v : value)
         (w : World) : result (World * list call) :=
  match fuel with
  | O => OutOfFuel
  | S fuel' =>
      let previous := getValue m paramName w in
      if strict_eq v previous then mret (w, [])
      else
        let w1 := storeValue m paramName v w in
        match paramListeners (mediator w1 m) !! paramName with
        | Some listeners => notify (setValue fuel') listeners w1
        | None => mret (w1, [])
        end
  end.

(** What a setter call leaves alone: the registries, the expression
    caches, the allocated setters and the parent links of every mediator. *)
Definition sameStructure (w w' : World) : Prop :=
  ∀ m,
    paramListeners (mediator w' m) = paramListeners (mediator w m)
    ∧ expressions (mediator w' m) = expressions (mediator w m)
    ∧ allocatedSetters (mediator w' m) = allocatedSetters (mediator w m)
    ∧ parentFinder (mediator w' m) = parentFinder (mediator w m).

(** The dependencies between parameters are well founded: a listener that
    re-applies an expression-backed parameter is registered on parameters
    of a higher rank only, and its expression is in the cache of its
    mediator. *)
Definition cascadeBounded (rank : nat * string → nat) (w : World) : Prop :=
  ∀ m paramName m' name' expr,
    Reapply m' name' expr ∈ listenersOf w m paramName →
    rank (m', name') < rank (m, paramName)
    ∧ is_Some (expressions (mediator w m') !! expr).

(** Every registry is a set. *)
Definition registriesAreSets (w : World) : Prop :=
  ∀ m paramName, NoDup (listenersOf w m paramName).

(** The setters a caller can hold: the closure of [allocateSetter], or the
    [(_) => undefined] of [registerParam]. *)
Inductive ParameterSetter :=
| RealSetter (m : nat) (paramName : string)
| NopSetter.

Definition applySetter (fuel : nat) (s : ParameterSetter) (v : value) (w : World)
  : result (World * list call) :=
  match s with
  | RealSetter m paramName => setValue fuel m paramName v w
  | NopSetter => mret (w, [])
  end.

(** [allocateSetter(paramName, initialValue)]. *)
Definition allocateSetter (fuel : nat) (m : nat) (paramName : string)
           (initialValue : value) (w : World)
  : result (World * ParameterSetter * list call) :=
  if decide (paramName ∈ allocatedSetters (mediator w m)) then
    Throw (SetterAlreadyAllocated paramName)
  else
    '(w1, cs) ← setValue fuel m paramName initialValue w;
    let med := mediator w1 m in
    mret (setMediator m
            (setAllocatedSetters ({[paramName]} ∪ allocatedSetters med) med) w1,
          RealSetter m paramName, cs).

(** [getSetter(paramName)]. *)
Definition getSetter (m : nat) (paramName : string) (w : World)
  : result ParameterSetter :=
  if decide (paramName ∈ allocatedSetters (mediator w m)) then
    mret (RealSetter m paramName)
  else Throw (SetterNotFound paramName).

(** ** Expressions *)

(** [fn.addListener(listener)] on the expression cached under [expr] by
    mediator [m]: one registry entry per bound variable. *)
Definition addListenerTo (l : listener) (w : World) (binding : string * nat)
  : World :=
  let '(param, mp) := binding in
  let med := mediator w mp in
  let listeners := default [] (paramListeners med !! param) in
  setMediator mp
    (setParamListeners (<[param := set_add l listeners]> (paramListeners med))
       med) w.

Definition addListener (m : nat) (expr : string) (l : listener) (w : World)
  : result World :=
  match expressions (mediator w m) !! expr with
  | None => Throw StaleReference
  | Some e =>
      let w1 := foldl (addListenerTo l) w (mediatorsForParams e) in
      let mine :=
        match mediatorsForParams e with
        | [] => myListeners e
        | _ :: _ => set_add l (myListeners e)
        end in
      let med := mediator w1 m in
      mret (setMediator m
              (setExpressions
                 (<[expr := {| fn := fn e;
                               mediatorsForParams := mediatorsForParams e;
                               myListeners := mine |}]> (expressions med))
                 med) w1)
  end.

(** [fn.invalidate()]:
    [mediator.paramListeners.get(param)?.delete(listener)] for every bound
    variable and every listener of [myListeners]. *)
Definition deleteListeners (mine : list listener) (listeners : list listener)
  : list listener :=
  foldl (λ ls l, set_delete l ls) listeners mine.

Definition invalidateAt (mine : list listener) (w : World)
           (binding : string * nat) : World :=
  let '(param, mp) := binding in
  let med := mediator w mp in
  setMediator mp
    (setParamListeners (alter (deleteListeners mine) param (paramListeners med))
       med) w.

Definition invalidate (m : nat) (expr : string) (w : World) : result World :=
  match expressions (mediator w m) !! expr with
  | None => Throw StaleReference
  | Some e => mret (foldl (invalidateAt (myListeners e)) w (mediatorsForParams e))
  end.

Section Compiler.
(** [createFunction(expr, globalObject)]; [None] when it throws. *)
Variable createFunction : string → option CompiledExpr.

(** The loop of [createExpression] over [fn.globals]. *)
Fixpoint bindGlobals (fuel : nat) (m : nat) (expr : string)
         (params : list string) (mediatorsForParams : list (string * nat))
         (w : World) : result (list (string * nat)) :=
  match params with
  | [] => mret mediatorsForParams
  | param :: rest =>
      mo ← findMediatorForParam fuel m param w;
      match mo with
      | None => Throw (UnknownVariable param expr)
      | Some mp =>
          bindGlobals fuel m expr rest (map_set param mp mediatorsForParams) w
      end
  end.

(** [createExpression(expr)]. The function returned is the one cached
    under [expr] in mediator [m]. *)
Definition createExpression (fuel : nat) (m : nat) (expr : string) (w : World)
  : result (World * ExprRefFunction) :=
  match expressions (mediator w m) !! expr with
  | Some e => mret (w, e)
  | None =>
      match createFunction expr with
      | None => Throw (CompileError expr)
      | Some f =>
          bindings ← bindGlobals fuel m expr (globals f) [] w;
          let e := {| fn := f; mediatorsForParams := bindings;
                      myListeners := [] |} in
          let med := mediator w m in
          mret (setMediator m
                  (setExpressions (<[expr := e]> (expressions med)) med) w,
                e)
      end
  end.

(** [evaluateAndGet(expr)]. *)
Definition evaluateAndGet (fuel : nat) (m : nat) (expr : string) (w : World)
  : result (World * value) :=
  '(w1, e) ← createExpression fuel m expr w;
  mret (w1, callExpr e VUndefined w1).

Definition recordConfig (m : nat) (param : VariableParameter) (w : World)
  : World :=
  let med := mediator w m in
  setMediator m
    (setParamConfigs (<[param_name param := param]> (paramConfigs med)) med) w.

(** [registerParam(param)]. The setter returned is [None] when the
    parameter has neither a value nor an expression. *)
Definition registerParam (fuel : nat) (m : nat) (param : VariableParameter)
           (w : World)
  : result (World * option ParameterSetter * list call) :=
  match param_value param, param_expr param with
  | Some _, Some _ => Throw (BothValueAndExpr (param_name param))
  | Some v, None =>
      '(w1, setter, cs) ← allocateSetter fuel m (param_name param) v w;
      mret (recordConfig m param w1, Some setter, cs)
  | None, Some src =>
      '(w1, expr) ← createExpression fuel m src w;
      '(w2, realSetter, cs) ←
        allocateSetter fuel m (param_name param) (callExpr expr VNull w1) w1;
      w3 ← addListener m src (Reapply m (param_name param) src) w2;
      mret (recordConfig m param w3, Some NopSetter, cs)
  | None, None => mret (recordConfig m param w, None, [])
  end.

(** A property of the record given to [activateExprRefProps]: a plain
    value or an [ExprRef]; and a property of the record it returns: a
    plain value or a getter calling the expression. *)
Inductive prop := PropValue (v : value) | PropExprRef (expr : string).
Inductive activatedProp := Plain (v : value) | Getter (m : nat) (expr : string).

Definition isExprRef (x : prop) : bool :=
  match x with PropExprRef _ => true | PropValue _ => false end.

Definition withoutExprRef (x : prop) : result value :=
  match x with
  | PropExprRef _ => Throw TypeError
  | PropValue v => mret v
  end.

(** The loop of [activateExprRefProps] over [Object.entries(props)]. *)
Fixpoint activateEntries (fuel : nat) (m : nat) (g : nat) (hasListener : bool)
         (props : list (string * prop)) (w : World)
  : result (World * list (string * activatedProp)) :=
  match props with
  | [] => mret (w, [])
  | (key, PropExprRef src) :: rest =>
      '(w1, _) ← createExpression fuel m src w;
      w2 ← (if hasListener then addListener m src (BatchChange g key) w1
            else mret w1);
      '(w3, activated) ← activateEntries fuel m g hasListener rest w2;
      mret (w3, (key, Getter m src) :: activated)
  | (key, PropValue v) :: rest =>
      '(w1, activated) ← activateEntries fuel m g hasListener rest w;
      mret (w1, (key, Plain v) :: activated)
  end.

(** [activateExprRefProps(paramMediator, props, listener)]: returns the
    reference of the batch state with the activated properties. *)
Definition activateExprRefProps (fuel : nat) (m : nat)
           (props : list (string * prop)) (listener : option nat) (w : World)
  : result (World * nat * list (string * activatedProp)) :=
  let g := nextBatch w in
  let w0 :=
    {| mediators := mediators w; nextMediator := nextMediator w;
       batches := <[g := {| alteredProps := []; batchListener := listener |}]>
                    (batches w);
       nextBatch := S g; microtasks := microtasks w;
       delivered := delivered w |} in
  '(w1, activated) ←
    activateEntries fuel m g (bool_decide (is_Some listener)) props w0;
  mret (w1, g, activated).

(** Reading a property of the activated record. *)
Definition readProp (a : activatedProp) (w : World) : value :=
  match a with
  | Plain v => v
  | Getter m src =>
      match expressions (mediator w m) !! src with
      | Some e => callExpr e VUndefined w
      | None => VUndefined
      end
  end.
End Compiler.

End ParamMediator.

(* ===================================================================== *)
(** * Vertex builders *)
(* ===================================================================== *)

Module VertexBuilder.

(** The values of the attributes of one vertex: components by attribute
    name. *)
Abbreviation attributes := (gmap string (list num)).

(** Modelled from the spec: [ArrayBuilder] ([./arrayBuilder] is imported by
    [dataToVertices.js] and missing from the sources). A store with one
    entry per vertex: the builder holds the current value of every
    attribute, a converter or an updater overwrites the value of its
    attribute, and [pushAll] appends the current values as one vertex. *)
Record ArrayBuilder := {
  current : attributes;
  arrays : list attributes
}.

(** Modelled from the spec: the builder [ArrayBuilder.create] returns,
    before any datum. *)
Definition emptyArrayBuilder : ArrayBuilder :=
  {| current := ∅; arrays := [] |}.

(** Modelled from the spec: the [vertexCount] of an [ArrayBuilder], the
    number of vertices pushed. *)
Definition vertexCount (b : ArrayBuilder) : nat := length (arrays b).

(** Modelled from the spec: the function [createUpdater(attributeName, 1)]
    of an [ArrayBuilder] returns; it sets the current value of the
    attribute. *)
Definition update (attributeName : string) (v : num) (b : ArrayBuilder)
  : ArrayBuilder :=
  {| current := <[attributeName := [v]]> (current b); arrays := arrays b |}.

(** Modelled from the spec: [pushAll()] of an [ArrayBuilder]; one more
    vertex, with the current values. *)
Definition pushAll (b : ArrayBuilder) : ArrayBuilder :=
  {| current := current b; arrays := arrays b ++ [current b] |}.

(** Modelled from the spec: [toValues()] of an [ArrayBuilder], used for the
    constant builder; the single value of every attribute. *)
Definition toValues (b : ArrayBuilder) : attributes := current b.

(** [{offset, count}], in vertices. *)
Record RangeEntry := { offset : nat; count : nat }.

Record VertexBuilderState := {
  variableBuilder : ArrayBuilder;
  constantBuilder : ArrayBuilder;
  index : nat;
  rangeMap : list (string * RangeEntry)
}.

Definition setVariableBuilder (b : ArrayBuilder) (vb : VertexBuilderState)
  : VertexBuilderState :=
  {| variableBuilder := b; constantBuilder := constantBuilder vb;
     index := index vb; rangeMap := rangeMap vb |}.

Definition setRange (key : string) (r : RangeEntry) (vb : VertexBuilderState)
  : VertexBuilderState :=
  {| variableBuilder := variableBuilder vb;
     constantBuilder := constantBuilder vb;
     index := index vb; rangeMap := map_set key r (rangeMap vb) |}.

(** What [toArrays()] returns. *)
Record Arrays := {
  variableArrays : list attributes;
  constantValues : attributes;
  arraysVertexCount : nat;
  arraysRangeMap : list (string * RangeEntry);
  componentNumbers : list (string * nat)
}.

(** The ranges of a range map, as the data model wants them: each starts
    where the one before it ends, none is empty, and together they cover
    the vertices from [start] up to [stop]. *)
Fixpoint contiguous (start : nat) (ranges : list (string * RangeEntry))
         (stop : nat) : Prop :=
  match ranges with
  | [] => start = stop
  | (_, r) :: rest =>
      offset r = start ∧ 0 < count r ∧ contiguous (start + count r) rest stop
  end.

Definition totalCount (ranges : list (string * RangeEntry)) : nat :=
  sum_list (map (λ kr, count (snd kr)) ranges).

(** The range map after batches of the given sizes, added in order from
    vertex [start] on under distinct keys. *)
Fixpoint expectedRanges (start : nat) (sizes : list (string * nat))
  : list (string * RangeEntry) :=
  match sizes with
  | [] => []
  | (key, n) :: rest =>
      if decide (n = 0) then expectedRanges start rest
      else (key, {| offset := start; count := n |})
             :: expectedRanges (start + n) rest
  end.

(** The number of vertices of batches of the given sizes. *)
Definition sizesTotal (sizes : list (string * nat)) : nat :=
  sum_list (map snd sizes).

(** The sizes of a sequence of batches, for a mark with [perItem d]
    vertices for the datum [d]. *)
Definition batchSizes {datum} (perItem : datum → nat)
           (batches : list (string * list datum)) : list (string * nat) :=
  map (λ kd, (fst kd, sum_list (map perItem (snd kd)))) batches.

Section Encoders.
(** The data items, and what the encoders and converters make of them:
    [convert d] is the value each converter of the variable builder
    computes from [d], [constants] what the converters of the constant
    builder compute from the empty datum, [numComponents] the component
    count of every converter. *)
Variable datum : Type.
Variable convert : datum → attributes.
Variable constants : attributes.
Variable numComponents : list (string * nat).

(** Modelled from the spec: [updateFromDatum(d)] of an [ArrayBuilder],
    for the variable builder; every converter sets the current value of
    its attribute. *)
Definition updateFromDatum (d : datum) (b : ArrayBuilder) : ArrayBuilder :=
  {| current := convert d ∪ current b; arrays := arrays b |}.

(** Modelled from the spec: [pushFromDatum(d)] of an [ArrayBuilder]; the
    vertex of a datum. *)
Definition pushFromDatum (d : datum) (b : ArrayBuilder) : ArrayBuilder :=
  pushAll (updateFromDatum d b).

(** [new VertexBuilder(encoders, converters, size)]. *)
Definition newVertexBuilder : VertexBuilderState :=
  {| variableBuilder := emptyArrayBuilder;
     constantBuilder :=
       pushAll {| current := constants ∪ ∅; arrays := [] |};
     index := 0;
     rangeMap := [] |}.

(** The loop body of [VertexBuilder.addBatch]. *)
Definition addPoint (vb : VertexBuilderState) (p : datum) : VertexBuilderState :=
  {| variableBuilder := pushFromDatum p (variableBuilder vb);
     constantBuilder := constantBuilder vb;
     index := S (index vb);
     rangeMap := rangeMap vb |}.

(** [VertexBuilder.addBatch(key, points)]. *)
Definition addBatch (key : string) (points : list datum)
           (vb : VertexBuilderState) : VertexBuilderState :=
  let offset := index vb in
  let vb1 := foldl addPoint vb points in
  let count := index vb1 - offset in
  if decide (count = 0) then vb1
  else setRange key {| offset := offset; count := count |} vb1.

(** [VertexBuilder.toArrays()]. *)
Definition toArrays (vb : VertexBuilderState) : Arrays :=
  {| variableArrays := arrays (variableBuilder vb);
     constantValues := toValues (constantBuilder vb);
     arraysVertexCount := index vb;
     arraysRangeMap := rangeMap vb;
     componentNumbers := numComponents |}.

(** ** Rect marks *)

(** The encoders [RectVertexBuilder] reads itself, the attribute prefix
    of [glslScaleGenerator], and the visible range. The [squeeze] encoder
    gives [None] for a missing value. *)
Variable xAccessor x2Accessor yAccessor y2Accessor : datum → num.
Variable squeezeEncoder : datum → option string.
Variable ATTRIBUTE_PREFIX : string.
Variable visibleRange : num * num.

Definition updateX := update (ATTRIBUTE_PREFIX +:+ "x").
Definition updateY := update (ATTRIBUTE_PREFIX +:+ "y").
Definition updateWidth := update "width".
Definition updateHeight := update "height".

Record SqueezeCoords := {
  ax : num; ay : num; bx : num; by_ : num; cx : num; cy : num
}.

(** [_squeeze(squeeze, x, x2, y, y2)]; [None] is the [undefined] of the
    [default] case. *)
Definition _squeeze (squeeze : string) (x x2 y y2 : num)
  : option SqueezeCoords :=
  let two := Num.Fin (2 # 1) in
  if decide (squeeze = "bottom") then
    Some {| ax := x; ay := y2; bx := Num.div (Num.add x x2) two; by_ := y;
            cx := x2; cy := y2 |}
  else if decide (squeeze = "top") then
    Some {| ax := x; ay := y; bx := x2; by_ := y;
            cx := Num.div (Num.add x x2) two; cy := y2 |}
  else if decide (squeeze = "left") then
    Some {| ax := x; ay := Num.div (Num.add y y2) two; bx := x2; by_ := y;
            cx := x2; cy := y2 |}
  else if decide (squeeze = "right") then
    Some {| ax := x; ay := y; bx := x2; by_ := Num.div (Num.add y y2) two;
            cx := x; cy := y2 |}
  else None.

(** [squeeze && squeeze != "none"]. *)
Definition squeezed (squeeze : option string) : option string :=
  match squeeze with
  | Some s => if decide (s = "" ∨ s = "none") then None else Some s
  | None => None
  end.

(** One round of the tile loop of the non-squeezed branch. *)
Definition tileCount : nat := 1.

Definition addTile (x y y2 width height : num)
           (b : ArrayBuilder) (i : nat) : ArrayBuilder :=
  let frac := Num.div (Num.of_nat i) (Num.of_nat tileCount) in
  let w :=
    if decide (i = 0) then Num.neg width
    else if decide (tileCount ≤ i)%nat then width
    else Num.Fin (0 # 1) in
  let b := updateWidth w b in
  let tx :=
    if Num.isFinite width then Num.add x (Num.mul width frac)
    else if decide (i = 0) then Num.NegInf else Num.PosInf in
  let b := updateX tx b in
  let b := updateY y b in
  let b := updateHeight (Num.neg height) b in
  let b := pushAll b in
  let b := updateY y2 b in
  let b := updateHeight height b in
  pushAll b.

(** The part of the loop body of [RectVertexBuilder.addBatch] after the
    clipping: the vertices of a rect with the x extent [x .. x2]. *)
Definition addRect (d : datum) (x x2 : num) (b : ArrayBuilder)
  : result ArrayBuilder :=
  let y := yAccessor d in
  let y2 := y2Accessor d in
  let '(y, y2) := if Num.gt y y2 then (y2, y) else (y, y2) in
  let width := Num.sub x2 x in
  let height := Num.sub y2 y in
  let b := updateFromDatum d b in
  match squeezed (squeezeEncoder d) with
  | Some squeeze =>
      match _squeeze squeeze x x2 y y2 with
      | None => Throw TypeError
      | Some c =>
          let b := updateX (ax c) b in
          let b := updateY (ay c) b in
          let b := pushAll b in
          let b := pushAll b in
          let b := updateX (bx c) b in
          let b := updateY (by_ c) b in
          let b := pushAll b in
          let b := updateX (cx c) b in
          let b := updateY (cy c) b in
          let b := pushAll b in
          mret (pushAll b)
      end
  | None =>
      let b := updateX x b in
      let b := updateWidth (Num.neg width) b in
      let b := updateY y b in
      let b := updateHeight (Num.neg height) b in
      let b := pushAll b in
      let b := foldl (addTile x y y2 width height) b (seq 0 (S tileCount)) in
      let b := updateFromDatum d b in
      let b := updateX x2 b in
      let b := updateWidth width b in
      let b := updateHeight height b in
      let b := updateY y2 b in
      mret (pushAll b)
  end.

(** The loop body of [RectVertexBuilder.addBatch]. *)
Definition addRectDatum (b : ArrayBuilder) (d : datum) : result ArrayBuilder :=
  let '(lower, upper) := visibleRange in
  let x := xAccessor d in
  let x2 := x2Accessor d in
  let '(x, x2) := if Num.gt x x2 then (x2, x) else (x, x2) in
  if Num.lt x2 lower || Num.gt x upper then mret b
  else
    let x := if Num.lt x lower then lower else x in
    let x2 := if Num.gt x2 upper then upper else x2 in
    addRect d x x2 b.

Fixpoint addRectData (b : ArrayBuilder) (data : list datum)
  : result ArrayBuilder :=
  match data with
  | [] => mret b
  | d :: rest => b1 ← addRectDatum b d; addRectData b1 rest
  end.

(** [RectVertexBuilder.addBatch(key, data)]. *)
Definition rectAddBatch (key : string) (data : list datum)
           (vb : VertexBuilderState) : result VertexBuilderState :=
  let offset := vertexCount (variableBuilder vb) in
  b ← addRectData (variableBuilder vb) data;
  let vb1 := setVariableBuilder b vb in
  let count := vertexCount b - offset in
  mret (if decide (count = 0) then vb1
        else setRange key {| offset := offset; count := count |} vb1).
(** A sequence of [addBatch] calls. *)
Definition addBatches (batches : list (string * list datum))
           (vb : VertexBuilderState) : VertexBuilderState :=
  foldl (λ vb kd, addBatch (fst kd) (snd kd) vb) vb batches.

Fixpoint rectAddBatches (batches : list (string * list datum))
         (vb : VertexBuilderState) : result VertexBuilderState :=
  match batches with
  | [] => mret vb
  | (key, data) :: rest =>
      vb1 ← rectAddBatch key data vb; rectAddBatches rest vb1
  end.

(** [d'] is [d] with each coordinate pair put in order beforehand, and is
    the same datum to every other encoder and converter. *)
Definition ordered (p : num * num) : num * num :=
  if Num.gt (fst p) (snd p) then (snd p, fst p) else p.

Definition preSwapped (d d' : datum) : Prop :=
  convert d' = convert d
  ∧ squeezeEncoder d' = squeezeEncoder d
  ∧ (xAccessor d', x2Accessor d') = ordered (xAccessor d, x2Accessor d)
  ∧ (yAccessor d', y2Accessor d') = ordered (yAccessor d, y2Accessor d).

(** A datum lies fully outside the visible range when, once its x pair is
    in order, it ends before [lower] or starts after [upper]. *)
Definition fullyOutside (d : datum) : bool :=
  let '(x, x2) := ordered (xAccessor d, x2Accessor d) in
  Num.lt x2 (fst visibleRange) || Num.gt x (snd visibleRange).

(** The x pair in order and cut to the visible range. *)
Definition clamped (d : datum) : num * num :=
  let '(x, x2) := ordered (xAccessor d, x2Accessor d) in
  (if Num.lt x (fst visibleRange) then fst visibleRange else x,
   if Num.gt x2 (snd visibleRange) then snd visibleRange else x2).

(** The number of vertices of a rect datum: none when it is clipped away,
    five for a squeezed rect, six otherwise. *)
Definition rectVertexCount (d : datum) : nat :=
  if fullyOutside d then 0
  else match squeezed (squeezeEncoder d) with Some _ => 5 | None => 6 end.

(** The squeeze names [_squeeze] knows. *)
Definition knownSqueeze (d : datum) : bool :=
  match squeezed (squeezeEncoder d) with
  | None => true
  | Some s => bool_decide (s ∈ ["bottom"; "top"; "left"; "right"])
  end.
End Encoders.

(** ** The converters the constructor sets up *)

(** Modelled from the spec: the [Encoder] of [../encoder/encoder], which is
    missing from the sources; a function of the datum ([encode]) with the
    properties [constant], [scale] and [accessor]. Of the scale, only
    whether its type is continuous matters here; [None] is a missing
    scale. *)
Record Encoder (datum : Type) := {
  constant : bool;
  scale : option bool;
  accessor : datum → num;
  encode : datum → num
}.

Arguments constant {datum} _.
Arguments scale {datum} _.
Arguments accessor {datum} _.
Arguments encode {datum} _.

Section Constructor.
Variable datum : Type.

(** The encoders of the channels [x], [y], [x2], [y2] and [size], where
    present; the squeeze encoder; what the other converters ([color],
    [opacity] and those of the subclass) compute from a datum. *)
Variables ex ey ex2 ey2 esize : option (Encoder datum).
Variable squeezeEncoder : datum → option string.
Variable others : datum → attributes.
Variable ATTRIBUTE_PREFIX : string.
Variable visibleRange : num * num.

(** The raw converter of a channel, as an attribute of the variable
    builder: there is one when the encoder has a scale and is not
    constant; it is stored under the prefixed channel name. *)
Definition rawConverter (channel : string) (e : option (Encoder datum))
           (d : datum) : attributes :=
  match e with
  | Some ce =>
      match scale ce with
      | Some continuous =>
          if constant ce then ∅
          else {[ ATTRIBUTE_PREFIX +:+ channel
                  := [(if continuous then accessor ce else encode ce) d] ]}
      | None => ∅
      end
  | None => ∅
  end.

(** All converters of the variable builder. *)
Definition converters (d : datum) : attributes :=
  rawConverter "x" ex d ∪ rawConverter "y" ey d ∪ rawConverter "x2" ex2 d
  ∪ rawConverter "y2" ey2 d ∪ rawConverter "size" esize d ∪ others d.

(** [a(encoder)] of [RectVertexBuilder.addBatch]. *)
Definition a (e : option (Encoder datum)) : result (datum → num) :=
  match e with
  | None => Throw TypeError
  | Some ce =>
      if constant ce then mret (encode ce)
      else
        match scale ce with
        | Some continuous => mret (if continuous then accessor ce else encode ce)
        | None => Throw TypeError
        end
  end.

(** [VertexBuilder.addBatch] and [RectVertexBuilder.addBatch] of a builder
    made by the constructor. *)
Definition VertexBuilder_addBatch :=
  addBatch datum converters.

Definition RectVertexBuilder_addBatch (key : string) (data : list datum)
           (vb : VertexBuilderState) : result VertexBuilderState :=
  xAccessor ← a ex;
  x2Accessor ← a ex2;
  yAccessor ← a ey;
  y2Accessor ← a ey2;
  rectAddBatch datum converters xAccessor x2Accessor yAccessor y2Accessor
    squeezeEncoder ATTRIBUTE_PREFIX visibleRange key data vb.
End Constructor.

(** ** Comparing vertices attribute by attribute *)

(** Two vertices agree outside a set of attribute names. *)
Definition agreeOutside (S : gset string) (v v' : attributes) : Prop :=
  ∀ attribute, attribute ∉ S → v !! attribute = v' !! attribute.

(** Two builders agree: the current values outside [Sc], the vertices
    pushed so far, one by one, outside [Sa]. *)
Definition buildersAgree (Sc Sa : gset string) (b b' : ArrayBuilder) : Prop :=
  agreeOutside Sc (current b) (current b')
  ∧ Forall2 (agreeOutside Sa) (arrays b) (arrays b').

(** The attributes the raw converters of the coordinate channels fill,
    and those among them that the rect builder does not overwrite. *)
Definition coordinateAttributes (ATTRIBUTE_PREFIX : string) : gset string :=
  {[ ATTRIBUTE_PREFIX +:+ "x"; ATTRIBUTE_PREFIX +:+ "y";
     ATTRIBUTE_PREFIX +:+ "x2"; ATTRIBUTE_PREFIX +:+ "y2" ]}.

Definition secondaryAttributes (ATTRIBUTE_PREFIX : string) : gset string :=
  {[ ATTRIBUTE_PREFIX +:+ "x2"; ATTRIBUTE_PREFIX +:+ "y2" ]}.

(** [d'] is [d] with each coordinate pair put in order beforehand: the
    converters may differ on the coordinate attributes only, the squeeze
    encoder gives the same, and the accessors give the ordered pairs. *)
Definition swappedBeforehand {datum} (convert : datum → attributes)
           (xAccessor x2Accessor yAccessor y2Accessor : datum → num)
           (squeezeEncoder : datum → option string) (ATTRIBUTE_PREFIX : string)
           (d d' : datum) : Prop :=
  agreeOutside (coordinateAttributes ATTRIBUTE_PREFIX) (convert d) (convert d')
  ∧ squeezeEncoder d' = squeezeEncoder d
  ∧ (xAccessor d', x2Accessor d') = ordered (xAccessor d, x2Accessor d)
  ∧ (yAccessor d', y2Accessor d') = ordered (yAccessor d, y2Accessor d).

End VertexBuilder.

(* ===================================================================== *)
(** * Sample-facet placement (GLSL) *)
(* ===================================================================== *)

Module SampleFacet.

Local Open Scope Q_scope.

Record vec2 := Vec2 { v2x : Q; v2y : Q }.
Record vec4 := Vec4 { v4x : Q; v4y : Q; v4z : Q; v4w : Q }.

(** Swizzles [.xy] and [.zw]. *)
Definition xy (u : vec4) : vec2 := Vec2 (v4x u) (v4y u).
Definition zw (u : vec4) : vec2 := Vec2 (v4z u) (v4w u).

(** GLSL [!=] on vectors: true when some component differs. *)
Definition vec2_ne (a b : vec2) : bool :=
  negb (Qeq_bool (v2x a) (v2x b) && Qeq_bool (v2y a) (v2y b)).

Definition vec4_ne (a b : vec4) : bool :=
  negb (Qeq_bool (v4x a) (v4x b) && Qeq_bool (v4y a) (v4y b)
        && Qeq_bool (v4z a) (v4z b) && Qeq_bool (v4w a) (v4w b)).

(** GLSL built-ins [clamp], [smoothstep] and [mix]. *)
Definition clamp (x lo hi : Q) : Q := Qmin (Qmax x lo) hi.

Definition smoothstep (edge0 edge1 x : Q) : Q :=
  let t := clamp ((x - edge0) / (edge1 - edge0)) 0 1 in
  t * t * (3 - 2 * t).

Definition mix (a b t : Q) : Q := a * (1 - t) + b * t.

Definition mix2 (a b : vec2) (t : Q) : vec2 :=
  Vec2 (mix (v2x a) (v2x b) t) (mix (v2y a) (v2y b) t).

Section Uniforms.
(** [uniform vec4 uSampleFacet]: left pos, left height, right pos, right
    height. [uniform float uTransitionOffset]. *)
Variable uSampleFacet : vec4.
Variable uTransitionOffset : Q.

Definition isFacetedSamples : bool :=
  vec4_ne uSampleFacet (Vec4 0 1 0 1).

Definition isInTransit : bool :=
  vec2_ne (xy uSampleFacet) (zw uSampleFacet).

Definition applySampleFacet (pos : vec2) : vec2 :=
  if negb isFacetedSamples then pos
  else
    let left := xy uSampleFacet in
    let right := zw uSampleFacet in
    let interpolated :=
      if isInTransit then
        let fraction :=
          smoothstep 0 ((7 # 10) + uTransitionOffset)
                     ((v2x pos - uTransitionOffset) * 2) in
        mix2 left right fraction
      else left in
    Vec2 (v2x pos) (v2x interpolated + v2y pos * v2y interpolated).

Definition getSampleFacetHeight (pos : vec2) : Q := 1.
End Uniforms.

End SampleFacet.

(* ===================================================================== *)
(** * Sample inputs *)
(* ===================================================================== *)

Module Examples.

Definition int (z : Z) : num := Num.Fin (inject_Z z).

(** Rect data with numeric fields [x], [x2], [y], [y2], a [squeeze] field
    and an [opacity] field; the positional encoders read the fields. *)
Record rect := {
  x : num; x2 : num; y : num; y2 : num;
  squeeze : option string;
  opacity : num
}.

Definition rectConvert (d : rect) : VertexBuilder.attributes :=
  {[ "opacity" := [opacity d] ]}.

Definition mkRect (x x2 y y2 : Z) : rect :=
  {| x := int x; x2 := int x2; y := int y; y2 := int y2;
     squeeze := None; opacity := int 1 |}.

Definition rectAddDatum (visibleRange : num * num) :=
  VertexBuilder.addRectDatum rect rectConvert x x2 y y2 squeeze "attr_"
    visibleRange.

Definition rectAddBatch (visibleRange : num * num) :=
  VertexBuilder.rectAddBatch rect rectConvert x x2 y y2 squeeze "attr_"
    visibleRange.

Definition squeezedRect : rect :=
  {| x := int 0; x2 := int 1; y := int 0; y2 := int 1;
     squeeze := Some "top"; opacity := int 1 |}.

Definition everywhere : num * num := (Num.NegInf, Num.PosInf).

(** The encoder of a numeric field on a continuous scale. *)
Definition fieldEncoder (f : rect → num) : VertexBuilder.Encoder rect :=
  {| VertexBuilder.constant := false; VertexBuilder.scale := Some true;
     VertexBuilder.accessor := f; VertexBuilder.encode := f |}.

(** The converters and [addBatch] of a rect builder made by the
    constructor from field encoders for [x], [y], [x2] and [y2]. *)
Definition constructedConverters : rect → VertexBuilder.attributes :=
  VertexBuilder.converters rect (Some (fieldEncoder x)) (Some (fieldEncoder y))
    (Some (fieldEncoder x2)) (Some (fieldEncoder y2)) None rectConvert "attr_".

Definition constructedRectAddBatch :=
  VertexBuilder.RectVertexBuilder_addBatch rect
    (Some (fieldEncoder x)) (Some (fieldEncoder y))
    (Some (fieldEncoder x2)) (Some (fieldEncoder y2)) None
    squeeze rectConvert "attr_" everywhere.

Definition newBuilder : VertexBuilder.VertexBuilderState :=
  VertexBuilder.newVertexBuilder ∅.

(** A compiler for three sources over the variables [a] and [b]. *)
Definition plus (u v : value) : value :=
  match u, v with
  | VNum p, VNum q => VNum (Num.add p q)
  | _, _ => VNum Num.NaN
  end.

Definition demoCreateFunction (expr : string)
  : option ParamMediator.CompiledExpr :=
  if decide (expr = "a") then
    Some {| ParamMediator.globals := ["a"]; ParamMediator.code := "a";
            ParamMediator.run := λ g _, g "a" |}
  else if decide (expr = "a + 1") then
    Some {| ParamMediator.globals := ["a"]; ParamMediator.code := "a + 1";
            ParamMediator.run := λ g _, plus (g "a") (VNum (int 1)) |}
  else if decide (expr = "a + b") then
    Some {| ParamMediator.globals := ["a"; "b"]; ParamMediator.code := "a + b";
            ParamMediator.run := λ g _, plus (g "a") (g "b") |}
  else None.

Definition staticParam (name : string) (v : value)
  : ParamMediator.VariableParameter :=
  {| ParamMediator.param_name := name; ParamMediator.param_value := Some v;
     ParamMediator.param_expr := None |}.

Definition exprParam (name : string) (expr : string)
  : ParamMediator.VariableParameter :=
  {| ParamMediator.param_name := name; ParamMediator.param_value := None;
     ParamMediator.param_expr := Some expr |}.

(** A parent (mediator 0) with two children (mediators 1 and 2). *)
Definition family : ParamMediator.World :=
  let w := (ParamMediator.newMediator None ParamMediator.emptyWorld).2 in
  let w := (ParamMediator.newMediator (Some 0) w).2 in
  (ParamMediator.newMediator (Some 0) w).2.

(** The world of a call that returned, the given world otherwise. *)
Definition worldOf {A B} (r : result (ParamMediator.World * A * B))
           (w : ParamMediator.World) : ParamMediator.World :=
  match r with Ok (w1, _, _) => w1 | _ => w end.

(** The first child registers ["threshold"] with the value 10. *)
Definition familyWithThreshold : ParamMediator.World :=
  worldOf (ParamMediator.registerParam demoCreateFunction 3 1
             (staticParam "threshold" (VNum (int 10))) family) family.

(** The world of a call that returned, the given world otherwise. *)
Definition worldOf1 {A} (r : result (ParamMediator.World * A))
           (w : ParamMediator.World) : ParamMediator.World :=
  match r with Ok (w1, _) => w1 | _ => w end.

Definition worldOf0 (r : result ParamMediator.World) (w : ParamMediator.World)
  : ParamMediator.World :=
  match r with Ok w1 => w1 | _ => w end.

(** One mediator with [a = 1], the expression-backed [b = a + 1], and a
    callback subscribed to the expression [a]. *)
Definition reactive : ParamMediator.World :=
  let w := (ParamMediator.newMediator None ParamMediator.emptyWorld).2 in
  let w := worldOf (ParamMediator.registerParam demoCreateFunction 2 0
                      (staticParam "a" (VNum (int 1))) w) w in
  let w := worldOf (ParamMediator.registerParam demoCreateFunction 2 0
                      (exprParam "b" "a + 1") w) w in
  let w := worldOf1 (ParamMediator.createExpression demoCreateFunction 2 0
                       "a" w) w in
  worldOf0 (ParamMediator.addListener 0 "a" (ParamMediator.Callback 7) w) w.

(** One mediator with [a = 1]. *)
Definition single : ParamMediator.World :=
  let w := (ParamMediator.newMediator None ParamMediator.emptyWorld).2 in
  worldOf (ParamMediator.registerParam demoCreateFunction 2 0
             (staticParam "a" (VNum (int 1))) w) w.

(** One mediator with [a = 1] and the two expressions [a] and [a + 1],
    compiled and without listeners. *)
Definition shared : ParamMediator.World :=
  let w := (ParamMediator.newMediator None ParamMediator.emptyWorld).2 in
  let w := worldOf (ParamMediator.registerParam demoCreateFunction 2 0
                      (staticParam "a" (VNum (int 1))) w) w in
  let w := worldOf1 (ParamMediator.createExpression demoCreateFunction 2 0
                       "a" w) w in
  worldOf1 (ParamMediator.createExpression demoCreateFunction 2 0 "a + 1" w) w.

(** One mediator with [a = 1] and [b = 2], and a record with the property
    [sum] given by the expression [a + b], activated with the listener 7. *)
Definition observed : ParamMediator.World :=
  let w := (ParamMediator.newMediator None ParamMediator.emptyWorld).2 in
  let w := worldOf (ParamMediator.registerParam demoCreateFunction 2 0
                      (staticParam "a" (VNum (int 1))) w) w in
  let w := worldOf (ParamMediator.registerParam demoCreateFunction 2 0
                      (staticParam "b" (VNum (int 2))) w) w in
  worldOf (ParamMediator.activateExprRefProps demoCreateFunction 2 0
             [("sum", ParamMediator.PropExprRef "a + b")] (Some 7) w) w.

(** [a] and [b] are set in one tick, and the tick ends. *)
Definition observedTick : result ParamMediator.World :=
  '(w1, _) ← ParamMediator.setValue 2 0 "a" (VNum (int 5)) observed;
  '(w2, _) ← ParamMediator.setValue 2 0 "b" (VNum (int 6)) w1;
  ParamMediator.runMicrotasks 2 w2.

(** [a] ranks above [b], which depends on it. *)
Definition reactiveRank (p : nat * string) : nat :=
  if decide (p.2 = "a") then 1 else 0.

End Examples.

(* ===================================================================== *)
(** * Vertex builders of the other marks, and the colour converter *)
(* ===================================================================== *)

Module MarkBuilders.
Import VertexBuilder.

(** ** Colours *)

(** A colour as the encoders give it: a missing value ([null] or
    [undefined]), a string, or an object with the components [r], [g]
    and [b]. *)
Inductive colorValue :=
| ColorMissing
| ColorString (s : string)
| ColorObject (r g b : num).

(** [!color]: a missing value and the empty string are falsy. *)
Definition falsy (color : colorValue) : bool :=
  match color with
  | ColorMissing => true
  | ColorString s => bool_decide (s = "")
  | ColorObject _ _ _ => false
  end.

(** [isString(color)]. *)
Definition isString (color : colorValue) : bool :=
  match color with ColorString _ => true | _ => false end.

Section Colors.
(** [color] of [d3-color]: the components of a colour given by name or
    code, [None] for the [null] it returns when it cannot parse the
    string. *)
Variable d3color : string → option (num * num * num).

Definition componentsOf (r g b : num) : list num :=
  let c := Num.Fin (255 # 1) in [Num.div r c; Num.div g c; Num.div b c].

(** [color2floatArray(color)]. The rounding of [Float32Array] is not
    modelled. *)
Definition color2floatArray (color : colorValue) : result (list num) :=
  if falsy color then mret [Num.Fin (1 # 1); Num.Fin (0 # 1); Num.Fin (1 # 1)]
  else
    match color with
    | ColorString s =>
        match d3color s with
        | Some (r, g, b) => mret (componentsOf r g b)
        | None => Throw TypeError
        end
    | ColorObject r g b => mret (componentsOf r g b)
    | ColorMissing => Throw TypeError
    end.

(** The function [createCachingColor2floatArray()] returns, with its
    cache (a [fastmap] of [vega-util], whose [size] is the number of its
    keys) passed explicitly. *)
Definition cachingColor2floatArray (cache : gmap string (list num))
           (color : colorValue)
  : result (list num) * gmap string (list num) :=
  match color with
  | ColorString s =>
      if decide (size cache < 30) then
        match cache !! s with
        | Some value => (mret value, cache)
        | None =>
            match color2floatArray color with
            | Ok value => (mret value, <[s := value]> cache)
            | failed => (failed, cache)
            end
        end
      else (color2floatArray color, cache)
  | _ => (color2floatArray color, cache)
  end.

(** A sequence of calls of one caching converter: the results, and the
    cache at the end. *)
Fixpoint convertColors (cache : gmap string (list num))
         (colors : list colorValue)
  : list (result (list num)) * gmap string (list num) :=
  match colors with
  | [] => ([], cache)
  | color :: rest =>
      let '(r, cache1) := cachingColor2floatArray cache color in
      let '(rs, cache2) := convertColors cache1 rest in
      (r :: rs, cache2)
  end.
End Colors.

(** ** Rule marks *)

Section Rules.
Variable datum : Type.
Variable convert : datum → attributes.

Definition updateSide := update "side".
Definition updatePos := update "pos".

(** One round of the tile loop of [RuleVertexBuilder.addBatch]. *)
Definition addRuleTile (b : ArrayBuilder) (i : nat) : ArrayBuilder :=
  let b := updatePos (Num.div (Num.of_nat i) (Num.of_nat tileCount)) b in
  let b := updateSide (Num.Fin (- (1 # 2))) b in
  let b := pushAll b in
  let b := updateSide (Num.Fin (1 # 2)) b in
  pushAll b.

(** The loop body of [RuleVertexBuilder.addBatch]. *)
Definition addRule (b : ArrayBuilder) (d : datum) : ArrayBuilder :=
  let b := updateFromDatum datum convert d b in
  let b := updateSide (Num.Fin (- (1 # 2))) b in
  let b := updatePos (Num.Fin (0 # 1)) b in
  let b := pushAll b in
  let b := foldl addRuleTile b (seq 0 (S tileCount)) in
  pushAll b.

(** [RuleVertexBuilder.addBatch(key, data)]. *)
Definition ruleAddBatch (key : string) (data : list datum)
           (vb : VertexBuilderState) : VertexBuilderState :=
  let offset := vertexCount (variableBuilder vb) in
  let b := foldl addRule (variableBuilder vb) data in
  let vb1 := setVariableBuilder b vb in
  let count := vertexCount b - offset in
  if decide (count = 0) then vb1
  else setRange key {| offset := offset; count := count |} vb1.

(** A vertex of a rule: the values of the converters, with a side and a
    position along the rule. *)
Definition ruleVertex (base : attributes) (sidePos : num * num) : attributes :=
  <["side" := [sidePos.1]]> (<["pos" := [sidePos.2]]> base).

(** The sides and positions of the six vertices of a rule. *)
Definition ruleStrip : list (num * num) :=
  let lo := Num.Fin (- (1 # 2)) in
  let hi := Num.Fin (1 # 2) in
  let start := Num.Fin (0 # 1) in
  let stop := Num.Fin (1 # 1) in
  [(lo, start); (lo, start); (hi, start); (lo, stop); (hi, stop); (hi, stop)].
End Rules.

(** ** Text marks *)

(** A glyph of the font metadata ([chars] of a bmfont file). *)
Record Char := {
  id : nat;
  char_x : num;
  char_y : num;
  char_width : num;
  char_height : num;
  xadvance : num;
  yoffset : num
}.

(** The font metadata: the glyphs, and [common.base] and
    [common.scaleH]. *)
Record FontMetadata := {
  chars : list Char;
  base : num;
  scaleH : num
}.

(** The properties of a text mark read by the builder; [None] is a
    missing property. *)
Record TextProperties := {
  align : option string;
  baseline : option string
}.

Section Text.
Variable datum : Type.
Variable convert : datum → attributes.
Variable metadata : FontMetadata.
Variable properties : TextProperties.
(** The string of a datum, as the codes [charCodeAt] gives: what the
    accessor, the number format and the conversion to a string make of
    the datum. *)
Variable str : datum → list nat.

(** [Object.fromEntries(this.metadata.chars.map(e => [e.id, e]))]: the
    last glyph with an id wins. *)
Definition charTable : gmap nat Char :=
  foldl (λ t c, <[id c := c]> t) ∅ (chars metadata).

(** [getChar(charCode)]: [this.chars[charCode] || this.chars[63]]. *)
Definition getChar (charCode : nat) : option Char :=
  match charTable !! charCode with
  | Some c => Some c
  | None => charTable !! 63
  end.

(** A property of a glyph that may be missing: reading it throws. *)
Definition ofChar {A} (c : option Char) (f : Char → A) : result A :=
  match c with
  | Some c => mret (f c)
  | None => Throw TypeError
  end.

Definition updateCX := update "cx".
Definition updateCY := update "cy".
Definition updateTX := update "tx".
Definition updateTY := update "ty".
Definition updateTextWidth := update "width".

Definition sdfPadding : num := Num.Fin (5 # 1).

(** The baseline offset computed before the loop over the data. *)
Definition baselineOffset : result num :=
  xHeight ← ofChar (getChar 120)
              (λ c, Num.sub (char_height c)
                      (Num.mul sdfPadding (Num.Fin (2 # 1))));
  capHeight ← ofChar (getChar 88)
                (λ c, Num.sub (char_height c)
                        (Num.mul sdfPadding (Num.Fin (2 # 1))));
  let baseline0 := Num.neg sdfPadding in
  mret (match baseline properties with
        | Some b =>
            if decide (b = "top") then Num.add baseline0 capHeight
            else if decide (b = "middle")
                 then Num.add baseline0 (Num.div capHeight (Num.Fin (2 # 1)))
                 else baseline0
        | None => baseline0
        end).

(** [this.properties.align || "left"]. *)
Definition alignment : string :=
  match align properties with
  | Some a => if decide (a = "") then "left" else a
  | None => "left"
  end.

(** The first loop over the characters: the sum of the advances. *)
Fixpoint sumAdvances (textWidth : num) (codes : list nat) : result num :=
  match codes with
  | [] => mret textWidth
  | code :: rest =>
      a ← ofChar (getChar code) xadvance;
      sumAdvances (Num.add textWidth a) rest
  end.

(** The six vertices of a glyph at [x]. *)
Definition addGlyph (baseline x : num) (c : Char) (b : ArrayBuilder)
  : ArrayBuilder :=
  let tx := char_x c in
  let ty := char_y c in
  let scale := scaleH metadata in
  let height := Num.div (char_height c) (base metadata) in
  let bottom :=
    Num.div (Num.neg (Num.add (Num.add (char_height c) (yoffset c)) baseline))
      (base metadata) in
  let right := Num.add x (Num.div (char_width c) (base metadata)) in
  let corner (cx cy tx ty : num) (b : ArrayBuilder) :=
    pushAll (updateTY ty (updateTX tx (updateCY cy (updateCX cx b)))) in
  let b := corner x (Num.add bottom height)
             (Num.div tx scale) (Num.div ty scale) b in
  let b := corner right (Num.add bottom height)
             (Num.div (Num.add tx (char_width c)) scale) (Num.div ty scale) b in
  let b := corner x bottom
             (Num.div tx scale)
             (Num.div (Num.add ty (char_height c)) scale) b in
  let b := corner right (Num.add bottom height)
             (Num.div (Num.add tx (char_width c)) scale) (Num.div ty scale) b in
  let b := corner x bottom
             (Num.div tx scale)
             (Num.div (Num.add ty (char_height c)) scale) b in
  corner right bottom
    (Num.div (Num.add tx (char_width c)) scale)
    (Num.div (Num.add ty (char_height c)) scale) b.

(** The second loop over the characters. *)
Fixpoint addGlyphs (baseline x : num) (codes : list nat) (b : ArrayBuilder)
  : result ArrayBuilder :=
  match codes with
  | [] => mret b
  | code :: rest =>
      match getChar code with
      | None => Throw TypeError
      | Some c =>
          let advance := Num.div (xadvance c) (base metadata) in
          if decide (id c = 32) then
            addGlyphs baseline (Num.add x advance) rest b
          else
            addGlyphs baseline (Num.add x advance) rest
              (addGlyph baseline x c b)
      end
  end.

(** The loop body of [TextVertexBuilder.addBatch]. *)
Definition addText (baseline : num) (b : ArrayBuilder) (d : datum)
  : result ArrayBuilder :=
  match str d with
  | [] => mret b
  | first :: _ =>
      let b := updateFromDatum datum convert d b in
      total ← sumAdvances (Num.Fin (0 # 1)) (str d);
      let textWidth := Num.div total (base metadata) in
      let b := updateTextWidth textWidth b in
      let x :=
        if decide (alignment = "right") then Num.neg textWidth
        else if decide (alignment = "center")
             then Num.div (Num.neg textWidth) (Num.Fin (2 # 1))
             else Num.Fin (0 # 1) in
      shift ← ofChar (getChar first)
                (λ c, Num.div
                        (Num.div (Num.sub (char_width c) (xadvance c))
                           (base metadata))
                        (Num.Fin (2 # 1)));
      addGlyphs baseline (Num.sub x shift) (str d) b
  end.

Fixpoint addTexts (baseline : num) (b : ArrayBuilder) (data : list datum)
  : result ArrayBuilder :=
  match data with
  | [] => mret b
  | d :: rest => b1 ← addText baseline b d; addTexts baseline b1 rest
  end.

(** [TextVertexBuilder.addBatch(key, data)]. *)
Definition textAddBatch (key : string) (data : list datum)
           (vb : VertexBuilderState) : result VertexBuilderState :=
  let offset := vertexCount (variableBuilder vb) in
  baseline ← baselineOffset;
  b ← addTexts baseline (variableBuilder vb) data;
  let vb1 := setVariableBuilder b vb in
  let count := vertexCount b - offset in
  mret (if decide (count = 0) then vb1
        else setRange key {| offset := offset; count := count |} vb1).

(** The characters of a string that get vertices: those whose glyph is
    not the space. *)
Definition drawn (code : nat) : bool :=
  match getChar code with
  | Some c => bool_decide (id c ≠ 32)
  | None => false
  end.

Definition textVertexCount (d : datum) : nat :=
  6 * length (filter (λ code, drawn code = true) (str d)).
End Text.

End MarkBuilders.
Module MoreExamples.
Import Examples.

(** The family whose parent (mediator 0) owns [a = 1]. *)
Definition familyWithA : ParamMediator.World :=
  worldOf (ParamMediator.registerParam demoCreateFunction 2 0
             (staticParam "a" (VNum (int 1))) family) family.

(** One mediator with [a = 1] and [b = 2]. *)
Definition pair : ParamMediator.World :=
  let w := (ParamMediator.newMediator None ParamMediator.emptyWorld).2 in
  let w := worldOf (ParamMediator.registerParam demoCreateFunction 2 0
                      (staticParam "a" (VNum (int 1))) w) w in
  worldOf (ParamMediator.registerParam demoCreateFunction 2 0
             (staticParam "b" (VNum (int 2))) w) w.

(** The pair, with two activated records: the property [x] of the first
    follows [a] and calls the listener 7, the properties [y] and [z] of
    the second follow [a + 1] and [a + b] and call the listener 8. *)
Definition twoRecords : ParamMediator.World :=
  let w := worldOf (ParamMediator.activateExprRefProps demoCreateFunction 2 0
                      [("x", ParamMediator.PropExprRef "a")] (Some 7) pair)
             pair in
  worldOf (ParamMediator.activateExprRefProps demoCreateFunction 2 0
             [("y", ParamMediator.PropExprRef "a + 1");
              ("z", ParamMediator.PropExprRef "a + b")] (Some 8) w) w.

(** A font with the glyphs of the space, of [?] and of [A]. *)
Definition glyph (code : nat) : MarkBuilders.Char :=
  {| MarkBuilders.id := code;
     MarkBuilders.char_x := int 0; MarkBuilders.char_y := int 0;
     MarkBuilders.char_width := int 10; MarkBuilders.char_height := int 20;
     MarkBuilders.xadvance := int 12; MarkBuilders.yoffset := int 0 |}.

Definition demoFont : MarkBuilders.FontMetadata :=
  {| MarkBuilders.chars := [glyph 32; glyph 63; glyph 65];
     MarkBuilders.base := int 20; MarkBuilders.scaleH := int 256 |}.

(** A font without the glyph of [?]. *)
Definition poorFont : MarkBuilders.FontMetadata :=
  {| MarkBuilders.chars := [glyph 32; glyph 65];
     MarkBuilders.base := int 20; MarkBuilders.scaleH := int 256 |}.

Definition leftAligned : MarkBuilders.TextProperties :=
  {| MarkBuilders.align := None; MarkBuilders.baseline := None |}.

(** Text data: a datum is its string. *)
Definition textAddBatch (font : MarkBuilders.FontMetadata) :=
  MarkBuilders.textAddBatch (list nat) (λ _, ∅) font leftAligned (λ d, d).

(** A rect from 5 to infinity. *)
Definition halfLine : rect :=
  {| x := int 5; x2 := Num.PosInf; y := int 0; y2 := int 1;
     squeeze := None; opacity := int 1 |}.

End MoreExamples.

(* ===================================================================== *)
(** * Properties of the sample-facet placement *)
(* ===================================================================== *)

Module SampleFacetFacts.
Import SampleFacet.
Local Open Scope Q_scope.

Lemma vec4_ne_false (a b : vec4) :
  vec4_ne a b = false ↔
  v4x a == v4x b ∧ v4y a == v4y b ∧ v4z a == v4z b ∧ v4w a == v4w b.
Proof.
  unfold vec4_ne. rewrite negb_false_iff, !andb_true_iff, !Qeq_bool_iff.
  tauto.
Qed.

Lemma vec2_ne_false (a b : vec2) :
  vec2_ne a b = false ↔ v2x a == v2x b ∧ v2y a == v2y b.
Proof.
  unfold vec2_ne. rewrite negb_false_iff, andb_true_iff, !Qeq_bool_iff.
  tauto.
Qed.

(** C9. [isFacetedSamples] is false exactly for the tuple (0,1,0,1),
    [isInTransit] is false exactly when the left pair equals the right
    pair, [applySampleFacet] returns its argument when the samples are not
    faceted, and maps [y] to [leftPos + y * leftHeight], keeping [x], when
    they are faceted and not in transit. *)
Theorem applySampleFacet_placement (u : vec4) (offset : Q) (pos : vec2) :
  (isFacetedSamples u = false ↔
     v4x u == 0 ∧ v4y u == 1 ∧ v4z u == 0 ∧ v4w u == 1)
  ∧ (isInTransit u = false ↔ v4x u == v4z u ∧ v4y u == v4w u)
  ∧ (isFacetedSamples u = false → applySampleFacet u offset pos = pos)
  ∧ (isFacetedSamples u = true → isInTransit u = false →
       applySampleFacet u offset pos
       = Vec2 (v2x pos) (v4x u + v2y pos * v4y u)).
Proof.
  split; [apply vec4_ne_false |].
  split; [apply (vec2_ne_false (xy u) (zw u)) |].
  split.
  - intros Hf. unfold applySampleFacet. by rewrite Hf.
  - intros Hf Ht. unfold applySampleFacet. by rewrite Hf, Ht.
Qed.

Lemma applySampleFacet_placement_witness :
  applySampleFacet (Vec4 0 1 0 1) (1 # 4) (Vec2 (1 # 3) (1 # 2))
  = Vec2 (1 # 3) (1 # 2)
  ∧ applySampleFacet (Vec4 (1 # 4) (1 # 2) (1 # 4) (1 # 2)) (1 # 4)
      (Vec2 (1 # 3) (1 # 2))
    = Vec2 (1 # 3) ((1 # 4) + (1 # 2) * (1 # 2)).
Proof.
  split.
  - destruct (applySampleFacet_placement (Vec4 0 1 0 1) (1 # 4)
                (Vec2 (1 # 3) (1 # 2))) as (_ & _ & Hid & _).
    apply Hid. reflexivity.
  - destruct (applySampleFacet_placement (Vec4 (1 # 4) (1 # 2) (1 # 4) (1 # 2))
                (1 # 4) (Vec2 (1 # 3) (1 # 2))) as (_ & _ & _ & Hmap).
    apply Hmap; reflexivity.
Defined.

End SampleFacetFacts.

(* ===================================================================== *)
(** * Properties of the number model *)
(* ===================================================================== *)

Module NumFacts.
Import Num.
Local Open Scope Q_scope.

Lemma Qlt_bool_iff (p q : Q) : Qlt_bool p q = true ↔ p < q.
Proof.
  unfold Qlt_bool. rewrite negb_true_iff.
  destruct (Qle_bool q p) eqn:E.
  - apply Qle_bool_iff in E. split; [discriminate | lra].
  - split; [intros _ | reflexivity].
    apply Qnot_le_lt. intros H. apply Qle_bool_iff in H. congruence.
Qed.

Lemma Qlt_bool_false (p q : Q) : Qlt_bool p q = false ↔ q <= p.
Proof.
  unfold Qlt_bool. rewrite negb_false_iff. apply Qle_bool_iff.
Qed.

Lemma lt_asym (a b : num) : lt a b = true → lt b a = false.
Proof.
  destruct a, b; simpl; try done.
  rewrite Qlt_bool_iff, Qlt_bool_false. lra.
Qed.

Lemma gt_asym (a b : num) : gt a b = true → gt b a = false.
Proof. unfold gt. apply lt_asym. Qed.

Lemma le_refl (a : num) : isNaN a = false → le a a = true.
Proof.
  destruct a; simpl; try done. intros _. unfold le. simpl.
  rewrite orb_true_iff. right. by apply Qeq_bool_iff.
Qed.

Lemma not_lt_le (a b : num) :
  isNaN a = false → isNaN b = false → lt a b = false → le b a = true.
Proof.
  unfold le. destruct a, b; simpl; try done. intros _ _.
  rewrite Qlt_bool_false, orb_true_iff, Qlt_bool_iff, Qeq_bool_iff.
  intros H. destruct (Qlt_le_dec q0 q); [by left | right; lra].
Qed.

Lemma le_not_lt (a b : num) : le a b = true → lt b a = false.
Proof.
  unfold le. destruct a, b; simpl; try done.
  rewrite orb_true_iff, Qlt_bool_iff, Qeq_bool_iff, Qlt_bool_false. lra.
Qed.

Lemma lt_le (a b : num) : lt a b = true → le a b = true.
Proof. unfold le. by intros ->. Qed.

Lemma le_trans (a b c : num) : le a b = true → le b c = true → le a c = true.
Proof.
  unfold le. destruct a, b, c; simpl; try done.
  rewrite !orb_true_iff, !Qlt_bool_iff, !Qeq_bool_iff.
  intros [H1 | H1] [H2 | H2]; try (left; lra); right; lra.
Qed.

End NumFacts.

(* ===================================================================== *)
(** * Properties of the rect vertex builder *)
(* ===================================================================== *)

Module RectFacts.
Import VertexBuilder.

Lemma agreeOutside_refl (S : gset string) (v : attributes) : agreeOutside S v v.
Proof. by intros a _. Qed.

Lemma buildersAgree_refl (S : gset string) (b : ArrayBuilder) :
  buildersAgree S S b b.
Proof.
  split; [apply agreeOutside_refl |].
  apply Forall2_same_length_lookup. split; [done |].
  intros i v v' Hv Hv'. simplify_eq. apply agreeOutside_refl.
Qed.

Lemma buildersAgree_mono (Sc Sc' Sa : gset string) (b b' : ArrayBuilder) :
  buildersAgree Sc Sa b b' → Sc ⊆ Sc' → buildersAgree Sc' Sa b b'.
Proof.
  intros [Hc Ha] Hsub. split; [| done]. intros a Hnot. apply Hc. set_solver.
Qed.

Lemma buildersAgree_update (Sc Sa : gset string) (attribute : string) (v : num)
      (b b' : ArrayBuilder) :
  buildersAgree Sc Sa b b' →
  buildersAgree (Sc ∖ {[attribute]}) Sa (update attribute v b)
    (update attribute v b').
Proof.
  intros [Hc Ha]. split; [| done]. intros a Hnot. simpl.
  destruct (decide (attribute = a)) as [-> | Hne].
  - by rewrite !lookup_insert_eq.
  - rewrite !lookup_insert_ne by done. apply Hc. set_solver.
Qed.

Lemma buildersAgree_pushAll (Sc Sa : gset string) (b b' : ArrayBuilder) :
  buildersAgree Sc Sa b b' → Sc ⊆ Sa →
  buildersAgree Sc Sa (pushAll b) (pushAll b').
Proof.
  intros [Hc Ha] Hsub. split; [done |]. simpl.
  apply Forall2_app; [done |]. constructor; [| constructor].
  intros a Hnot. apply Hc. set_solver.
Qed.

Lemma buildersAgree_length (Sc Sa : gset string) (b b' : ArrayBuilder) :
  buildersAgree Sc Sa b b' → vertexCount b' = vertexCount b.
Proof. intros [_ Ha]. unfold vertexCount. symmetry. by eapply Forall2_length. Qed.

Section Rect.
Context {datum : Type}.
Variable convert : datum → attributes.
Variables xAccessor x2Accessor yAccessor y2Accessor : datum → num.
Variable squeezeEncoder : datum → option string.
Variable ATTRIBUTE_PREFIX : string.
Variable visibleRange : num * num.

Local Abbreviation addRect :=
  (addRect datum convert yAccessor y2Accessor squeezeEncoder ATTRIBUTE_PREFIX).
Local Abbreviation addRectDatum :=
  (addRectDatum datum convert xAccessor x2Accessor yAccessor y2Accessor
     squeezeEncoder ATTRIBUTE_PREFIX visibleRange).
Local Abbreviation addRectData :=
  (addRectData datum convert xAccessor x2Accessor yAccessor y2Accessor
     squeezeEncoder ATTRIBUTE_PREFIX visibleRange).
Local Abbreviation rectAddBatch :=
  (rectAddBatch datum convert xAccessor x2Accessor yAccessor y2Accessor
     squeezeEncoder ATTRIBUTE_PREFIX visibleRange).
Local Abbreviation preSwapped :=
  (preSwapped datum convert xAccessor x2Accessor yAccessor y2Accessor
     squeezeEncoder).
Local Abbreviation fullyOutside :=
  (fullyOutside datum xAccessor x2Accessor visibleRange).
Local Abbreviation clamped := (clamped datum xAccessor x2Accessor visibleRange).

Lemma ordered_idem (p : num * num) : ordered (ordered p) = ordered p.
Proof.
  destruct p as [a b]. unfold ordered. simpl.
  destruct (Num.gt a b) eqn:E; simpl.
  - by rewrite (NumFacts.gt_asym _ _ E).
  - by rewrite E.
Qed.

(** The loop body, with the three steps named. *)
Lemma addRectDatum_steps (b : ArrayBuilder) (d : datum) :
  addRectDatum b d
  = if fullyOutside d then Ok b
    else addRect d (fst (clamped d)) (snd (clamped d)) b.
Proof.
  unfold VertexBuilder.addRectDatum, VertexBuilder.fullyOutside,
    VertexBuilder.clamped, ordered.
  destruct visibleRange as [lower upper]. simpl.
  destruct (Num.gt (xAccessor d) (x2Accessor d)); simpl;
    by destruct (_ || _).
Qed.

(** [addRect] reads the datum through its converters, its squeeze encoder
    and its ordered y pair only. *)
Lemma addRect_ext (d d' : datum) (x x2 : num) (b : ArrayBuilder) :
  convert d' = convert d →
  squeezeEncoder d' = squeezeEncoder d →
  ordered (yAccessor d', y2Accessor d') = ordered (yAccessor d, y2Accessor d) →
  addRect d' x x2 b = addRect d x x2 b.
Proof.
  intros Hc Hs Hy. unfold VertexBuilder.addRect, updateFromDatum.
  unfold ordered in Hy. simpl in Hy. rewrite Hc, Hs. revert Hy.
  generalize (yAccessor d') (y2Accessor d') (yAccessor d) (y2Accessor d).
  intros y' y2' y y2 Hy.
  destruct (Num.gt y' y2'), (Num.gt y y2); by simplify_eq.
Qed.

Lemma addRectDatum_preSwapped (b : ArrayBuilder) (d d' : datum) :
  preSwapped d d' → addRectDatum b d' = addRectDatum b d.
Proof.
  intros (Hc & Hs & Hx & Hy). rewrite !addRectDatum_steps.
  unfold VertexBuilder.fullyOutside, VertexBuilder.clamped.
  rewrite Hx, ordered_idem.
  destruct (ordered (xAccessor d, x2Accessor d)) as [x x2].
  destruct (_ || _); [done |].
  apply addRect_ext; [done | done |]. by rewrite Hy, ordered_idem.
Qed.

Lemma addRectData_preSwapped (b : ArrayBuilder) (data data' : list datum) :
  Forall2 preSwapped data data' → addRectData b data' = addRectData b data.
Proof.
  intros H. revert b. induction H as [| d d' data data' Hd _ IH]; intros b.
  - done.
  - simpl. rewrite (addRectDatum_preSwapped b d d' Hd).
    destruct (addRectDatum b d); simpl; auto.
Qed.

(** When no converter reads the coordinates, the two batches give the same
    builder. *)
Lemma rectAddBatch_preSwapped (key : string) (data data' : list datum)
        (vb : VertexBuilderState) :
  Forall2 preSwapped data data' →
  rectAddBatch key data' vb = rectAddBatch key data vb.
Proof.
  intros H. unfold VertexBuilder.rectAddBatch.
  by rewrite (addRectData_preSwapped _ data data' H).
Qed.

(** ** Agreement outside the coordinate attributes *)

Lemma buildersAgree_updateFromDatum (S Sc Sa : gset string) (d d' : datum)
      (b b' : ArrayBuilder) :
  agreeOutside S (convert d) (convert d') →
  buildersAgree Sc Sa b b' →
  buildersAgree (S ∪ Sc) Sa (updateFromDatum datum convert d b)
    (updateFromDatum datum convert d' b').
Proof.
  intros Hd [Hc Ha]. split; [| done]. intros a Hnot. simpl.
  apply not_elem_of_union in Hnot as [Hn1 Hn2].
  by rewrite !lookup_union, (Hd a Hn1), (Hc a Hn2).
Qed.

(** Chains of updates and pushes, read from the outside in. *)
Ltac agree :=
  repeat first
    [ eassumption
    | eapply buildersAgree_update
    | eapply buildersAgree_pushAll
    | eapply buildersAgree_updateFromDatum; [eassumption |] ].

Local Abbreviation S4 := (coordinateAttributes ATTRIBUTE_PREFIX).
Local Abbreviation S2 := (secondaryAttributes ATTRIBUTE_PREFIX).

(** Two calls that return agreeing builders, or throw the same error. *)
Definition agreeingResults (r r' : result ArrayBuilder) : Prop :=
  match r, r' with
  | Ok b, Ok b' => buildersAgree S2 S2 b b'
  | Throw e, Throw e' => e = e'
  | _, _ => False
  end.

Lemma addRect_agree (d d' : datum) (x x2 : num) (b b' : ArrayBuilder) :
  agreeOutside S4 (convert d) (convert d') →
  squeezeEncoder d' = squeezeEncoder d →
  ordered (yAccessor d', y2Accessor d') = ordered (yAccessor d, y2Accessor d) →
  buildersAgree S2 S2 b b' →
  agreeingResults (addRect d x x2 b) (addRect d' x x2 b').
Proof.
  intros Hc Hs Hy Hb. unfold VertexBuilder.addRect.
  unfold ordered in Hy. simpl in Hy. rewrite Hs. revert Hy.
  generalize (yAccessor d') (y2Accessor d') (yAccessor d) (y2Accessor d).
  intros y' y2' y0 y20 Hy.
  assert (Hpair : (if Num.gt y' y2' then (y2', y') else (y', y2'))
                  = (if Num.gt y0 y20 then (y20, y0) else (y0, y20)))
    by (by destruct (Num.gt y' y2'), (Num.gt y0 y20)).
  rewrite Hpair. clear Hpair Hy.
  destruct (if Num.gt y0 y20 then _ else _) as [y y2].
  destruct (squeezed (squeezeEncoder d)) as [sq |].
  - destruct (_squeeze sq x x2 y y2) as [c |]; [| done]. simpl.
    unfold updateX, updateY.
    eapply buildersAgree_mono; [agree |];
      unfold coordinateAttributes, secondaryAttributes;
      clear -ATTRIBUTE_PREFIX; set_solver.
  - simpl. unfold tileCount. cbn [seq foldl].
    unfold addTile, updateX, updateY, updateWidth, updateHeight. cbv zeta.
    eapply buildersAgree_mono; [agree |];
      unfold coordinateAttributes, secondaryAttributes;
      clear -ATTRIBUTE_PREFIX; set_solver.
Qed.

Local Abbreviation swappedBeforehand :=
  (swappedBeforehand convert xAccessor x2Accessor yAccessor y2Accessor
     squeezeEncoder ATTRIBUTE_PREFIX).

Lemma addRectDatum_agree (d d' : datum) (b b' : ArrayBuilder) :
  swappedBeforehand d d' →
  buildersAgree S2 S2 b b' →
  agreeingResults (addRectDatum b d) (addRectDatum b' d').
Proof.
  intros (Hc & Hs & Hx & Hy) Hb. rewrite !addRectDatum_steps.
  unfold VertexBuilder.fullyOutside, VertexBuilder.clamped.
  rewrite Hx, ordered_idem.
  destruct (ordered (xAccessor d, x2Accessor d)) as [x x2].
  destruct (_ || _); [done |].
  apply addRect_agree; [done | done | | done]. by rewrite Hy, ordered_idem.
Qed.

Lemma addRectData_agree (data data' : list datum) (b b' : ArrayBuilder) :
  Forall2 swappedBeforehand data data' →
  buildersAgree S2 S2 b b' →
  agreeingResults (addRectData b data) (addRectData b' data').
Proof.
  intros H. revert b b'.
  induction H as [| d d' data data' Hd _ IH]; intros b b' Hb; [done |].
  simpl. pose proof (addRectDatum_agree d d' b b' Hd Hb) as Hstep.
  destruct (addRectDatum b d) as [b1 | e |], (addRectDatum b' d') as [b1' | e' |];
    simpl in *; try done.
  by apply IH.
Qed.

Lemma preSwapped_of_swappedBeforehand (data data' : list datum) :
  Forall2 swappedBeforehand data data' →
  Forall2 (λ d d', convert d' = convert d) data data' →
  Forall2 preSwapped data data'.
Proof.
  intros H. induction H as [| d d' data data' (_ & Hs & Hx & Hy) _ IH];
    intros Hc; [constructor |].
  apply Forall2_cons in Hc as [Hc Hcs]. constructor; [done | by apply IH].
Qed.

(** C7, amended. A batch of rect data and the same batch with every
    coordinate pair put in order beforehand give, vertex by vertex, the
    same value to every attribute outside the raw [x2] and [y2]
    attributes, to the position and the extent in particular, and give
    the same range; either both calls return or both throw the same
    error. When no converter reads the coordinates, the two builders are
    equal. *)
Theorem rectAddBatch_swappedBeforehand (key : string) (data data' : list datum)
        (vb : VertexBuilderState) :
  Forall2 swappedBeforehand data data' →
  (∀ r, rectAddBatch key data vb = Ok r →
     ∃ r', rectAddBatch key data' vb = Ok r'
           ∧ buildersAgree S2 S2 (variableBuilder r) (variableBuilder r')
           ∧ vertexCount (variableBuilder r') = vertexCount (variableBuilder r)
           ∧ rangeMap r' = rangeMap r
           ∧ index r' = index r
           ∧ constantBuilder r' = constantBuilder r)
  ∧ (∀ e, rectAddBatch key data vb = Throw e →
          rectAddBatch key data' vb = Throw e)
  ∧ (Forall2 (λ d d', convert d' = convert d) data data' →
     rectAddBatch key data' vb = rectAddBatch key data vb).
Proof.
  intros H.
  pose proof (addRectData_agree data data' (variableBuilder vb)
                (variableBuilder vb) H (buildersAgree_refl _ _)) as Hagree.
  unfold VertexBuilder.rectAddBatch.
  split; [| split].
  - intros r.
    destruct (addRectData (variableBuilder vb) data) as [b | |],
      (addRectData (variableBuilder vb) data') as [b' | |];
      simpl in *; try done.
    intros [= <-]. eexists. split; [done |].
    pose proof (buildersAgree_length _ _ _ _ Hagree) as Hlen.
    rewrite Hlen. by case_decide.
  - intros e.
    destruct (addRectData (variableBuilder vb) data) as [b | |],
      (addRectData (variableBuilder vb) data') as [b' | |];
      simpl in *; try done.
    by intros [= <-]; subst.
  - intros Hc.
    by rewrite (addRectData_preSwapped _ data data'
                  (preSwapped_of_swappedBeforehand _ _ H Hc)).
Qed.

Lemma addRectData_app (b : ArrayBuilder) (data1 data2 : list datum) :
  addRectData b (data1 ++ data2)
  = b1 ← addRectData b data1; addRectData b1 data2.
Proof.
  revert b. induction data1 as [| d data1 IH]; intros b; simpl; [done |].
  destruct (addRectDatum b d); simpl; auto.
Qed.

Lemma ordered_le (a b : num) :
  Num.isNaN a = false → Num.isNaN b = false →
  Num.le (fst (ordered (a, b))) (snd (ordered (a, b))) = true.
Proof.
  intros Ha Hb. unfold ordered. simpl. destruct (Num.gt a b) eqn:E; simpl.
  - by apply NumFacts.lt_le.
  - by apply NumFacts.not_lt_le.
Qed.

Lemma ordered_not_NaN (a b : num) :
  Num.isNaN a = false → Num.isNaN b = false →
  Num.isNaN (fst (ordered (a, b))) = false
  ∧ Num.isNaN (snd (ordered (a, b))) = false.
Proof. intros Ha Hb. unfold ordered. simpl. by destruct (Num.gt a b). Qed.

(** C8. A datum fully outside the visible range adds no vertex, alone or
    within a batch; any other datum gets the vertices of its ordered x
    extent cut to the range, and the cut extent lies within the range; a
    datum within the range keeps its extent. *)
Theorem addRectDatum_clipping (b : ArrayBuilder) (d : datum) :
  (fullyOutside d = true →
     addRectDatum b d = Ok b
     ∧ ∀ key before after vb,
         rectAddBatch key (before ++ d :: after) vb
         = rectAddBatch key (before ++ after) vb)
  ∧ (fullyOutside d = false →
       addRectDatum b d = addRect d (fst (clamped d)) (snd (clamped d)) b
       ∧ (Num.isNaN (xAccessor d) = false → Num.isNaN (x2Accessor d) = false →
          Num.le (fst visibleRange) (snd visibleRange) = true →
          Num.le (fst visibleRange) (fst (clamped d)) = true
          ∧ Num.le (fst (clamped d)) (snd (clamped d)) = true
          ∧ Num.le (snd (clamped d)) (snd visibleRange) = true))
  ∧ (Num.le (fst visibleRange) (fst (ordered (xAccessor d, x2Accessor d))) = true →
     Num.le (snd (ordered (xAccessor d, x2Accessor d))) (snd visibleRange) = true →
     clamped d = ordered (xAccessor d, x2Accessor d)
     ∧ addRectDatum b d
       = addRect d (fst (ordered (xAccessor d, x2Accessor d)))
           (snd (ordered (xAccessor d, x2Accessor d))) b).
Proof.
  split; [| split].
  - intros Hout. split.
    + by rewrite addRectDatum_steps, Hout.
    + intros key before after vb. unfold VertexBuilder.rectAddBatch.
      rewrite !addRectData_app. simpl.
      destruct (addRectData _ before) as [b1 | |]; simpl; try done.
      by rewrite addRectDatum_steps, Hout.
  - intros Hin. split; [by rewrite addRectDatum_steps, Hin |].
    intros Hx Hx2 Hrange.
    destruct (ordered_not_NaN _ _ Hx Hx2) as [Hn1 Hn2].
    pose proof (ordered_le _ _ Hx Hx2) as Hord.
    unfold VertexBuilder.fullyOutside, VertexBuilder.clamped in *.
    destruct (ordered (xAccessor d, x2Accessor d)) as [x x2].
    destruct visibleRange as [lower upper]. simpl in *.
    apply orb_false_iff in Hin as [H1 H2]. unfold Num.gt in *.
    assert (Hl : Num.isNaN lower = false) by (by destruct lower).
    assert (Hu : Num.isNaN upper = false) by (by destruct lower, upper).
    destruct (Num.lt x lower) eqn:E1, (Num.lt upper x2) eqn:E2;
      repeat split;
      auto using NumFacts.le_refl, NumFacts.not_lt_le, NumFacts.lt_le.
  - intros Hlo Hhi.
    assert (Hc : clamped d = ordered (xAccessor d, x2Accessor d)).
    { unfold VertexBuilder.clamped.
      destruct (ordered (xAccessor d, x2Accessor d)) as [x x2]. simpl in *.
      unfold Num.gt.
      by rewrite (NumFacts.le_not_lt _ _ Hlo), (NumFacts.le_not_lt _ _ Hhi). }
    split; [done |].
    rewrite addRectDatum_steps, Hc.
    replace (fullyOutside d) with false; [done |].
    symmetry. unfold VertexBuilder.fullyOutside.
    pose proof (ordered_idem (xAccessor d, x2Accessor d)) as Hidem.
    destruct (ordered (xAccessor d, x2Accessor d)) as [x x2]. simpl in *.
    apply orb_false_iff. unfold Num.gt.
    assert (Hxx2 : Num.le x x2 = true).
    { assert (Hnx : Num.isNaN x = false) by (by destruct (fst visibleRange), x).
      assert (Hnx2 : Num.isNaN x2 = false)
        by (by destruct x2, (snd visibleRange)).
      pose proof (ordered_le _ _ Hnx Hnx2) as Hle. by rewrite Hidem in Hle. }
    split; apply NumFacts.le_not_lt; eauto using NumFacts.le_trans.
Qed.

End Rect.

Import Examples.

(** The converters of the constructor differ between two data on the
    coordinate attributes at most, when the other converters agree. *)
Lemma rawConverter_other {datum} (P channel : string)
      (e : option (Encoder datum)) (d : datum) (attribute : string) :
  attribute ≠ P +:+ channel → rawConverter datum P channel e d !! attribute = None.
Proof.
  intros Hne. unfold rawConverter. destruct e as [ce |]; [| done].
  destruct (scale ce); [| done]. destruct (constant ce); [done |].
  by apply lookup_singleton_ne.
Qed.

Lemma converters_agree {datum} (ex ey ex2 ey2 esize : option (Encoder datum))
      (others : datum → attributes) (P : string) (d d' : datum) :
  others d' = others d →
  rawConverter datum P "size" esize d' = rawConverter datum P "size" esize d →
  agreeOutside (coordinateAttributes P)
    (converters datum ex ey ex2 ey2 esize others P d)
    (converters datum ex ey ex2 ey2 esize others P d').
Proof.
  intros Ho Hsize a Hnot. unfold coordinateAttributes in Hnot.
  unfold converters. rewrite !lookup_union, Ho, Hsize.
  rewrite !(rawConverter_other P "x") by set_solver.
  rewrite !(rawConverter_other P "y") by set_solver.
  rewrite !(rawConverter_other P "x2") by set_solver.
  by rewrite !(rawConverter_other P "y2") by set_solver.
Qed.

Lemma rectAddBatch_swappedBeforehand_witness :
  ∃ r r',
    constructedRectAddBatch "sampleA" [mkRect 10 0 1 0] newBuilder = Ok r
    ∧ constructedRectAddBatch "sampleA" [mkRect 0 10 0 1] newBuilder = Ok r'
    ∧ buildersAgree (secondaryAttributes "attr_") (secondaryAttributes "attr_")
        (variableBuilder r) (variableBuilder r')
    ∧ rangeMap r' = rangeMap r.
Proof.
  assert (H : Forall2
                (VertexBuilder.swappedBeforehand constructedConverters
                   x x2 y y2 squeeze "attr_")
                [mkRect 10 0 1 0] [mkRect 0 10 0 1]).
  { constructor; [| constructor].
    split; [| by repeat split]. by apply converters_agree. }
  destruct (rectAddBatch_swappedBeforehand constructedConverters x x2 y y2
              squeeze "attr_" everywhere "sampleA" _ _ newBuilder H)
    as (Hok & _).
  eexists. edestruct Hok as (r' & Hr' & Hagree & _ & Hrange & _).
  { vm_compute. reflexivity. }
  exists r'. split; [vm_compute; reflexivity |].
  split; [exact Hr' |]. split; [exact Hagree | exact Hrange].
Defined.

(** With the raw converters of the constructor, the vertices of a datum
    with [x > x2] carry the datum's own [x2] in the raw attribute, those
    of the datum swapped beforehand the other value: the two batches are
    not equal. *)
Lemma rectAddBatch_swappedBeforehand_counterexample :
  ∃ r r',
    constructedRectAddBatch "sampleA" [mkRect 10 0 0 1] newBuilder = Ok r
    ∧ constructedRectAddBatch "sampleA" [mkRect 0 10 0 1] newBuilder = Ok r'
    ∧ (arrays (variableBuilder r) !! 0) ≫= (λ v, v !! "attr_x2")
      = Some [int 0]
    ∧ (arrays (variableBuilder r') !! 0) ≫= (λ v, v !! "attr_x2")
      = Some [int 10]
    ∧ (arrays (variableBuilder r) !! 0) ≫= (λ v, v !! "attr_x")
      = Some [int 0]
    ∧ (arrays (variableBuilder r') !! 0) ≫= (λ v, v !! "attr_x")
      = Some [int 0]
    ∧ arrays (variableBuilder r) ≠ arrays (variableBuilder r').
Proof.
  do 2 eexists. split; [by vm_compute |]. split; [by vm_compute |].
  split; [by vm_compute |]. split; [by vm_compute |].
  split; [by vm_compute |]. split; [by vm_compute |].
  intros H. apply (f_equal (λ l, l !! 0 ≫= (λ v, v !! "attr_x2"))) in H.
  vm_compute in H. discriminate.
Qed.

Lemma addRectDatum_clipping_witness :
  rectAddDatum (int 0, int 10) VertexBuilder.emptyArrayBuilder (mkRect 30 20 0 1)
  = Ok VertexBuilder.emptyArrayBuilder
  ∧ VertexBuilder.clamped rect x x2 (int 0, int 10) (mkRect 5 (-5) 0 1)
    = (int 0, int 5)
  ∧ Num.le (int 0) (int 0) = true
  ∧ VertexBuilder.clamped rect x x2 (int 0, int 10) (mkRect 3 2 0 1)
    = (int 2, int 3).
Proof.
  split; [| split; [| split]].
  - destruct (addRectDatum_clipping rectConvert x x2 y y2 squeeze "attr_"
                (int 0, int 10) VertexBuilder.emptyArrayBuilder
                (mkRect 30 20 0 1)) as (Hout & _ & _).
    apply Hout. reflexivity.
  - reflexivity.
  - destruct (addRectDatum_clipping rectConvert x x2 y y2 squeeze "attr_"
                (int 0, int 10) VertexBuilder.emptyArrayBuilder
                (mkRect 5 (-5) 0 1)) as (_ & Hcut & _).
    destruct (Hcut eq_refl) as (_ & Hbounds).
    destruct (Hbounds eq_refl eq_refl eq_refl) as (Hlow & _).
    exact Hlow.
  - destruct (addRectDatum_clipping rectConvert x x2 y y2 squeeze "attr_"
                (int 0, int 10) VertexBuilder.emptyArrayBuilder
                (mkRect 3 2 0 1)) as (_ & _ & Hin).
    destruct (Hin eq_refl eq_refl) as (Hsame & _). exact Hsame.
Defined.

End RectFacts.

(* ===================================================================== *)
(** * Properties of the range map *)
(* ===================================================================== *)

Module RangeFacts.
Import VertexBuilder.

Lemma map_set_fresh {V} (k : string) (v : V) (m : list (string * V)) :
  k ∉ map fst m → map_set k v m = m ++ [(k, v)].
Proof.
  induction m as [| [k' v'] m IH]; simpl; [done |].
  intros Hk. apply not_elem_of_cons in Hk as [Hne Hk].
  destruct (decide (k' = k)); [congruence |]. by rewrite IH.
Qed.

Lemma map_get_app {V} (k : string) (m1 m2 : list (string * V)) :
  map_get k (m1 ++ m2)
  = match map_get k m1 with Some v => Some v | None => map_get k m2 end.
Proof.
  induction m1 as [| [k' v'] m1 IH]; simpl; [done |].
  by destruct (decide (k' = k)).
Qed.

Lemma map_get_absent {V} (k : string) (m : list (string * V)) :
  k ∉ map fst m → map_get k m = None.
Proof.
  induction m as [| [k' v'] m IH]; simpl; [done |].
  intros Hk. apply not_elem_of_cons in Hk as [Hne Hk].
  destruct (decide (k' = k)); [congruence | auto].
Qed.

Lemma expectedRanges_keys (start : nat) (sizes : list (string * nat)) (k : string) :
  k ∈ map fst (expectedRanges start sizes) → k ∈ map fst sizes.
Proof.
  revert start. induction sizes as [| [key n] sizes IH]; intros start; simpl;
    [done |].
  destruct (decide (n = 0)); simpl.
  - intros H. right. eauto.
  - intros H. apply elem_of_cons in H as [-> | H]; [left | right; eauto].
Qed.

Lemma expectedRanges_app (start : nat) (s1 s2 : list (string * nat)) :
  expectedRanges start (s1 ++ s2)
  = expectedRanges start s1 ++ expectedRanges (start + sizesTotal s1) s2.
Proof.
  revert start. induction s1 as [| [key n] s1 IH]; intros start; simpl.
  - by rewrite Nat.add_0_r.
  - unfold sizesTotal in *. simpl. destruct (decide (n = 0)) as [-> | Hn].
    + rewrite IH. by rewrite Nat.add_0_l.
    + simpl. rewrite IH. by rewrite Nat.add_assoc.
Qed.

Lemma expectedRanges_contiguous (start : nat) (sizes : list (string * nat)) :
  contiguous start (expectedRanges start sizes) (start + sizesTotal sizes).
Proof.
  revert start. induction sizes as [| [key n] sizes IH]; intros start;
    unfold sizesTotal in *; simpl.
  - lia.
  - destruct (decide (n = 0)) as [-> | Hn]; simpl.
    + apply IH.
    + split; [done |]. split; [lia |]. rewrite Nat.add_assoc. apply IH.
Qed.

Lemma expectedRanges_total (start : nat) (sizes : list (string * nat)) :
  totalCount (expectedRanges start sizes) = sizesTotal sizes.
Proof.
  revert start. induction sizes as [| [key n] sizes IH]; intros start;
    unfold sizesTotal, totalCount in *; simpl; [done |].
  destruct (decide (n = 0)) as [-> | Hn]; simpl; by rewrite IH.
Qed.

(** With distinct keys, the entry of the [i]-th batch starts after the
    vertices of the batches before it; an empty batch has no entry. *)
Lemma expectedRanges_lookup (start : nat) (sizes : list (string * nat))
      (i : nat) (key : string) (n : nat) :
  NoDup (map fst sizes) →
  sizes !! i = Some (key, n) →
  map_get key (expectedRanges start sizes)
  = if decide (n = 0) then None
    else Some {| offset := start + sizesTotal (take i sizes); count := n |}.
Proof.
  revert start i.
  induction sizes as [| [k m] sizes IH]; intros start i Hnd Hi; [done |].
  simpl in Hnd. apply NoDup_cons in Hnd as [Hk Hnd].
  destruct i as [| i]; simpl in Hi.
  - simplify_eq. simpl. destruct (decide (n = 0)) as [-> | Hn].
    + apply map_get_absent. intros H. by apply expectedRanges_keys in H.
    + simpl. rewrite decide_True by done. unfold sizesTotal. simpl.
      by rewrite Nat.add_0_r.
  - assert (k ≠ key).
    { intros ->. apply Hk. apply list_elem_of_fmap. exists (key, n).
      split; [done |]. by eapply list_elem_of_lookup_2. }
    simpl. destruct (decide (m = 0)) as [-> | Hm].
    + rewrite (IH start i Hnd Hi). unfold sizesTotal. by simpl.
    + simpl. rewrite decide_False by done. rewrite (IH _ i Hnd Hi).
      unfold sizesTotal. simpl. by rewrite Nat.add_assoc.
Qed.

End RangeFacts.

(* ===================================================================== *)
(** * Properties of [addBatch] and [toArrays] *)
(* ===================================================================== *)

Module BatchFacts.
Import VertexBuilder RangeFacts.

Lemma vertexCount_pushAll (b : ArrayBuilder) :
  vertexCount (pushAll b) = S (vertexCount b).
Proof. unfold vertexCount, pushAll. simpl. rewrite length_app. simpl. lia. Qed.

Lemma vertexCount_update (a : string) (v : num) (b : ArrayBuilder) :
  vertexCount (update a v b) = vertexCount b.
Proof. done. Qed.

Section Builders.
Context {datum : Type}.
Variable convert : datum → attributes.
Variable constants : attributes.
Variable numComponents : list (string * nat).
Variables xAccessor x2Accessor yAccessor y2Accessor : datum → num.
Variable squeezeEncoder : datum → option string.
Variable ATTRIBUTE_PREFIX : string.
Variable visibleRange : num * num.

Local Abbreviation addPoint := (addPoint datum convert).
Local Abbreviation addBatch := (addBatch datum convert).
Local Abbreviation addBatches := (addBatches datum convert).
Local Abbreviation toArrays := (toArrays numComponents).
Local Abbreviation newVertexBuilder := (newVertexBuilder constants).
Local Abbreviation addRect :=
  (addRect datum convert yAccessor y2Accessor squeezeEncoder ATTRIBUTE_PREFIX).
Local Abbreviation addRectDatum :=
  (addRectDatum datum convert xAccessor x2Accessor yAccessor y2Accessor
     squeezeEncoder ATTRIBUTE_PREFIX visibleRange).
Local Abbreviation addRectData :=
  (addRectData datum convert xAccessor x2Accessor yAccessor y2Accessor
     squeezeEncoder ATTRIBUTE_PREFIX visibleRange).
Local Abbreviation rectAddBatch :=
  (rectAddBatch datum convert xAccessor x2Accessor yAccessor y2Accessor
     squeezeEncoder ATTRIBUTE_PREFIX visibleRange).
Local Abbreviation rectAddBatches :=
  (rectAddBatches datum convert xAccessor x2Accessor yAccessor y2Accessor
     squeezeEncoder ATTRIBUTE_PREFIX visibleRange).
Local Abbreviation fullyOutside :=
  (fullyOutside datum xAccessor x2Accessor visibleRange).
Local Abbreviation rectVertexCount :=
  (rectVertexCount datum xAccessor x2Accessor squeezeEncoder visibleRange).
Local Abbreviation knownSqueeze := (knownSqueeze datum squeezeEncoder).

Lemma vertexCount_updateFromDatum (d : datum) (b : ArrayBuilder) :
  vertexCount (updateFromDatum datum convert d b) = vertexCount b.
Proof. done. Qed.

(** ** The base builder *)

Lemma foldl_addPoint (points : list datum) (vb : VertexBuilderState) :
  let vb1 := foldl addPoint vb points in
  index vb1 = index vb + length points
  ∧ vertexCount (variableBuilder vb1)
    = vertexCount (variableBuilder vb) + length points
  ∧ rangeMap vb1 = rangeMap vb.
Proof.
  revert vb. induction points as [| p points IH]; intros vb; simpl.
  - by rewrite !Nat.add_0_r.
  - destruct (IH (addPoint vb p)) as (Hi & Hv & Hr).
    rewrite Hi, Hv, Hr. simpl. unfold pushFromDatum.
    rewrite vertexCount_pushAll, vertexCount_updateFromDatum. repeat split; lia.
Qed.

Lemma sum_ones (points : list datum) :
  sum_list (map (λ _, 1) points) = length points.
Proof. induction points; simpl; lia. Qed.

(** One batch under a fresh key. *)
Lemma addBatch_fresh (key : string) (points : list datum)
      (vb : VertexBuilderState) :
  key ∉ map fst (rangeMap vb) →
  let vb1 := addBatch key points vb in
  index vb1 = index vb + length points
  ∧ vertexCount (variableBuilder vb1)
    = vertexCount (variableBuilder vb) + length points
  ∧ rangeMap vb1
    = rangeMap vb ++ expectedRanges (index vb) [(key, length points)].
Proof.
  intros Hk. unfold VertexBuilder.addBatch.
  destruct (foldl_addPoint points vb) as (Hi & Hv & Hr).
  simpl. rewrite Hi.
  replace (index vb + length points - index vb) with (length points) by lia.
  destruct (decide (length points = 0)) as [H0 | H0]; simpl.
  - rewrite Hi, Hv, Hr. by rewrite app_nil_r.
  - rewrite Hi, Hv, Hr. by rewrite map_set_fresh.
Qed.

Lemma addBatches_fresh (batches : list (string * list datum))
      (vb : VertexBuilderState) :
  NoDup (map fst batches) →
  (∀ k, k ∈ map fst batches → k ∉ map fst (rangeMap vb)) →
  let sizes := batchSizes (λ _, 1) batches in
  let vb1 := addBatches batches vb in
  index vb1 = index vb + sizesTotal sizes
  ∧ vertexCount (variableBuilder vb1)
    = vertexCount (variableBuilder vb) + sizesTotal sizes
  ∧ rangeMap vb1 = rangeMap vb ++ expectedRanges (index vb) sizes.
Proof.
  revert vb. induction batches as [| [key points] batches IH]; intros vb Hnd Hk.
  - simpl. unfold sizesTotal. simpl. by rewrite !Nat.add_0_r, app_nil_r.
  - simpl in Hnd. apply NoDup_cons in Hnd as [Hkey Hnd].
    assert (Hfresh : key ∉ map fst (rangeMap vb)) by (apply Hk; simpl; left).
    destruct (addBatch_fresh key points vb Hfresh) as (Hi & Hv & Hr).
    destruct (IH (addBatch key points vb) Hnd) as (Hi' & Hv' & Hr').
    { intros k Hin. rewrite Hr, map_app, elem_of_app. intros [H | H].
      - revert H. apply Hk. simpl. by right.
      - apply expectedRanges_keys in H. simpl in H.
        apply list_elem_of_singleton in H. by subst. }
    cbn zeta in *. unfold VertexBuilder.addBatches in *. simpl.
    rewrite Hi', Hv', Hr', Hi, Hv, Hr.
    unfold sizesTotal, batchSizes. simpl. rewrite sum_ones.
    repeat split; try lia.
    rewrite <- app_assoc. f_equal. simpl.
    destruct (decide (length points = 0)) as [-> | H0]; simpl;
      [by rewrite Nat.add_0_r | done].
Qed.

(** ** The rect builder *)

Lemma vertexCount_addTile (x y y2 width height : num) (b : ArrayBuilder)
      (i : nat) :
  vertexCount (addTile ATTRIBUTE_PREFIX x y y2 width height b i)
  = S (S (vertexCount b)).
Proof.
  unfold addTile, updateX, updateY, updateWidth, updateHeight. cbv zeta.
  by repeat (rewrite vertexCount_pushAll || rewrite vertexCount_update).
Qed.

Lemma addRect_count (d : datum) (x x2 : num) (b b' : ArrayBuilder) :
  addRect d x x2 b = Ok b' →
  vertexCount b'
  = vertexCount b
    + match squeezed (squeezeEncoder d) with Some _ => 5 | None => 6 end.
Proof.
  unfold VertexBuilder.addRect.
  destruct (if Num.gt _ _ then _ else _) as [y y2].
  destruct (squeezed (squeezeEncoder d)) as [s |].
  - destruct (_squeeze s x x2 y y2); [| done].
    intros [= <-]. unfold updateX, updateY.
    repeat (rewrite vertexCount_pushAll || rewrite vertexCount_update).
    rewrite vertexCount_updateFromDatum. lia.
  - intros [= <-]. unfold tileCount. cbn [seq foldl].
    unfold updateX, updateY, updateWidth, updateHeight.
    repeat (rewrite vertexCount_pushAll || rewrite vertexCount_update
            || rewrite vertexCount_updateFromDatum
            || rewrite vertexCount_addTile).
    lia.
Qed.

Lemma _squeeze_known (s : string) (x x2 y y2 : num) :
  s ∈ ["bottom"; "top"; "left"; "right"] → is_Some (_squeeze s x x2 y y2).
Proof.
  intros H. unfold _squeeze. repeat case_decide; try (by eexists).
  exfalso. repeat (apply elem_of_cons in H as [? | H]; [congruence |]).
  by apply elem_of_nil in H.
Qed.

Lemma addRect_returns (d : datum) (x x2 : num) (b : ArrayBuilder) :
  knownSqueeze d = true → ∃ b', addRect d x x2 b = Ok b'.
Proof.
  unfold VertexBuilder.knownSqueeze, VertexBuilder.addRect.
  destruct (if Num.gt _ _ then _ else _) as [y y2].
  destruct (squeezed (squeezeEncoder d)) as [s |]; [| by eexists].
  intros H. apply bool_decide_eq_true in H.
  destruct (_squeeze_known s x x2 y y2 H) as [c ->]. by eexists.
Qed.

Lemma addRectDatum_count (b b' : ArrayBuilder) (d : datum) :
  addRectDatum b d = Ok b' →
  vertexCount b' = vertexCount b + rectVertexCount d.
Proof.
  rewrite RectFacts.addRectDatum_steps. unfold VertexBuilder.rectVertexCount.
  destruct (fullyOutside d).
  - intros [= <-]. lia.
  - apply addRect_count.
Qed.

Lemma addRectDatum_returns (b : ArrayBuilder) (d : datum) :
  knownSqueeze d = true → ∃ b', addRectDatum b d = Ok b'.
Proof.
  intros H. rewrite RectFacts.addRectDatum_steps.
  destruct (fullyOutside d); [by eexists | by apply addRect_returns].
Qed.

Lemma addRectData_count (data : list datum) (b b' : ArrayBuilder) :
  addRectData b data = Ok b' →
  vertexCount b' = vertexCount b + sum_list (map rectVertexCount data).
Proof.
  revert b. induction data as [| d data IH]; intros b; simpl.
  - intros [= <-]. lia.
  - destruct (addRectDatum b d) as [b1 | |] eqn:E; simpl; try done.
    intros H. rewrite (IH _ H), (addRectDatum_count _ _ _ E). lia.
Qed.

Lemma addRectData_returns (data : list datum) (b : ArrayBuilder) :
  Forall (λ d, knownSqueeze d = true) data → ∃ b', addRectData b data = Ok b'.
Proof.
  intros H. revert b. induction H as [| d data Hd _ IH]; intros b; simpl.
  - by eexists.
  - destruct (addRectDatum_returns b d Hd) as [b1 ->]. simpl. apply IH.
Qed.

Lemma rectAddBatch_fresh (key : string) (data : list datum)
      (vb vb1 : VertexBuilderState) :
  key ∉ map fst (rangeMap vb) →
  rectAddBatch key data vb = Ok vb1 →
  let n := sum_list (map rectVertexCount data) in
  index vb1 = index vb
  ∧ vertexCount (variableBuilder vb1) = vertexCount (variableBuilder vb) + n
  ∧ rangeMap vb1
    = rangeMap vb
      ++ expectedRanges (vertexCount (variableBuilder vb)) [(key, n)].
Proof.
  intros Hk. unfold VertexBuilder.rectAddBatch.
  destruct (addRectData _ data) as [b | |] eqn:E; simpl; try done.
  apply addRectData_count in E. rewrite E.
  replace (_ + _ - _) with (sum_list (map rectVertexCount data)) by lia.
  intros [= <-].
  destruct (decide (sum_list (map rectVertexCount data) = 0)); simpl.
  - by rewrite app_nil_r.
  - by rewrite map_set_fresh.
Qed.

Lemma rectAddBatches_fresh (batches : list (string * list datum))
      (vb vb1 : VertexBuilderState) :
  NoDup (map fst batches) →
  (∀ k, k ∈ map fst batches → k ∉ map fst (rangeMap vb)) →
  rectAddBatches batches vb = Ok vb1 →
  let sizes := batchSizes rectVertexCount batches in
  index vb1 = index vb
  ∧ vertexCount (variableBuilder vb1)
    = vertexCount (variableBuilder vb) + sizesTotal sizes
  ∧ rangeMap vb1
    = rangeMap vb ++ expectedRanges (vertexCount (variableBuilder vb)) sizes.
Proof.
  revert vb. induction batches as [| [key data] batches IH]; intros vb Hnd Hk.
  - simpl. intros [= <-]. unfold sizesTotal. simpl.
    by rewrite !Nat.add_0_r, app_nil_r.
  - simpl in Hnd. apply NoDup_cons in Hnd as [Hkey Hnd]. simpl.
    destruct (rectAddBatch key data vb) as [vb0 | |] eqn:E; simpl; try done.
    assert (Hfresh : key ∉ map fst (rangeMap vb)) by (apply Hk; simpl; left).
    destruct (rectAddBatch_fresh key data vb vb0 Hfresh E) as (Hi & Hv & Hr).
    intros H. destruct (IH vb0 Hnd) as (Hi' & Hv' & Hr'); [| done |].
    { intros k Hin. rewrite Hr, map_app, elem_of_app. intros [H' | H'].
      - revert H'. apply Hk. simpl. by right.
      - apply expectedRanges_keys in H'. simpl in H'.
        apply list_elem_of_singleton in H'. by subst. }
    rewrite Hi', Hv', Hr', Hi, Hv, Hr.
    unfold sizesTotal, batchSizes. simpl.
    repeat split; try lia.
    rewrite <- app_assoc. f_equal. simpl.
    destruct (decide (sum_list (map rectVertexCount data) = 0)) as [-> | H0];
      simpl; [by rewrite Nat.add_0_r | done].
Qed.

Lemma rectAddBatch_returns (key : string) (data : list datum)
      (vb : VertexBuilderState) :
  Forall (λ d, knownSqueeze d = true) data →
  ∃ vb1, rectAddBatch key data vb = Ok vb1.
Proof.
  intros H. unfold VertexBuilder.rectAddBatch.
  destruct (addRectData_returns data (variableBuilder vb) H) as [b ->].
  by eexists.
Qed.

Lemma rectAddBatches_returns (batches : list (string * list datum))
      (vb : VertexBuilderState) :
  Forall (λ kd, Forall (λ d, knownSqueeze d = true) (snd kd)) batches →
  ∃ vb1, rectAddBatches batches vb = Ok vb1.
Proof.
  intros H. revert vb.
  induction H as [| [key data] batches Hd _ IH]; intros vb; simpl.
  - by eexists.
  - destruct (rectAddBatch_returns key data vb Hd) as [vb0 ->]. simpl.
    apply IH.
Qed.

Lemma batchSizes_keys (perItem : datum → nat)
      (batches : list (string * list datum)) :
  map fst (batchSizes perItem batches) = map fst batches.
Proof. unfold batchSizes. rewrite map_map. by apply map_ext. Qed.

Lemma batchSizes_lookup (perItem : datum → nat)
      (batches : list (string * list datum)) (i : nat) (key : string)
      (data : list datum) :
  batches !! i = Some (key, data) →
  batchSizes perItem batches !! i = Some (key, sum_list (map perItem data)).
Proof. intros H. unfold batchSizes. by rewrite list_lookup_fmap, H. Qed.

(** C6, amended. For batches added under pairwise distinct keys to a new
    builder. Base builder: a batch of [n > 0] items has the range of count
    [1 * n] that starts after the vertices of the earlier batches, an empty
    batch has no range, the counts add up to the vertex count [toArrays]
    reports, which is the number of vertices stored, and the ranges follow
    one another from vertex 0 up to it in insertion order. Rect builder:
    the batches are added without error when every squeeze name is known,
    and then the same holds with 0, 5 or 6 vertices per datum and the
    vertex count of the variable builder. *)
Theorem addBatch_ranges (batches : list (string * list datum)) :
  NoDup (map fst batches) →
  (let out := toArrays (addBatches batches newVertexBuilder) in
   (∀ i key points, batches !! i = Some (key, points) →
      map_get key (arraysRangeMap out)
      = if decide (length points = 0) then None
        else Some {| offset := sizesTotal (take i (batchSizes (λ _, 1) batches));
                     count := 1 * length points |})
   ∧ totalCount (arraysRangeMap out) = arraysVertexCount out
   ∧ length (variableArrays out) = arraysVertexCount out
   ∧ contiguous 0 (arraysRangeMap out) (arraysVertexCount out))
  ∧ (Forall (λ kd, Forall (λ d, knownSqueeze d = true) (snd kd)) batches →
     ∃ vb, rectAddBatches batches newVertexBuilder = Ok vb)
  ∧ (∀ vb, rectAddBatches batches newVertexBuilder = Ok vb →
       (∀ i key data, batches !! i = Some (key, data) →
          map_get key (rangeMap vb)
          = if decide (sum_list (map rectVertexCount data) = 0) then None
            else Some {| offset := sizesTotal
                                     (take i (batchSizes rectVertexCount batches));
                         count := sum_list (map rectVertexCount data) |})
       ∧ totalCount (rangeMap vb) = vertexCount (variableBuilder vb)
       ∧ contiguous 0 (rangeMap vb) (vertexCount (variableBuilder vb))).
Proof.
  intros Hnd. split; [| split].
  - destruct (addBatches_fresh batches newVertexBuilder Hnd) as (Hi & Hv & Hr).
    { intros k _. simpl. apply not_elem_of_nil. }
    cbn zeta in *. simpl in Hi, Hv, Hr. simpl.
    rewrite Hi, Hr. unfold vertexCount in Hv. rewrite Hv.
    split; [| split; [| split]].
    + intros i key points Hlook.
      rewrite (expectedRanges_lookup 0 _ i key (sum_list (map (λ _, 1) points))).
      * rewrite sum_ones. by rewrite Nat.add_0_r.
      * by rewrite batchSizes_keys.
      * by apply batchSizes_lookup.
    + apply expectedRanges_total.
    + done.
    + apply (expectedRanges_contiguous 0).
  - intros H. by apply rectAddBatches_returns.
  - intros vb Hvb.
    destruct (rectAddBatches_fresh batches newVertexBuilder vb Hnd)
      as (Hi & Hv & Hr); [| done |].
    { intros k _. simpl. apply not_elem_of_nil. }
    cbn zeta in *. simpl in Hi, Hv, Hr. rewrite Hv, Hr.
    change (vertexCount emptyArrayBuilder) with 0.
    split; [| split].
    + intros i key data Hlook.
      rewrite (expectedRanges_lookup 0 _ i key
                 (sum_list (map rectVertexCount data)));
        [done | by rewrite batchSizes_keys | by apply batchSizes_lookup].
    + apply expectedRanges_total.
    + apply (expectedRanges_contiguous 0).
Qed.

End Builders.

Import Examples.

(** Two batches under one key: the second range replaces the first, so
    the counts no longer add up to the vertex count and vertex 0 is in no
    range. A rect batch of a squeezed and a plain datum has 11 vertices,
    which is no multiple of its 2 items. *)
Lemma addBatch_ranges_counterexample :
  (let out :=
     toArrays [] (addBatches rect rectConvert
                    [("a", [mkRect 0 1 0 1]); ("a", [mkRect 2 3 0 1])]
                    newBuilder) in
   arraysRangeMap out = [("a", {| offset := 1; count := 1 |})]
   ∧ arraysVertexCount out = 2
   ∧ totalCount (arraysRangeMap out) ≠ arraysVertexCount out
   ∧ ¬ contiguous 0 (arraysRangeMap out) (arraysVertexCount out))
  ∧ ∃ vb, Examples.rectAddBatch everywhere "a"
            [squeezedRect; mkRect 2 3 0 1] newBuilder = Ok vb
          ∧ rangeMap vb = [("a", {| offset := 0; count := 11 |})]
          ∧ ∀ perItem, 11 ≠ perItem * 2.
Proof.
  split.
  - cbn zeta. repeat split; [vm_compute; lia |].
    vm_compute. intros [H _]. lia.
  - eexists. split; [vm_compute; reflexivity |]. split; [reflexivity |].
    intros perItem. lia.
Qed.

Lemma addBatch_ranges_witness :
  let out :=
    toArrays [] (addBatches rect rectConvert
                   [("a", [mkRect 0 1 0 1; mkRect 1 2 0 1]); ("b", []);
                    ("c", [mkRect 2 3 0 1])]
                   newBuilder) in
  totalCount (arraysRangeMap out) = 3
  ∧ map_get "c" (arraysRangeMap out) = Some {| offset := 2; count := 1 |}.
Proof.
  assert (Hnd : NoDup (map fst [("a", [mkRect 0 1 0 1; mkRect 1 2 0 1]);
                                ("b", []); ("c", [mkRect 2 3 0 1])])).
  { apply (bool_decide_unpack _). vm_compute. exact I. }
  destruct (addBatch_ranges rectConvert ∅ [] x x2 y y2 squeeze "attr_"
              everywhere _ Hnd) as ((Hlook & Htotal & _) & _).
  split.
  - exact Htotal.
  - exact (Hlook 2 "c" [mkRect 2 3 0 1] eq_refl).
Defined.

(** The vertex count [toArrays] reports for a rect builder stays 0:
    [RectVertexBuilder.addBatch] counts in the variable builder and leaves
    [index] alone. *)
Example rect_toArrays_vertexCount :
  ∃ vb, Examples.rectAddBatch everywhere "sampleA" [mkRect 0 10 0 1] newBuilder
        = Ok vb
        ∧ rangeMap vb = [("sampleA", {| offset := 0; count := 6 |})]
        ∧ vertexCount (variableBuilder vb) = 6
        ∧ arraysVertexCount (toArrays [] vb) = 0.
Proof. eexists. split; [vm_compute; reflexivity |]. by repeat split. Qed.

End BatchFacts.

(* ===================================================================== *)
(** * Properties of the parameter mediator: lookup *)
(* ===================================================================== *)

Module LookupFacts.
Import ParamMediator.

Lemma mediator_setMediator (w : World) (m m' : nat) (med : Mediator) :
  mediator (setMediator m med w) m'
  = if decide (m = m') then med else mediator w m'.
Proof.
  unfold mediator, setMediator. simpl. rewrite lookup_insert.
  by case_decide.
Qed.

Lemma mediator_setMediator_eq (w : World) (m : nat) (med : Mediator) :
  mediator (setMediator m med w) m = med.
Proof. rewrite mediator_setMediator. by rewrite decide_True. Qed.

Lemma mediator_setMediator_ne (w : World) (m m' : nat) (med : Mediator) :
  m ≠ m' → mediator (setMediator m med w) m' = mediator w m'.
Proof. intros. rewrite mediator_setMediator. by rewrite decide_False. Qed.

(** Two worlds with the same mediators along a chain have that chain. *)
Lemma parentChain_agree (w w' : World) (m : nat) (chain : list nat) :
  parentChain w m chain →
  (∀ a, a ∈ chain → mediator w' a = mediator w a) →
  parentChain w' m chain.
Proof.
  induction 1 as [m Hroot | m p chain Hp _ IH]; intros Hagree.
  - apply chain_root. rewrite Hagree; [done | by left].
  - apply chain_step with p.
    + rewrite Hagree; [done | by left].
    + apply IH. intros a Ha. apply Hagree. by right.
Qed.

Lemma nearestOwner_agree (w w' : World) (paramName : string) (chain : list nat) :
  (∀ a, a ∈ chain → mediator w' a = mediator w a) →
  nearestOwner w' paramName chain = nearestOwner w paramName chain.
Proof.
  unfold nearestOwner. induction chain as [| a chain IH]; intros Hagree;
    [done |].
  simpl. unfold hasValue at 1 3. rewrite Hagree by (by left).
  destruct (bool_decide _); [done |].
  apply IH. intros b Hb. apply Hagree. by right.
Qed.

Lemma nearestOwner_value_agree (w w' : World) (paramName : string)
      (chain : list nat) (o : nat) :
  (∀ a, a ∈ chain → mediator w' a = mediator w a) →
  nearestOwner w paramName chain = Some o →
  getValue o paramName w' = getValue o paramName w.
Proof.
  intros Hagree Ho. unfold nearestOwner in Ho.
  apply List.find_some in Ho as [Hin _]. apply list_elem_of_In in Hin.
  unfold getValue. by rewrite Hagree.
Qed.

(** The chain is read off the parent links, the nearest owner off the
    value stores. *)
Lemma parentChain_ext (w w' : World) (m : nat) (chain : list nat) :
  parentChain w m chain →
  (∀ a, a ∈ chain → parentFinder (mediator w' a) = parentFinder (mediator w a)) →
  parentChain w' m chain.
Proof.
  induction 1 as [m Hroot | m p chain Hp _ IH]; intros Hagree.
  - apply chain_root. rewrite Hagree; [done | by left].
  - apply chain_step with p.
    + rewrite Hagree; [done | by left].
    + apply IH. intros a Ha. apply Hagree. by right.
Qed.

Lemma nearestOwner_ext (w w' : World) (paramName : string) (chain : list nat) :
  (∀ a, a ∈ chain → paramValues (mediator w' a) = paramValues (mediator w a)) →
  nearestOwner w' paramName chain = nearestOwner w paramName chain.
Proof.
  unfold nearestOwner. induction chain as [| a chain IH]; intros Hagree;
    [done |].
  simpl. unfold hasValue at 1 3. rewrite Hagree by (by left).
  destruct (bool_decide _); [done |].
  apply IH. intros b Hb. apply Hagree. by right.
Qed.

(** The walk up the chain finds the nearest owner, given one unit of fuel
    per mediator of the chain. *)
Lemma findMediatorForParam_chain (w : World) (m : nat) (paramName : string)
      (chain : list nat) (fuel : nat) :
  parentChain w m chain → (length chain ≤ fuel)%nat →
  findMediatorForParam fuel m paramName w = Ok (nearestOwner w paramName chain).
Proof.
  intros Hchain. revert fuel.
  induction Hchain as [m Hroot | m p chain Hp _ IH]; intros fuel Hfuel;
    (destruct fuel as [| fuel]; [simpl in Hfuel; lia |]); simpl;
    unfold nearestOwner; simpl; destruct (hasValue w paramName m); try done.
  - by rewrite Hroot.
  - rewrite Hp. apply IH. simpl in Hfuel. lia.
Qed.

(** C1. [getValue] reads the value store of its own mediator only;
    [findValue] returns the value of the nearest mediator of the parent
    chain (the mediator itself included) that owns the name, and
    [undefined] when none does; whatever a mediator off the chain, such as
    a sibling, holds makes no difference. *)
Theorem findValue_nearest_owner (w : World) (m : nat) (paramName : string)
        (chain : list nat) (fuel : nat) :
  parentChain w m chain →
  (length chain ≤ fuel)%nat →
  (∀ w', paramValues (mediator w' m) = paramValues (mediator w m) →
         getValue m paramName w' = getValue m paramName w)
  ∧ findMediatorForParam fuel m paramName w
    = Ok (nearestOwner w paramName chain)
  ∧ findValue fuel m paramName w
    = Ok (match nearestOwner w paramName chain with
          | Some o => default VUndefined (paramValues (mediator w o) !! paramName)
          | None => VUndefined
          end)
  ∧ (∀ o, nearestOwner w paramName chain = Some o →
          ∃ before after,
            chain = before ++ o :: after
            ∧ is_Some (paramValues (mediator w o) !! paramName)
            ∧ ∀ a, a ∈ before → paramValues (mediator w a) !! paramName = None)
  ∧ (nearestOwner w paramName chain = None →
     ∀ a, a ∈ chain → paramValues (mediator w a) !! paramName = None)
  ∧ (∀ sibling med, sibling ∉ chain →
       findValue fuel m paramName (setMediator sibling med w)
       = findValue fuel m paramName w).
Proof.
  intros Hchain Hfuel.
  pose proof (findMediatorForParam_chain w m paramName chain fuel Hchain Hfuel)
    as Hfind.
  split; [| split; [| split; [| split; [| split]]]].
  - intros w' Hsame. unfold getValue. by rewrite Hsame.
  - done.
  - unfold findValue. rewrite Hfind. simpl.
    by destruct (nearestOwner w paramName chain).
  - intros o Ho. unfold nearestOwner in Ho. clear Hchain Hfuel Hfind.
    induction chain as [| a chain IH]; [done |]. simpl in Ho.
    destruct (hasValue w paramName a) eqn:Ha.
    + simplify_eq. exists [], chain. split; [done |].
      split; [by apply bool_decide_eq_true in Ha |]. intros a Hin.
      by apply elem_of_nil in Hin.
    + destruct (IH Ho) as (before & after & -> & Hown & Hnone).
      exists (a :: before), after. split; [done |]. split; [done |].
      intros b Hb. apply elem_of_cons in Hb as [-> | Hb]; [| by apply Hnone].
      apply bool_decide_eq_false in Ha. by apply eq_None_not_Some.
  - intros Hnone a Ha. unfold nearestOwner in Hnone.
    apply list_elem_of_In in Ha.
    pose proof (List.find_none _ _ Hnone a Ha) as H.
    apply bool_decide_eq_false in H. by apply eq_None_not_Some.
  - intros sibling med Hs.
    assert (Hagree : ∀ a, a ∈ chain →
              mediator (setMediator sibling med w) a = mediator w a).
    { intros a Ha. apply mediator_setMediator_ne. by intros ->. }
    unfold findValue.
    rewrite (findMediatorForParam_chain _ m paramName chain fuel
               (parentChain_agree _ _ _ _ Hchain Hagree) Hfuel), Hfind.
    rewrite (nearestOwner_agree _ _ _ _ Hagree). simpl.
    destruct (nearestOwner w paramName chain) as [o |] eqn:Ho; [| done].
    by rewrite (nearestOwner_value_agree _ _ _ _ _ Hagree Ho).
Qed.

Import Examples.

Lemma findValue_nearest_owner_witness :
  findValue 2 2 "threshold" familyWithThreshold = Ok VUndefined
  ∧ findValue 2 1 "threshold" familyWithThreshold = Ok (VNum (int 10)).
Proof.
  assert (H2 : parentChain familyWithThreshold 2 [2; 0]).
  { apply chain_step with 0; [reflexivity |]. by apply chain_root. }
  assert (H1 : parentChain familyWithThreshold 1 [1; 0]).
  { apply chain_step with 0; [reflexivity |]. by apply chain_root. }
  split.
  - destruct (findValue_nearest_owner familyWithThreshold 2 "threshold" [2; 0] 2
                H2 (le_n 2)) as (_ & _ & Hfind & _).
    exact Hfind.
  - destruct (findValue_nearest_owner familyWithThreshold 1 "threshold" [1; 0] 2
                H1 (le_n 2)) as (_ & _ & Hfind & _).
    exact Hfind.
Defined.

(** Scenario: siblings A and B under P; A registers ["threshold"]; B does
    not see it, nor does P. *)
Example sibling_registration_invisible :
  getValue 1 "threshold" familyWithThreshold = VNum (int 10)
  ∧ findValue 3 2 "threshold" familyWithThreshold = Ok VUndefined
  ∧ findValue 3 0 "threshold" familyWithThreshold = Ok VUndefined.
Proof. by vm_compute. Qed.

End LookupFacts.

(* ===================================================================== *)
(** * Properties of the parameter mediator: setters *)
(* ===================================================================== *)

Module SetterFacts.
Import ParamMediator LookupFacts.

Lemma sameStructure_refl (w : World) : sameStructure w w.
Proof. by intros m. Qed.

Lemma sameStructure_trans (w1 w2 w3 : World) :
  sameStructure w1 w2 → sameStructure w2 w3 → sameStructure w1 w3.
Proof.
  intros H12 H23 m. destruct (H12 m) as (<- & <- & <- & <-). apply H23.
Qed.

Lemma sameStructure_listenersOf (w w' : World) (m : nat) (paramName : string) :
  sameStructure w w' → listenersOf w' m paramName = listenersOf w m paramName.
Proof. intros H. unfold listenersOf. by destruct (H m) as (-> & _). Qed.

Lemma cascadeBounded_sameStructure rank (w w' : World) :
  sameStructure w w' → cascadeBounded rank w → cascadeBounded rank w'.
Proof.
  intros Hs Hb m paramName m' name' expr Hin.
  rewrite (sameStructure_listenersOf _ _ _ _ Hs) in Hin.
  destruct (Hb _ _ _ _ _ Hin) as [Hr He]. split; [done |].
  by destruct (Hs m') as (_ & -> & _).
Qed.

Lemma storeValue_sameStructure (m : nat) (paramName : string) (v : value)
      (w : World) :
  sameStructure w (storeValue m paramName v w).
Proof.
  intros m'. unfold storeValue. rewrite mediator_setMediator.
  by case_decide; subst.
Qed.

Lemma storeValue_lookup (m m' : nat) (paramName name' : string) (v : value)
      (w : World) :
  paramValues (mediator (storeValue m paramName v w) m') !! name'
  = if decide (m = m' ∧ paramName = name') then Some v
    else paramValues (mediator w m') !! name'.
Proof.
  unfold storeValue. rewrite mediator_setMediator.
  destruct (decide (m = m')) as [-> | Hm]; simpl.
  - rewrite lookup_insert. destruct (decide (paramName = name')) as [-> | Hn].
    + by rewrite decide_True.
    + rewrite decide_False; [done | by intros [_ ?]].
  - rewrite decide_False; [done | by intros [? _]].
Qed.

Lemma batchPropertyChange_mediators (g : nat) (key : string) (w : World) :
  mediators (batchPropertyChange g key w) = mediators w.
Proof. unfold batchPropertyChange. by case_decide. Qed.

Lemma batchPropertyChange_mediator (g : nat) (key : string) (w : World)
      (m : nat) :
  mediator (batchPropertyChange g key w) m = mediator w m.
Proof. unfold mediator. by rewrite batchPropertyChange_mediators. Qed.

(** The setter, one level unfolded. *)
Lemma setValue_unfold (fuel : nat) (m : nat) (paramName : string) (v : value)
      (w : World) :
  setValue (S fuel) m paramName v w
  = if strict_eq v (getValue m paramName w) then Ok (w, [])
    else notify (setValue fuel) (listenersOf w m paramName)
           (storeValue m paramName v w).
Proof.
  simpl. destruct (strict_eq v (getValue m paramName w)); [done |].
  destruct (storeValue_sameStructure m paramName v w m) as (-> & _).
  unfold listenersOf. by destruct (paramListeners (mediator w m) !! paramName).
Qed.

(** What a terminating setter call does, for setters of rank below the
    fuel. *)
Definition setterReturns (rank : nat * string → nat) (fuel : nat) : Prop :=
  ∀ m paramName v w,
    cascadeBounded rank w →
    rank (m, paramName) < fuel →
    ∃ w' calls,
      setValue fuel m paramName v w = Ok (w', calls)
      ∧ map calledListener calls
        = (if strict_eq v (getValue m paramName w) then []
           else listenersOf w m paramName)
      ∧ sameStructure w w'
      ∧ (∀ m1 n1, rank (m, paramName) < rank (m1, n1) →
           paramValues (mediator w' m1) !! n1 = paramValues (mediator w m1) !! n1)
      ∧ (strict_eq v (getValue m paramName w) = false →
         paramValues (mediator w' m) !! paramName = Some v)
      ∧ (strict_eq v (getValue m paramName w) = true → w' = w).

Lemma notify_returns rank (fuel R : nat) (listeners : list listener) :
  setterReturns rank fuel →
  R ≤ fuel →
  ∀ w,
    cascadeBounded rank w →
    (∀ m' name' expr, Reapply m' name' expr ∈ listeners →
       rank (m', name') < R ∧ is_Some (expressions (mediator w m') !! expr)) →
    ∃ w' calls,
      notify (setValue fuel) listeners w = Ok (w', calls)
      ∧ map calledListener calls = listeners
      ∧ sameStructure w w'
      ∧ (∀ m1 n1, R ≤ rank (m1, n1) →
           paramValues (mediator w' m1) !! n1 = paramValues (mediator w m1) !! n1).
Proof.
  intros IH HR. induction listeners as [| l rest IHrest]; intros w Hb Hls.
  - exists w, []. simpl. split; [done |]. split; [done |].
    split; [apply sameStructure_refl | done].
  - assert (Hl : ∃ w1 c, invokeListener (setValue fuel) l w = Ok (w1, c)
               ∧ calledListener c = l ∧ sameStructure w w1
               ∧ ∀ m1 n1, R ≤ rank (m1, n1) →
                   paramValues (mediator w1 m1) !! n1
                   = paramValues (mediator w m1) !! n1).
    { destruct l as [m' name' expr | g key | id]; simpl.
      - destruct (Hls m' name' expr) as [Hr [e He]]; [by left |]. rewrite He.
        destruct (IH m' name' (callExpr e VNull w) w Hb)
          as (w1 & cs & Hrun & _ & Hs & Hframe & _); [lia |].
        rewrite Hrun. simpl. exists w1, (Call (Reapply m' name' expr) cs).
        split; [done |]. split; [done |]. split; [done |].
        intros m1 n1 Hrank. apply Hframe. lia.
      - eexists _, _. split; [done |]. split; [done |]. split.
        + intros m. by rewrite batchPropertyChange_mediator.
        + intros m1 n1 _. by rewrite batchPropertyChange_mediator.
      - exists w, (Call (Callback id) []).
        split; [done |]. split; [done |].
        split; [apply sameStructure_refl | done]. }
    destruct Hl as (w1 & c & Hrun & Hc & Hs1 & Hf1).
    destruct (IHrest w1) as (w2 & cs & Hrun2 & Hcs & Hs2 & Hf2).
    { by apply (cascadeBounded_sameStructure rank w). }
    { intros m' name' expr Hin. destruct (Hls m' name' expr) as [Hr He];
        [by right |]. split; [done |]. by destruct (Hs1 m') as (_ & -> & _). }
    exists w2, (c :: cs). simpl. rewrite Hrun. simpl. rewrite Hrun2. simpl.
    split; [done |]. split; [by rewrite Hc, Hcs |].
    split; [by apply (sameStructure_trans w w1) |].
    intros m1 n1 Hrank. rewrite Hf2, Hf1; auto.
Qed.

Lemma setValue_returns rank (fuel : nat) : setterReturns rank fuel.
Proof.
  induction fuel as [| fuel IH]; intros m paramName v w Hb Hrank; [lia |].
  rewrite setValue_unfold.
  destruct (strict_eq v (getValue m paramName w)) eqn:Heq.
  - exists w, []. split; [done |]. split; [done |].
    split; [apply sameStructure_refl |]. by repeat split.
  - pose proof (storeValue_sameStructure m paramName v w) as Hs0.
    destruct (notify_returns rank fuel (rank (m, paramName))
                (listenersOf w m paramName) IH) with (w := storeValue m paramName v w)
      as (w' & cs & Hrun & Hcs & Hs & Hframe); [lia | | |].
    { by apply (cascadeBounded_sameStructure rank w). }
    { intros m' name' expr Hin. destruct (Hb _ _ _ _ _ Hin) as [Hr He].
      split; [done |]. by destruct (Hs0 m') as (_ & -> & _). }
    exists w', cs. split; [done |]. split; [done |].
    split; [by apply (sameStructure_trans w (storeValue m paramName v w)) |].
    split; [| split; [| done]].
    + intros m1 n1 Hr. rewrite Hframe by lia. rewrite storeValue_lookup.
      rewrite decide_False; [done |]. intros [-> ->]. lia.
    + intros _. rewrite Hframe by lia. rewrite storeValue_lookup.
      by rewrite decide_True.
Qed.

(** C2. In a world whose registries are sets and whose expression-backed
    parameters depend on one another in a well-founded way: a setter
    called with the value already stored calls no listener and changes
    nothing. Called with another value, it stores the value and then calls
    the listeners registered for the name, each once, in registration
    order; the call returns, and the value is stored when it does. *)
Theorem setter_notifies rank (w : World) (m : nat) (paramName : string)
        (v : value) (fuel : nat) :
  cascadeBounded rank w →
  registriesAreSets w →
  rank (m, paramName) < fuel →
  (strict_eq v (getValue m paramName w) = true →
     setValue fuel m paramName v w = Ok (w, []))
  ∧ (strict_eq v (getValue m paramName w) = false →
       ∃ w' calls,
         setValue fuel m paramName v w = Ok (w', calls)
         ∧ setValue fuel m paramName v w
           = notify (setValue (pred fuel)) (listenersOf w m paramName)
               (storeValue m paramName v w)
         ∧ getValue m paramName (storeValue m paramName v w) = v
         ∧ map calledListener calls = listenersOf w m paramName
         ∧ NoDup (map calledListener calls)
         ∧ getValue m paramName w' = v
         ∧ sameStructure w w').
Proof.
  intros Hb Hsets Hrank.
  destruct (setValue_returns rank fuel m paramName v w Hb Hrank)
    as (w' & cs & Hrun & Hcs & Hs & _ & Hv & Hsame).
  split.
  - intros Heq. rewrite Heq in Hcs. apply map_eq_nil in Hcs.
    by rewrite Hrun, (Hsame Heq), Hcs.
  - intros Hne. exists w', cs. rewrite Hne in Hcs.
    split; [done |]. split.
    { destruct fuel as [| fuel]; [lia |]. by rewrite setValue_unfold, Hne. }
    split.
    { unfold getValue. rewrite storeValue_lookup. by rewrite decide_True. }
    split; [done |]. split; [rewrite Hcs; apply Hsets |].
    split; [| done]. unfold getValue. by rewrite (Hv Hne).
Qed.

(** The registries of a world with one mediator and one registry. *)
Lemma listenersOf_single (w : World) (med : Mediator) (m0 : nat) (p0 : string)
      (ls : list listener) :
  mediators w = {[m0 := med]} →
  paramListeners med = {[p0 := ls]} →
  ∀ m p, listenersOf w m p = if decide (m = m0 ∧ p = p0) then ls else [].
Proof.
  intros Hw Hmed m p. unfold listenersOf, mediator. rewrite Hw.
  destruct (decide (m = m0)) as [-> | Hm].
  - rewrite lookup_singleton_eq. simpl. rewrite Hmed.
    destruct (decide (p = p0)) as [-> | Hp].
    + rewrite lookup_singleton_eq. by rewrite decide_True.
    + rewrite lookup_singleton_ne by done.
      rewrite decide_False; [done | by intros [_ ?]].
  - rewrite lookup_singleton_ne by done. simpl.
    rewrite decide_False; [done | by intros [? _]].
Qed.

Import Examples.

Lemma reactive_listeners (m : nat) (p : string) :
  listenersOf reactive m p
  = if decide (m = 0 ∧ p = "a") then [Reapply 0 "b" "a + 1"; Callback 7]
    else [].
Proof.
  apply (listenersOf_single reactive (mediator reactive 0)); by vm_compute.
Qed.

Lemma reactive_bounded : cascadeBounded reactiveRank reactive.
Proof.
  intros m p m' name' expr. rewrite reactive_listeners.
  case_decide as Hmp; [| by intros ?%elem_of_nil].
  destruct Hmp as [-> ->]. intros Hin.
  apply elem_of_cons in Hin as [Hin | Hin].
  - simplify_eq. split; [vm_compute; lia |].
    apply (bool_decide_unpack _). by vm_compute.
  - apply list_elem_of_singleton in Hin. discriminate.
Qed.

Lemma reactive_sets : registriesAreSets reactive.
Proof.
  intros m p. rewrite reactive_listeners. case_decide; [| constructor].
  apply (bool_decide_unpack _). by vm_compute.
Qed.

Lemma setter_notifies_witness :
  setValue 2 0 "a" (VNum (int 1)) reactive = Ok (reactive, [])
  ∧ ∃ w' calls,
      setValue 2 0 "a" (VNum (int 5)) reactive = Ok (w', calls)
      ∧ map calledListener calls = [Reapply 0 "b" "a + 1"; Callback 7]
      ∧ getValue 0 "a" w' = VNum (int 5).
Proof.
  split.
  - destruct (setter_notifies reactiveRank reactive 0 "a" (VNum (int 1)) 2
                reactive_bounded reactive_sets) as [Hsame _].
    + vm_compute. lia.
    + apply Hsame. reflexivity.
  - destruct (setter_notifies reactiveRank reactive 0 "a" (VNum (int 5)) 2
                reactive_bounded reactive_sets) as [_ Hnew].
    + vm_compute. lia.
    + destruct (Hnew eq_refl) as (w' & calls & Hrun & _ & _ & Hcalls & _ & Hv & _).
      exists w', calls. split; [exact Hrun |]. split; [| exact Hv].
      rewrite Hcalls. apply reactive_listeners.
Defined.

(** Scenario: the setter of a static parameter, and the cascade to the
    expression-backed parameter that depends on it. *)
Example setter_cascade :
  ∃ w', setValue 2 0 "a" (VNum (int 5)) reactive
        = Ok (w', [Call (Reapply 0 "b" "a + 1") []; Call (Callback 7) []])
        ∧ getValue 0 "a" w' = VNum (int 5)
        ∧ getValue 0 "b" w' = VNum (int 6).
Proof. eexists. split; [by vm_compute |]. by vm_compute. Qed.

End SetterFacts.

(* ===================================================================== *)
(** * Properties of the parameter mediator: expression listeners *)
(* ===================================================================== *)

Module ExpressionFacts.
Import ParamMediator LookupFacts.

Lemma set_add_elem (l : listener) (s : list listener) : l ∈ set_add l s.
Proof.
  unfold set_add. case_decide; [done |]. apply elem_of_app. right. by left.
Qed.

Lemma set_add_idem (l : listener) (s : list listener) :
  set_add l (set_add l s) = set_add l s.
Proof.
  unfold set_add at 1. rewrite decide_True; [done | apply set_add_elem].
Qed.

Lemma set_add_NoDup (l : listener) (s : list listener) :
  NoDup s → NoDup (set_add l s).
Proof.
  intros H. unfold set_add. case_decide; [done |].
  apply NoDup_app. split; [done |]. split; [| apply NoDup_singleton].
  intros x Hx Hx'. apply list_elem_of_singleton in Hx'. by subst.
Qed.

(** Deleting the listeners of [mine] one by one keeps the others, in
    order. *)
Lemma deleteListeners_filter (mine listeners : list listener) :
  deleteListeners mine listeners = filter (λ l, l ∉ mine) listeners.
Proof.
  unfold deleteListeners. revert listeners.
  induction mine as [| x mine IH]; intros listeners; simpl.
  - induction listeners as [| l listeners IHl]; [done |].
    rewrite filter_cons_True by apply not_elem_of_nil. by rewrite <- IHl.
  - rewrite IH. unfold set_delete. rewrite list_filter_filter.
    apply list_filter_iff. intros l. rewrite not_elem_of_cons. tauto.
Qed.

Lemma deleteListeners_idem (mine listeners : list listener) :
  deleteListeners mine (deleteListeners mine listeners)
  = deleteListeners mine listeners.
Proof.
  rewrite !deleteListeners_filter, list_filter_filter.
  apply list_filter_iff. tauto.
Qed.

(** The loop of [addListener] over the bindings. *)
Lemma foldl_addListenerTo (l : listener) (bindings : list (string * nat))
      (w : World) :
  let w1 := foldl (addListenerTo l) w bindings in
  (∀ mp param,
     paramListeners (mediator w1 mp) !! param
     = if decide ((param, mp) ∈ bindings)
       then Some (set_add l (listenersOf w mp param))
       else paramListeners (mediator w mp) !! param)
  ∧ (∀ mp, paramValues (mediator w1 mp) = paramValues (mediator w mp)
           ∧ expressions (mediator w1 mp) = expressions (mediator w mp)
           ∧ allocatedSetters (mediator w1 mp) = allocatedSetters (mediator w mp)
           ∧ paramConfigs (mediator w1 mp) = paramConfigs (mediator w mp)
           ∧ parentFinder (mediator w1 mp) = parentFinder (mediator w mp))
  ∧ batches w1 = batches w
  ∧ microtasks w1 = microtasks w
  ∧ delivered w1 = delivered w.
Proof.
  revert w. induction bindings as [| [param0 mp0] bindings IH]; intros w.
  - cbn [foldl]. split; [| done]. intros mp param.
    case_decide as Hin; [by apply elem_of_nil in Hin | done].
  - cbn [foldl]. destruct (IH (addListenerTo l w (param0, mp0)))
      as (Hl & Hm & Hb & Hq & Hd). cbv zeta in *.
    assert (Hstep : ∀ mp param,
              paramListeners (mediator (addListenerTo l w (param0, mp0)) mp)
                !! param
              = if decide ((param, mp) = (param0, mp0))
                then Some (set_add l (listenersOf w mp param))
                else paramListeners (mediator w mp) !! param).
    { intros mp param. unfold addListenerTo. rewrite mediator_setMediator.
      destruct (decide (mp0 = mp)) as [-> | Hmp]; simpl.
      - rewrite lookup_insert.
        destruct (decide (param0 = param)) as [-> | Hp].
        + by rewrite decide_True.
        + rewrite decide_False; [done | congruence].
      - rewrite decide_False; [done | congruence]. }
    split; [| split; [| by rewrite Hb, Hq, Hd]].
    + intros mp param. rewrite Hl. unfold listenersOf at 1. rewrite Hstep.
      destruct (decide ((param, mp) = (param0, mp0))) as [Heq | Hne].
      * rewrite (decide_True (P := (param, mp) ∈ (param0, mp0) :: bindings))
          by (rewrite Heq; left).
        case_decide; [| done]. simpl. by rewrite set_add_idem.
      * destruct (decide ((param, mp) ∈ bindings)) as [Hin | Hnin].
        -- by rewrite decide_True by (by right).
        -- by rewrite decide_False by (by apply not_elem_of_cons).
    + intros mp. destruct (Hm mp) as (-> & -> & -> & -> & ->).
      unfold addListenerTo. rewrite mediator_setMediator.
      by case_decide; subst.
Qed.

(** The loop of [invalidate] over the bindings. *)
Lemma foldl_invalidateAt (mine : list listener) (bindings : list (string * nat))
      (w : World) :
  let w1 := foldl (invalidateAt mine) w bindings in
  (∀ mp param,
     paramListeners (mediator w1 mp) !! param
     = if decide ((param, mp) ∈ bindings)
       then filter (λ l, l ∉ mine) <$> paramListeners (mediator w mp) !! param
       else paramListeners (mediator w mp) !! param)
  ∧ (∀ mp, paramValues (mediator w1 mp) = paramValues (mediator w mp)
           ∧ expressions (mediator w1 mp) = expressions (mediator w mp)
           ∧ allocatedSetters (mediator w1 mp) = allocatedSetters (mediator w mp)
           ∧ paramConfigs (mediator w1 mp) = paramConfigs (mediator w mp)
           ∧ parentFinder (mediator w1 mp) = parentFinder (mediator w mp))
  ∧ batches w1 = batches w
  ∧ microtasks w1 = microtasks w
  ∧ delivered w1 = delivered w.
Proof.
  revert w. induction bindings as [| [param0 mp0] bindings IH]; intros w.
  - cbn [foldl]. split; [| done]. intros mp param.
    case_decide as Hin; [by apply elem_of_nil in Hin | done].
  - cbn [foldl]. destruct (IH (invalidateAt mine w (param0, mp0)))
      as (Hl & Hm & Hb & Hq & Hd). cbv zeta in *.
    assert (Hstep : ∀ mp param,
              paramListeners (mediator (invalidateAt mine w (param0, mp0)) mp)
                !! param
              = if decide ((param, mp) = (param0, mp0))
                then filter (λ l, l ∉ mine)
                       <$> paramListeners (mediator w mp) !! param
                else paramListeners (mediator w mp) !! param).
    { intros mp param. unfold invalidateAt. rewrite mediator_setMediator.
      destruct (decide (mp0 = mp)) as [-> | Hmp]; simpl.
      - rewrite lookup_alter.
        destruct (decide (param0 = param)) as [-> | Hp].
        + rewrite decide_True by done.
          destruct (paramListeners (mediator w mp) !! param); simpl; [| done].
          by rewrite deleteListeners_filter.
        + rewrite decide_False; [done | congruence].
      - rewrite decide_False; [done | congruence]. }
    split; [| split; [| by rewrite Hb, Hq, Hd]].
    + intros mp param. rewrite Hl, Hstep.
      destruct (decide ((param, mp) = (param0, mp0))) as [Heq | Hne].
      * rewrite (decide_True (P := (param, mp) ∈ (param0, mp0) :: bindings))
          by (rewrite Heq; left).
        case_decide; [| done].
        destruct (paramListeners (mediator w mp) !! param); simpl; [| done].
        rewrite list_filter_filter. f_equal. apply list_filter_iff. tauto.
      * destruct (decide ((param, mp) ∈ bindings)) as [Hin | Hnin].
        -- by rewrite decide_True by (by right).
        -- by rewrite decide_False by (by apply not_elem_of_cons).
    + intros mp. destruct (Hm mp) as (-> & -> & -> & -> & ->).
      unfold invalidateAt. rewrite mediator_setMediator.
      by case_decide; subst.
Qed.

Lemma addListener_returns (w : World) (m : nat) (expr : string)
      (e : ExprRefFunction) (l : listener) :
  expressions (mediator w m) !! expr = Some e →
  ∃ w1,
    addListener m expr l w = Ok w1
    ∧ (∀ mp param,
         paramListeners (mediator w1 mp) !! param
         = if decide ((param, mp) ∈ mediatorsForParams e)
           then Some (set_add l (listenersOf w mp param))
           else paramListeners (mediator w mp) !! param)
    ∧ expressions (mediator w1 m) !! expr
      = Some {| fn := fn e; mediatorsForParams := mediatorsForParams e;
                myListeners := match mediatorsForParams e with
                               | [] => myListeners e
                               | _ :: _ => set_add l (myListeners e)
                               end |}
    ∧ (∀ mp, paramValues (mediator w1 mp) = paramValues (mediator w mp)
             ∧ allocatedSetters (mediator w1 mp)
               = allocatedSetters (mediator w mp)).
Proof.
  intros He. unfold addListener. rewrite He. eexists. split; [done |].
  destruct (foldl_addListenerTo l (mediatorsForParams e) w)
    as (Hl & Hm & _). cbv zeta in *.
  split; [| split].
  - intros mp param. rewrite <- Hl. rewrite mediator_setMediator.
    by case_decide; subst.
  - rewrite mediator_setMediator_eq. simpl. by rewrite lookup_insert_eq.
  - intros mp. rewrite mediator_setMediator.
    case_decide; subst; simpl; by destruct (Hm mp) as (-> & _ & -> & _).
Qed.

Lemma invalidate_returns (w : World) (m : nat) (expr : string)
      (e : ExprRefFunction) :
  expressions (mediator w m) !! expr = Some e →
  ∃ w2,
    invalidate m expr w = Ok w2
    ∧ (∀ mp param,
         paramListeners (mediator w2 mp) !! param
         = if decide ((param, mp) ∈ mediatorsForParams e)
           then filter (λ l', l' ∉ myListeners e)
                  <$> paramListeners (mediator w mp) !! param
           else paramListeners (mediator w mp) !! param)
    ∧ (∀ mp, paramValues (mediator w2 mp) = paramValues (mediator w mp)
             ∧ expressions (mediator w2 mp) = expressions (mediator w mp)).
Proof.
  intros He. unfold invalidate. rewrite He. eexists. split; [done |].
  destruct (foldl_invalidateAt (myListeners e) (mediatorsForParams e) w)
    as (Hl & Hm & _). cbv zeta in *.
  split; [done |]. intros mp. by destruct (Hm mp) as (-> & -> & _).
Qed.

(** C3, amended. [addListener] puts the listener into the registry of the
    owning mediator of every bound variable (at the end, unless it is there
    already), records it among the listeners of the expression, and leaves
    every other registry and every value alone. [invalidate] removes from
    the registry of the owning mediator of every bound variable the
    listeners recorded for the expression, whoever else registered them
    there, and leaves every other entry, every other registry, the values
    and the expressions alone. *)
Theorem expression_listeners (w : World) (m : nat) (expr : string)
        (e : ExprRefFunction) (l : listener) :
  expressions (mediator w m) !! expr = Some e →
  (∃ w1,
     addListener m expr l w = Ok w1
     ∧ (∀ mp param,
          paramListeners (mediator w1 mp) !! param
          = if decide ((param, mp) ∈ mediatorsForParams e)
            then Some (set_add l (listenersOf w mp param))
            else paramListeners (mediator w mp) !! param)
     ∧ expressions (mediator w1 m) !! expr
       = Some {| fn := fn e; mediatorsForParams := mediatorsForParams e;
                 myListeners := match mediatorsForParams e with
                                | [] => myListeners e
                                | _ :: _ => set_add l (myListeners e)
                                end |}
     ∧ (∀ mp, paramValues (mediator w1 mp) = paramValues (mediator w mp)))
  ∧ (∃ w2,
       invalidate m expr w = Ok w2
       ∧ (∀ mp param,
            paramListeners (mediator w2 mp) !! param
            = if decide ((param, mp) ∈ mediatorsForParams e)
              then filter (λ l', l' ∉ myListeners e)
                     <$> paramListeners (mediator w mp) !! param
              else paramListeners (mediator w mp) !! param)
       ∧ (∀ mp, paramValues (mediator w2 mp) = paramValues (mediator w mp)
                ∧ expressions (mediator w2 mp) = expressions (mediator w mp))).
Proof.
  intros He. split.
  - destruct (addListener_returns w m expr e l He) as (w1 & Hrun & Hl & Hx & Hv).
    exists w1. split; [done |]. split; [done |]. split; [done |].
    intros mp. apply Hv.
  - by apply invalidate_returns.
Qed.

Import Examples.

Lemma expression_listeners_witness :
  ∃ w1, addListener 0 "a" (Callback 7) shared = Ok w1
        ∧ paramListeners (mediator w1 0) !! "a" = Some [Callback 7].
Proof.
  destruct (expression_listeners shared 0 "a"
              {| fn := {| globals := ["a"]; code := "a"; run := λ g _, g "a" |};
                 mediatorsForParams := [("a", 0)]; myListeners := [] |}
              (Callback 7) eq_refl) as [(w1 & Hrun & Hl & _) _].
  exists w1. split; [exact Hrun |]. rewrite Hl. reflexivity.
Defined.

(** The expressions [a] and [a + 1] of one mediator are both bound to its
    parameter [a]. A callback is subscribed through [a + 1], then through
    [a]: the second subscription adds no entry. Invalidating [a] removes
    the entry all the same, and the subscriber of [a + 1], still recorded
    there, is no longer notified. *)
Lemma expression_listeners_counterexample :
  ∃ w1 w2 w3 other,
    addListener 0 "a + 1" (Callback 7) shared = Ok w1
    ∧ listenersOf w1 0 "a" = [Callback 7]
    ∧ addListener 0 "a" (Callback 7) w1 = Ok w2
    ∧ listenersOf w2 0 "a" = listenersOf w1 0 "a"
    ∧ invalidate 0 "a" w2 = Ok w3
    ∧ expressions (mediator w3 0) !! "a + 1" = Some other
    ∧ Callback 7 ∈ myListeners other
    ∧ listenersOf w3 0 "a" = []
    ∧ setValue 1 0 "a" (VNum (int 2)) w3 = Ok (storeValue 0 "a" (VNum (int 2)) w3, []).
Proof.
  do 4 eexists. split; [by vm_compute |]. split; [by vm_compute |].
  split; [by vm_compute |]. split; [by vm_compute |].
  split; [by vm_compute |]. split; [by vm_compute |].
  split; [apply (bool_decide_unpack _); by vm_compute |].
  split; by vm_compute.
Qed.

(** The expression cached under a source is one object for all its users:
    two consumers subscribe through it, one of them invalidates it, and
    both listeners are gone. *)
Example invalidate_shared_expression :
  ∃ w1 w2 w3,
    addListener 0 "a" (Callback 1) shared = Ok w1
    ∧ addListener 0 "a" (Callback 2) w1 = Ok w2
    ∧ listenersOf w2 0 "a" = [Callback 1; Callback 2]
    ∧ invalidate 0 "a" w2 = Ok w3
    ∧ listenersOf w3 0 "a" = [].
Proof.
  do 3 eexists. split; [by vm_compute |]. split; [by vm_compute |].
  split; [by vm_compute |]. split; by vm_compute.
Qed.

End ExpressionFacts.

(* ===================================================================== *)
(** * Properties of the batched property changes *)
(* ===================================================================== *)

Module TickFacts.
Import ParamMediator.

Lemma batch_setBatch (g g' : nat) (b : Batch) (w : World) :
  batch (setBatch g b w) g' = if decide (g = g') then b else batch w g'.
Proof.
  unfold batch, setBatch. simpl. rewrite lookup_insert. by case_decide.
Qed.

Lemma batch_setMicrotasks (q : list microtask) (g : nat) (w : World) :
  batch (setMicrotasks q w) g = batch w g.
Proof. done. Qed.

(** One change: the property is appended, and the flush is queued when it
    is the first pending one. *)
Lemma batchPropertyChange_step (g : nat) (prop : string) (w : World) :
  let w1 := batchPropertyChange g prop w in
  alteredProps (batch w1 g) = alteredProps (batch w g) ++ [prop]
  ∧ batchListener (batch w1 g) = batchListener (batch w g)
  ∧ microtasks w1
    = (if decide (alteredProps (batch w g) = []) then microtasks w ++ [Flush g]
       else microtasks w)
  ∧ delivered w1 = delivered w.
Proof.
  unfold batchPropertyChange. cbv zeta. rewrite length_app.
  destruct (alteredProps (batch w g)) as [| p ps] eqn:E.
  - rewrite decide_True by done. rewrite decide_True by done.
    rewrite batch_setMicrotasks, batch_setBatch, decide_True by done.
    by simpl.
  - rewrite decide_False by (simpl; lia). rewrite decide_False by done.
    rewrite batch_setBatch, decide_True by done. by simpl.
Qed.

Lemma later_changes (g : nat) (later : list string) (w : World) :
  alteredProps (batch w g) ≠ [] →
  let w1 := foldl (λ w k, batchPropertyChange g k w) w later in
  alteredProps (batch w1 g) = alteredProps (batch w g) ++ later
  ∧ batchListener (batch w1 g) = batchListener (batch w g)
  ∧ microtasks w1 = microtasks w
  ∧ delivered w1 = delivered w.
Proof.
  revert w. induction later as [| k later IH]; intros w Hne; simpl.
  - by rewrite app_nil_r.
  - destruct (batchPropertyChange_step g k w) as (Ha & Hl & Hq & Hd).
    cbv zeta in *. rewrite decide_False in Hq by done.
    destruct (IH (batchPropertyChange g k w)) as (Ha' & Hl' & Hq' & Hd').
    { rewrite Ha. by destruct (alteredProps (batch w g)). }
    cbv zeta in *. rewrite Ha', Hl', Hq', Hd', Ha, Hl, Hq, Hd.
    by rewrite <- app_assoc.
Qed.

(** C5, amended. With nothing pending for a set of activated properties,
    the first change of a tick queues one flush, the later changes of the
    tick are appended to the pending list and queue nothing, and the flush
    calls the listener once, with the changed properties in the order of
    the changes, one entry per change, and empties the pending list. *)
Theorem batched_changes (w : World) (g cb : nat) (first : string)
        (later : list string) :
  alteredProps (batch w g) = [] →
  batchListener (batch w g) = Some cb →
  let w1 := batchPropertyChange g first w in
  let w2 := foldl (λ w k, batchPropertyChange g k w) w1 later in
  microtasks w1 = microtasks w ++ [Flush g]
  ∧ microtasks w2 = microtasks w1
  ∧ alteredProps (batch w2 g) = first :: later
  ∧ delivered w2 = delivered w
  ∧ (microtasks w = [] →
     ∀ fuel, 2 ≤ fuel →
       ∃ w3, runMicrotasks fuel w2 = Ok w3
             ∧ delivered w3 = delivered w ++ [(cb, first :: later)]
             ∧ alteredProps (batch w3 g) = []
             ∧ microtasks w3 = []).
Proof.
  intros Hempty Hcb.
  destruct (batchPropertyChange_step g first w) as (Ha & Hl & Hq & Hd).
  cbv zeta in *. rewrite Hempty in Ha, Hq. simpl in Ha.
  rewrite decide_True in Hq by done.
  destruct (later_changes g later (batchPropertyChange g first w))
    as (Ha' & Hl' & Hq' & Hd'); [by rewrite Ha |].
  cbv zeta in *. rewrite Ha in Ha'. simpl in Ha'.
  split; [done |]. split; [done |]. split; [done |].
  split; [by rewrite Hd', Hd |].
  intros Hq0 fuel Hfuel. destruct fuel as [| [| fuel]]; try lia.
  rewrite Hq0 in Hq. simpl in Hq.
  cbn [runMicrotasks]. rewrite Hq', Hq. cbn [runMicrotask].
  assert (Hb : ∀ q, batch (setMicrotasks q
                 (foldl (λ w k, batchPropertyChange g k w)
                    (batchPropertyChange g first w) later)) g
               = batch (foldl (λ w k, batchPropertyChange g k w)
                    (batchPropertyChange g first w) later) g) by done.
  rewrite Hb, Hl', Hl, Hcb, Ha'. simpl.
  eexists. split; [done |]. simpl. rewrite Hd', Hd.
  split; [done |]. split; [| done].
  unfold batch. simpl. by rewrite lookup_insert_eq.
Qed.

Import Examples.

Lemma batched_changes_witness :
  microtasks (batchPropertyChange 0 "sum" observed) = [Flush 0]
  ∧ ∃ w3, runMicrotasks 2
            (foldl (λ w k, batchPropertyChange 0 k w)
               (batchPropertyChange 0 "sum" observed) ["sum"])
          = Ok w3
          ∧ delivered w3 = [(7, ["sum"; "sum"])].
Proof.
  destruct (batched_changes observed 0 7 "sum" ["sum"] eq_refl eq_refl)
    as (Hq & _ & _ & _ & Hflush).
  split; [exact Hq |].
  destruct (Hflush eq_refl 2 (le_n 2)) as (w3 & Hrun & Hd & _).
  exists w3. split; [exact Hrun | exact Hd].
Defined.

(** The property [sum] follows the expression [a + b]. Both parameters are
    set in one tick: the listener is called once, and the list it gets
    names [sum] twice. *)
Lemma batched_changes_counterexample :
  ∃ w, observedTick = Ok w
       ∧ delivered w = [(7, ["sum"; "sum"])]
       ∧ ¬ NoDup ["sum"; "sum"].
Proof.
  eexists. split; [by vm_compute |]. split; [by vm_compute |].
  intros H. apply NoDup_cons in H as [H _]. apply H. by left.
Qed.

End TickFacts.

(* ===================================================================== *)
(** * Properties of the parameter mediator: registration *)
(* ===================================================================== *)

Module RegistrationFacts.
Import ParamMediator LookupFacts SetterFacts ExpressionFacts.

Lemma strict_eq_undefined (v : value) :
  strict_eq v VUndefined = false ↔ v ≠ VUndefined.
Proof. destruct v; simpl; split; try done; intros H; by destruct H. Qed.

Lemma parentChain_head (w : World) (m : nat) (chain : list nat) :
  parentChain w m chain → m ∈ chain.
Proof. destruct 1; by left. Qed.

Lemma nearestOwner_None (w : World) (paramName : string) (chain : list nat)
      (a : nat) :
  nearestOwner w paramName chain = None → a ∈ chain →
  paramValues (mediator w a) !! paramName = None.
Proof.
  intros Hnone Ha. apply list_elem_of_In in Ha.
  pose proof (List.find_none _ _ Hnone a Ha) as H.
  apply bool_decide_eq_false in H. by apply eq_None_not_Some.
Qed.

Lemma cascadeBounded_ext rank (w w' : World) :
  (∀ m, paramListeners (mediator w' m) = paramListeners (mediator w m)
        ∧ expressions (mediator w' m) = expressions (mediator w m)) →
  cascadeBounded rank w → cascadeBounded rank w'.
Proof.
  intros Hs Hb m paramName m' name' expr Hin.
  unfold listenersOf in Hin. destruct (Hs m) as [Hl _]. rewrite Hl in Hin.
  destruct (Hb _ _ _ _ _ Hin) as [Hr He]. split; [done |].
  by destruct (Hs m') as [_ ->].
Qed.

Section Compiler.
Variable createFunction : string → option CompiledExpr.

Local Abbreviation createExpression := (createExpression createFunction).

(** The loop over the free variables stops at the first one that no
    mediator of the chain owns. *)
Lemma bindGlobals_unresolved (w : World) (m : nat) (expr paramName : string)
      (chain : list nat) (fuel : nat) (params : list string)
      (acc : list (string * nat)) :
  parentChain w m chain → length chain ≤ fuel →
  nearestOwner w paramName chain = None →
  paramName ∈ params →
  ∃ param, bindGlobals fuel m expr params acc w
           = Throw (UnknownVariable param expr).
Proof.
  intros Hchain Hfuel Hnone. revert acc.
  induction params as [| p params IH]; intros acc Hin;
    [by apply elem_of_nil in Hin |].
  simpl. rewrite (findMediatorForParam_chain w m p chain fuel Hchain Hfuel).
  simpl. destruct (nearestOwner w p chain) as [o |] eqn:Ho; [| by eexists].
  apply IH. apply elem_of_cons in Hin as [-> | Hin]; [congruence | done].
Qed.

(** A setter call that returns leaves the structure alone, whatever the
    dependencies. *)
Lemma notify_sameStructure
      (setter : nat → string → value → World → result (World * list call))
      (listeners : list listener) :
  (∀ m n v w w' cs, setter m n v w = Ok (w', cs) → sameStructure w w') →
  ∀ w w' cs, notify setter listeners w = Ok (w', cs) → sameStructure w w'.
Proof.
  intros Hsetter. induction listeners as [| l rest IH]; intros w w' cs; simpl.
  - intros [= <- <-]. apply sameStructure_refl.
  - destruct (invokeListener setter l w) as [[w1 c] | |] eqn:E; simpl;
      try done.
    destruct (notify setter rest w1) as [[w2 cs'] | |] eqn:E'; simpl;
      try done.
    intros [= <- <-]. apply (sameStructure_trans w w1); [| by eapply IH].
    destruct l as [m' name' expr | g key | id]; simpl in E.
    + destruct (expressions (mediator w m') !! expr) as [e |]; [| done].
      destruct (setter m' name' (callExpr e VNull w) w) as [[w0 cs0] | |] eqn:E0;
        simpl in E; try done.
      injection E as <- <-. by eapply Hsetter.
    + injection E as <- <-. intros m. by rewrite batchPropertyChange_mediator.
    + injection E as <- <-. apply sameStructure_refl.
Qed.

Lemma setValue_sameStructure (fuel : nat) (m : nat) (paramName : string)
      (v : value) (w w' : World) (cs : list call) :
  setValue fuel m paramName v w = Ok (w', cs) → sameStructure w w'.
Proof.
  revert m paramName v w w' cs.
  induction fuel as [| fuel IH]; intros m paramName v w w' cs; [done |].
  rewrite setValue_unfold. destruct (strict_eq _ _).
  - intros [= <- <-]. apply sameStructure_refl.
  - intros H. apply (sameStructure_trans w (storeValue m paramName v w)).
    + apply storeValue_sameStructure.
    + by eapply (notify_sameStructure (setValue fuel)).
Qed.

(** For every parameter with an expression: the setter [registerParam]
    returns does nothing, the listener that re-applies the setter is
    registered for every variable of the expression, and the setter that
    [getSetter] hands out is the one that stores. *)
Lemma registerParam_expr_setters (fuel : nat) (m : nat) (name expr : string)
      (w w' : World) (setter : option ParameterSetter) (cs : list call) :
  registerParam createFunction fuel m
    {| param_name := name; param_value := None; param_expr := Some expr |} w
  = Ok (w', setter, cs) →
  setter = Some NopSetter
  ∧ (∀ v fuel', applySetter fuel' NopSetter v w' = Ok (w', []))
  ∧ getSetter m name w' = Ok (RealSetter m name)
  ∧ ∃ e, expressions (mediator w' m) !! expr = Some e
         ∧ ∀ param mp, (param, mp) ∈ mediatorsForParams e →
             Reapply m name expr ∈ listenersOf w' mp param.
Proof.
  unfold registerParam. simpl.
  destruct (createExpression fuel m expr w) as [[w1 e1] | |] eqn:E1; simpl;
    try done.
  unfold allocateSetter. case_decide as Hfresh; [done |].
  destruct (setValue fuel m name (callExpr e1 VNull w1) w1)
    as [[w2 cs2] | |] eqn:E2; simpl; try done.
  set (w2' := setMediator m _ w2).
  destruct (expressions (mediator w2' m) !! expr) as [e |] eqn:He;
    [| by unfold addListener; rewrite He].
  destruct (addListener_returns w2' m expr e (Reapply m name expr) He)
    as (w3 & Hrun & Hl & Hexpr & Hkeep).
  rewrite Hrun. simpl. intros [= <- <- <-].
  assert (Hcfg : ∀ m', paramListeners (mediator (recordConfig m
                         {| param_name := name; param_value := None;
                            param_expr := Some expr |} w3) m')
                       = paramListeners (mediator w3 m')
                       ∧ expressions (mediator (recordConfig m
                           {| param_name := name; param_value := None;
                              param_expr := Some expr |} w3) m')
                         = expressions (mediator w3 m')
                       ∧ allocatedSetters (mediator (recordConfig m
                           {| param_name := name; param_value := None;
                              param_expr := Some expr |} w3) m')
                         = allocatedSetters (mediator w3 m')).
  { intros m'. unfold recordConfig. rewrite mediator_setMediator.
    by case_decide; subst. }
  split; [done |]. split; [done |]. split.
  - unfold getSetter. destruct (Hcfg m) as (_ & _ & ->).
    rewrite decide_True; [done |].
    destruct (Hkeep m) as (_ & ->). unfold w2'.
    rewrite mediator_setMediator_eq. simpl.
    apply elem_of_union. left. by apply elem_of_singleton.
  - eexists. split.
    + destruct (Hcfg m) as (_ & -> & _). exact Hexpr.
    + simpl. intros param mp Hin. unfold listenersOf.
      destruct (Hcfg mp) as (-> & _). rewrite Hl, decide_True by done.
      simpl. apply set_add_elem.
Qed.

(** C10. For a name without a setter in the mediator and without an owner
    on its parent chain: [allocateSetter(name, undefined)] returns the
    setter and calls no listener, the value stores stay as they were, with
    no entry for the name; [findValue] of the name is still [undefined],
    and compiling a new expression that refers to the name fails with an
    unknown-variable error. Once the setter is called with a value other
    than [undefined], the mediator owns the name: the lookup finds it there
    with that value, and an expression over the name compiles, bound to
    the mediator. *)
Theorem allocateSetter_undefined rank (w : World) (m : nat)
        (paramName : string) (chain : list nat) (fuel : nat) :
  parentChain w m chain →
  length chain ≤ fuel →
  paramName ∉ allocatedSetters (mediator w m) →
  nearestOwner w paramName chain = None →
  cascadeBounded rank w →
  ∃ w1,
    allocateSetter fuel m paramName VUndefined w
    = Ok (w1, RealSetter m paramName, [])
    ∧ (∀ m', paramValues (mediator w1 m') = paramValues (mediator w m'))
    ∧ paramValues (mediator w1 m) !! paramName = None
    ∧ findMediatorForParam fuel m paramName w1 = Ok None
    ∧ findValue fuel m paramName w1 = Ok VUndefined
    ∧ (∀ expr f,
         expressions (mediator w1 m) !! expr = None →
         createFunction expr = Some f →
         paramName ∈ globals f →
         ∃ param, createExpression fuel m expr w1
                  = Throw (UnknownVariable param expr))
    ∧ (∀ v fuel',
         v ≠ VUndefined →
         rank (m, paramName) < fuel' →
         ∃ w2 calls,
           applySetter fuel' (RealSetter m paramName) v w1 = Ok (w2, calls)
           ∧ paramValues (mediator w2 m) !! paramName = Some v
           ∧ findMediatorForParam fuel m paramName w2 = Ok (Some m)
           ∧ findValue fuel m paramName w2 = Ok v
           ∧ (∀ expr f,
                expressions (mediator w2 m) !! expr = None →
                createFunction expr = Some f →
                globals f = [paramName] →
                ∃ w3 e, createExpression fuel m expr w2 = Ok (w3, e)
                        ∧ mediatorsForParams e = [(paramName, m)])).
Proof.
  intros Hchain Hfuel Hfresh Hnone Hb.
  assert (Hlocal : paramValues (mediator w m) !! paramName = None).
  { apply (nearestOwner_None w paramName chain); [done |].
    by apply (parentChain_head w). }
  assert (Hundef : getValue m paramName w = VUndefined).
  { unfold getValue. by rewrite Hlocal. }
  destruct fuel as [| fuel]; [destruct Hchain; simpl in Hfuel; lia |].
  set (w1 := setMediator m
               (setAllocatedSetters ({[paramName]} ∪ allocatedSetters (mediator w m))
                  (mediator w m)) w).
  assert (Hsame : ∀ m', paramValues (mediator w1 m') = paramValues (mediator w m')
                        ∧ paramListeners (mediator w1 m')
                          = paramListeners (mediator w m')
                        ∧ expressions (mediator w1 m') = expressions (mediator w m')
                        ∧ parentFinder (mediator w1 m')
                          = parentFinder (mediator w m')).
  { intros m'. unfold w1. rewrite mediator_setMediator.
    by case_decide; subst. }
  assert (Hchain1 : parentChain w1 m chain).
  { apply (parentChain_ext w); [done |]. intros a _. apply Hsame. }
  assert (Hnone1 : nearestOwner w1 paramName chain = None).
  { rewrite <- Hnone. apply nearestOwner_ext. intros a _. apply Hsame. }
  assert (Hfind1 : findMediatorForParam (S fuel) m paramName w1 = Ok None).
  { by rewrite (findMediatorForParam_chain w1 m paramName chain), Hnone1. }
  exists w1. split.
  { unfold allocateSetter. rewrite decide_False by done.
    rewrite setValue_unfold, Hundef. by simpl. }
  split; [intros m'; apply Hsame |].
  split; [by destruct (Hsame m) as (-> & _) |].
  split; [done |].
  split; [unfold findValue; by rewrite Hfind1 |].
  split.
  { intros expr f Hcache Hf Hin. unfold ParamMediator.createExpression.
    rewrite Hcache, Hf.
    destruct (bindGlobals_unresolved w1 m expr paramName chain (S fuel)
                (globals f) [] Hchain1 Hfuel Hnone1 Hin) as [param ->].
    by exists param. }
  intros v fuel' Hv Hrank. simpl.
  assert (Hb1 : cascadeBounded rank w1).
  { apply (cascadeBounded_ext rank w); [| done].
    intros m'. by destruct (Hsame m') as (_ & -> & -> & _). }
  destruct (setValue_returns rank fuel' m paramName v w1 Hb1 Hrank)
    as (w2 & calls & Hrun & _ & _ & _ & Hstored & _).
  assert (Hne : strict_eq v (getValue m paramName w1) = false).
  { unfold getValue. destruct (Hsame m) as (-> & _). rewrite Hlocal. simpl.
    by apply strict_eq_undefined. }
  specialize (Hstored Hne).
  assert (Hfind2 : findMediatorForParam (S fuel) m paramName w2 = Ok (Some m)).
  { simpl. unfold hasValue. by rewrite Hstored, bool_decide_eq_true_2. }
  exists w2, calls. split; [done |]. split; [done |]. split; [done |].
  split.
  { unfold findValue. rewrite Hfind2. simpl. unfold getValue.
    by rewrite Hstored. }
  intros expr f Hcache Hf Hglobals. unfold ParamMediator.createExpression.
  rewrite Hcache, Hf, Hglobals. cbn [ParamMediator.bindGlobals].
  rewrite Hfind2. simpl. by eexists _, _.
Qed.

End Compiler.

Import Examples.

(** A world without listeners has no cascade. *)
Lemma no_listeners_bounded rank (w : World) :
  map_Forall (λ _ med, paramListeners med = ∅) (mediators w) →
  cascadeBounded rank w.
Proof.
  intros Hall m paramName m' name' expr Hin. exfalso.
  unfold listenersOf, mediator in Hin.
  destruct (mediators w !! m) as [med |] eqn:E; simpl in Hin.
  - rewrite (Hall m med E), lookup_empty in Hin. by apply elem_of_nil in Hin.
  - rewrite lookup_empty in Hin. by apply elem_of_nil in Hin.
Qed.

Lemma family_bounded : cascadeBounded (λ _, 0) family.
Proof.
  apply no_listeners_bounded. apply (bool_decide_unpack _). by vm_compute.
Qed.

Lemma family_chain : parentChain family 1 [1; 0].
Proof. apply chain_step with 0; [done |]. by apply chain_root. Qed.

Lemma allocateSetter_undefined_witness :
  ∃ w1, allocateSetter 2 1 "a" VUndefined family = Ok (w1, RealSetter 1 "a", [])
        ∧ findValue 2 1 "a" w1 = Ok VUndefined
        ∧ ∃ w2 calls, setValue 1 1 "a" (VNum (int 3)) w1 = Ok (w2, calls)
                      ∧ findValue 2 1 "a" w2 = Ok (VNum (int 3)).
Proof.
  destruct (allocateSetter_undefined demoCreateFunction (λ _, 0) family 1 "a"
              [1; 0] 2 family_chain (le_n 2)) as (w1 & Hrun & _ & _ & _ & Hfind & _ & Hset).
  - vm_compute. set_solver.
  - reflexivity.
  - exact family_bounded.
  - exists w1. split; [exact Hrun |]. split; [exact Hfind |].
    destruct (Hset (VNum (int 3)) 1) as (w2 & calls & Hrun2 & _ & _ & Hfind2 & _).
    + discriminate.
    + apply Nat.lt_0_1.
    + exists w2, calls. split; [exact Hrun2 | exact Hfind2].
Defined.

(** C4. On a mediator with [a = 1], [registerParam] of [b] with the
    expression [a + 1] seeds [b] with 2, subscribes the listener that
    re-applies the setter to [a], so that setting [a] to 5 makes [b] 6, and
    returns a setter that does nothing. But [getSetter("b")] returns the
    setter that [allocateSetter] stored, and calling it with 42 changes
    [b] to 42 while the expression still evaluates to 2. *)
Theorem registerParam_expr_getSetter :
  ∃ w1 e w2 w3,
    registerParam demoCreateFunction 2 0 (exprParam "b" "a + 1") single
    = Ok (w1, Some NopSetter, [])
    ∧ expressions (mediator w1 0) !! "a + 1" = Some e
    ∧ getValue 0 "b" w1 = callExpr e VNull single
    ∧ getValue 0 "b" w1 = VNum (int 2)
    ∧ listenersOf w1 0 "a" = [Reapply 0 "b" "a + 1"]
    ∧ setValue 2 0 "a" (VNum (int 5)) w1
      = Ok (w2, [Call (Reapply 0 "b" "a + 1") []])
    ∧ getValue 0 "b" w2 = VNum (int 6)
    ∧ applySetter 2 NopSetter (VNum (int 42)) w1 = Ok (w1, [])
    ∧ getSetter 0 "b" w1 = Ok (RealSetter 0 "b")
    ∧ applySetter 2 (RealSetter 0 "b") (VNum (int 42)) w1 = Ok (w3, [])
    ∧ getValue 0 "b" w3 = VNum (int 42)
    ∧ callExpr e VNull w3 = VNum (int 2).
Proof.
  do 4 eexists. split; [by vm_compute |]. split; [by vm_compute |].
  split; [by vm_compute |]. split; [by vm_compute |].
  split; [by vm_compute |]. split; [by vm_compute |].
  split; [by vm_compute |]. split; [by vm_compute |].
  split; [by vm_compute |]. split; [by vm_compute |].
  split; by vm_compute.
Qed.

End RegistrationFacts.
(* ===================================================================== *)
(** * Properties of the parameter mediator: what calls leave alone *)
(* ===================================================================== *)

Module MediatorFacts.
Import ParamMediator LookupFacts SetterFacts ExpressionFacts TickFacts
       RegistrationFacts.

(** What a setter call leaves alone besides the structure: the recorded
    configurations, the calls delivered, the counters, the listener of
    every batch; the pending microtasks and the pending properties only
    grow at their end, and an owned name stays owned. *)
Definition setterFrame (w w' : World) : Prop :=
  sameStructure w w'
  ∧ (∀ m, paramConfigs (mediator w' m) = paramConfigs (mediator w m))
  ∧ delivered w' = delivered w
  ∧ nextMediator w' = nextMediator w
  ∧ nextBatch w' = nextBatch w
  ∧ (∃ q, microtasks w' = microtasks w ++ q)
  ∧ (∀ g, batchListener (batch w' g) = batchListener (batch w g)
          ∧ ∃ ps, alteredProps (batch w' g) = alteredProps (batch w g) ++ ps)
  ∧ (∀ m n, hasValue w n m = true → hasValue w' n m = true).

(** One call of the interface that allocates or applies a setter. *)
Inductive mediatorStep (w w' : World) : Prop :=
| step_setter fuel m paramName v cs :
    setValue fuel m paramName v w = Ok (w', cs) → mediatorStep w w'
| step_allocate fuel m paramName v s cs :
    allocateSetter fuel m paramName v w = Ok (w', s, cs) → mediatorStep w w'.

Lemma setterFrame_refl (w : World) : setterFrame w w.
Proof.
  split; [apply sameStructure_refl |]. do 4 (split; [done |]).
  split; [exists []; by rewrite app_nil_r |]. split; [| done].
  intros g. split; [done |]. exists []. by rewrite app_nil_r.
Qed.

Lemma setterFrame_trans (w1 w2 w3 : World) :
  setterFrame w1 w2 → setterFrame w2 w3 → setterFrame w1 w3.
Proof.
  intros (Hs & Hc & Hd & Hm & Hb & [q Hq] & Hg & Hv)
         (Hs' & Hc' & Hd' & Hm' & Hb' & [q' Hq'] & Hg' & Hv').
  split; [by apply (sameStructure_trans w1 w2) |].
  split; [intros m; by rewrite Hc', Hc |].
  split; [congruence |]. split; [congruence |]. split; [congruence |].
  split; [exists (q ++ q'); by rewrite Hq', Hq, app_assoc |].
  split; [| auto].
  intros g. destruct (Hg g) as [Hl [ps Hps]]. destruct (Hg' g) as [Hl' [ps' Hps']].
  split; [congruence |]. exists (ps ++ ps'). by rewrite Hps', Hps, app_assoc.
Qed.

Lemma storeValue_setterFrame (m : nat) (paramName : string) (v : value)
      (w : World) :
  setterFrame w (storeValue m paramName v w).
Proof.
  split; [apply storeValue_sameStructure |].
  split.
  { intros m'. unfold storeValue. rewrite mediator_setMediator.
    by case_decide; subst. }
  do 3 (split; [done |]). split; [exists []; by rewrite app_nil_r |].
  split.
  { intros g. split; [done |]. exists []. by rewrite app_nil_r. }
  intros m' n Hv. apply bool_decide_eq_true. apply bool_decide_eq_true in Hv.
  rewrite storeValue_lookup. by case_decide.
Qed.

Lemma batchPropertyChange_other (g g' : nat) (key : string) (w : World) :
  g ≠ g' → batch (batchPropertyChange g key w) g' = batch w g'.
Proof.
  intros Hne. unfold batchPropertyChange. cbv zeta.
  case_decide; rewrite ?batch_setMicrotasks, batch_setBatch;
    by rewrite decide_False.
Qed.

Lemma batchPropertyChange_counters (g : nat) (key : string) (w : World) :
  nextMediator (batchPropertyChange g key w) = nextMediator w
  ∧ nextBatch (batchPropertyChange g key w) = nextBatch w.
Proof. unfold batchPropertyChange. cbv zeta. by case_decide. Qed.

Lemma batchPropertyChange_setterFrame (g : nat) (key : string) (w : World) :
  setterFrame w (batchPropertyChange g key w).
Proof.
  assert (Hm : ∀ m, mediator (batchPropertyChange g key w) m = mediator w m)
    by (intros m; apply batchPropertyChange_mediator).
  destruct (batchPropertyChange_step g key w) as (Ha & Hl & Hq & Hd).
  destruct (batchPropertyChange_counters g key w) as [Hnm Hnb].
  cbv zeta in *.
  split; [intros m; by rewrite Hm |].
  split; [intros m; by rewrite Hm |].
  do 3 (split; [done |]).
  split.
  { rewrite Hq. case_decide; [by eexists | exists []; by rewrite app_nil_r]. }
  split.
  - intros g'. destruct (decide (g = g')) as [<- | Hne].
    + split; [done |]. by eexists.
    + rewrite batchPropertyChange_other by done. split; [done |].
      exists []. by rewrite app_nil_r.
  - intros m n. unfold hasValue. by rewrite Hm.
Qed.

Lemma notify_setterFrame
      (setter : nat → string → value → World → result (World * list call))
      (listeners : list listener) :
  (∀ m n v w w' cs, setter m n v w = Ok (w', cs) → setterFrame w w') →
  ∀ w w' cs, notify setter listeners w = Ok (w', cs) → setterFrame w w'.
Proof.
  intros Hsetter. induction listeners as [| l rest IH]; intros w w' cs; simpl.
  - intros [= <- <-]. apply setterFrame_refl.
  - destruct (invokeListener setter l w) as [[w1 c] | |] eqn:E; simpl;
      try done.
    destruct (notify setter rest w1) as [[w2 cs'] | |] eqn:E'; simpl;
      try done.
    intros [= <- <-]. apply (setterFrame_trans w w1); [| by eapply IH].
    destruct l as [m' name' expr | g key | id]; simpl in E.
    + destruct (expressions (mediator w m') !! expr) as [e |]; [| done].
      destruct (setter m' name' (callExpr e VNull w) w) as [[w0 cs0] | |] eqn:E0;
        simpl in E; try done.
      injection E as <- <-. by eapply Hsetter.
    + injection E as <- <-. apply batchPropertyChange_setterFrame.
    + injection E as <- <-. apply setterFrame_refl.
Qed.

Lemma setValue_setterFrame (fuel : nat) (m : nat) (paramName : string)
      (v : value) (w w' : World) (cs : list call) :
  setValue fuel m paramName v w = Ok (w', cs) → setterFrame w w'.
Proof.
  revert m paramName v w w' cs.
  induction fuel as [| fuel IH]; intros m paramName v w w' cs; [done |].
  rewrite setValue_unfold. destruct (strict_eq _ _).
  - intros [= <- <-]. apply setterFrame_refl.
  - intros H. apply (setterFrame_trans w (storeValue m paramName v w)).
    + apply storeValue_setterFrame.
    + by eapply (notify_setterFrame (setValue fuel)).
Qed.

(** Setter calls and allocations keep the expression caches, the
    registries and the parent links; the allocated names only grow. *)
Lemma allocateSetter_returns (fuel : nat) (m : nat) (paramName : string)
      (v : value) (w w1 : World) (s : ParameterSetter) (cs : list call) :
  allocateSetter fuel m paramName v w = Ok (w1, s, cs) →
  (paramName ∉ allocatedSetters (mediator w m))
  ∧ s = RealSetter m paramName
  ∧ ∃ w0, setValue fuel m paramName v w = Ok (w0, cs)
          ∧ w1 = setMediator m
                   (setAllocatedSetters
                      ({[paramName]} ∪ allocatedSetters (mediator w0 m))
                      (mediator w0 m)) w0.
Proof.
  unfold allocateSetter. case_decide as Hin; [done |].
  destruct (setValue fuel m paramName v w) as [[w0 cs0] | |] eqn:E; simpl;
    try done.
  intros [= <- <- <-]. split; [done |]. split; [done |]. by exists w0.
Qed.

Lemma mediatorStep_kept (w w' : World) :
  rtc mediatorStep w w' →
  ∀ m, expressions (mediator w' m) = expressions (mediator w m)
       ∧ paramListeners (mediator w' m) = paramListeners (mediator w m)
       ∧ parentFinder (mediator w' m) = parentFinder (mediator w m)
       ∧ allocatedSetters (mediator w m) ⊆ allocatedSetters (mediator w' m).
Proof.
  induction 1 as [w | w w1 w2 Hstep _ IH]; [done |].
  intros m. destruct (IH m) as (He & Hl & Hp & Ha).
  assert (H1 : expressions (mediator w1 m) = expressions (mediator w m)
               ∧ paramListeners (mediator w1 m) = paramListeners (mediator w m)
               ∧ parentFinder (mediator w1 m) = parentFinder (mediator w m)
               ∧ allocatedSetters (mediator w m)
                 ⊆ allocatedSetters (mediator w1 m)).
  { destruct Hstep as [fuel m0 n v cs Hrun | fuel m0 n v s cs Hrun].
    - destruct (setValue_sameStructure _ _ _ _ _ _ _ Hrun m)
        as (-> & -> & -> & ->). done.
    - destruct (allocateSetter_returns _ _ _ _ _ _ _ _ Hrun)
        as (_ & _ & w0 & Hset & ->).
      destruct (setValue_sameStructure _ _ _ _ _ _ _ Hset m)
        as (<- & <- & <- & <-).
      rewrite mediator_setMediator. case_decide; subst; simpl; [| done].
      repeat split; try done. set_solver. }
  destruct H1 as (He1 & Hl1 & Hp1 & Ha1).
  rewrite He, Hl, Hp. repeat split; try done. set_solver.
Qed.

(** A setter call that returns changes values, and nothing else but the
    pending batched changes: no listener is added or removed, no
    expression compiled or dropped, no setter allocated, no configuration
    recorded, nothing delivered to a listener of activated properties; no
    owned name loses its value, and pending microtasks and pending
    properties are only appended to. *)
Theorem setter_frame (fuel : nat) (m : nat) (paramName : string) (v : value)
        (w w' : World) (cs : list call) :
  setValue fuel m paramName v w = Ok (w', cs) → setterFrame w w'.
Proof. apply setValue_setterFrame. Qed.

Lemma setter_frame_witness :
  ∃ w' cs, setValue 2 0 "a" (VNum (Examples.int 5)) Examples.observed
           = Ok (w', cs)
           ∧ setterFrame Examples.observed w'.
Proof.
  eexists _, _. split; [vm_compute; reflexivity |].
  apply (setter_frame 2 0 "a" (VNum (Examples.int 5)) Examples.observed _
           [Call (BatchChange 0 "sum") []]).
  vm_compute. reflexivity.
Defined.

(** A name gets one setter. Before [allocateSetter] returns for a name,
    [getSetter] of the name throws; afterwards, and after any further
    setter calls and allocations, [getSetter] returns the setter that
    [allocateSetter] returned, and [allocateSetter] of the name throws. *)
Theorem allocateSetter_once (fuel : nat) (m : nat) (paramName : string)
        (v : value) (w w1 : World) (s : ParameterSetter) (cs : list call) :
  allocateSetter fuel m paramName v w = Ok (w1, s, cs) →
  getSetter m paramName w = Throw (SetterNotFound paramName)
  ∧ ∀ w2, rtc mediatorStep w1 w2 →
      getSetter m paramName w2 = Ok s
      ∧ ∀ fuel' v', allocateSetter fuel' m paramName v' w2
                    = Throw (SetterAlreadyAllocated paramName).
Proof.
  intros Hrun.
  destruct (allocateSetter_returns _ _ _ _ _ _ _ _ Hrun)
    as (Hfresh & -> & w0 & Hset & ->).
  split; [unfold getSetter; by rewrite decide_False |].
  intros w2 Hsteps. destruct (mediatorStep_kept _ _ Hsteps m) as (_ & _ & _ & Ha).
  rewrite mediator_setMediator_eq in Ha. simpl in Ha.
  assert (Hin : paramName ∈ allocatedSetters (mediator w2 m)) by set_solver.
  split; [unfold getSetter; by rewrite decide_True |].
  intros fuel' v'. unfold allocateSetter. by rewrite decide_True.
Qed.

Lemma allocateSetter_once_witness :
  ∃ w1 w2 cs,
    allocateSetter 2 1 "a" (VNum (Examples.int 1)) Examples.family
    = Ok (w1, RealSetter 1 "a", [])
    ∧ setValue 2 1 "a" (VNum (Examples.int 2)) w1 = Ok (w2, cs)
    ∧ getSetter 1 "a" Examples.family = Throw (SetterNotFound "a")
    ∧ getSetter 1 "a" w2 = Ok (RealSetter 1 "a")
    ∧ allocateSetter 2 1 "a" VUndefined w2
      = Throw (SetterAlreadyAllocated "a").
Proof.
  eexists _, _, _. split; [vm_compute; reflexivity |].
  split; [vm_compute; reflexivity |].
  match goal with
  | |- _ ∧ getSetter 1 "a" ?w2 = _ ∧ _ =>
      destruct (allocateSetter_once 2 1 "a" (VNum (Examples.int 1))
                  Examples.family _ _ _ eq_refl) as [Hbefore Hafter];
      destruct (Hafter w2) as [Hget Hagain]
  end.
  - eapply rtc_l; [| apply rtc_refl].
    apply (step_setter _ _ 2 1 "a" (VNum (Examples.int 2)) []).
    vm_compute. reflexivity.
  - split; [exact Hbefore |]. split; [exact Hget |]. apply Hagain.
Defined.

Section Compiler.
Variable createFunction : string → option CompiledExpr.

Local Abbreviation createExpression := (createExpression createFunction).
Local Abbreviation registerParam := (registerParam createFunction).

Lemma recordConfig_mediator (m m' : nat) (param : VariableParameter)
      (w : World) :
  paramValues (mediator (recordConfig m param w) m') = paramValues (mediator w m')
  ∧ paramListeners (mediator (recordConfig m param w) m')
    = paramListeners (mediator w m')
  ∧ allocatedSetters (mediator (recordConfig m param w) m')
    = allocatedSetters (mediator w m')
  ∧ expressions (mediator (recordConfig m param w) m')
    = expressions (mediator w m')
  ∧ parentFinder (mediator (recordConfig m param w) m')
    = parentFinder (mediator w m')
  ∧ paramConfigs (mediator (recordConfig m param w) m')
    = if decide (m = m')
      then <[param_name param := param]> (paramConfigs (mediator w m))
      else paramConfigs (mediator w m').
Proof.
  unfold recordConfig. rewrite mediator_setMediator.
  by case_decide; subst.
Qed.

(** Registering a parameter with a value under a name that is new to the
    mediator (no setter, no value, no listener): the call returns the
    setter that stores, calls no listener, and afterwards the mediator
    reads the value under the name, owns the name unless the value is
    [undefined], has the parameter in its configurations and hands out
    the same setter through [getSetter]; the values of the other names
    and of the other mediators are as before. Registering the name again
    throws. *)
Theorem registerParam_value (fuel : nat) (m : nat) (param : VariableParameter)
        (v : value) (w : World) :
  param_value param = Some v → param_expr param = None →
  (param_name param ∉ allocatedSetters (mediator w m)) →
  paramValues (mediator w m) !! param_name param = None →
  listenersOf w m (param_name param) = [] →
  ∃ w1,
    registerParam (S fuel) m param w
    = Ok (w1, Some (RealSetter m (param_name param)), [])
    ∧ getValue m (param_name param) w1 = v
    ∧ (hasValue w1 (param_name param) m = true ↔ v ≠ VUndefined)
    ∧ paramConfigs (mediator w1 m) !! param_name param = Some param
    ∧ getSetter m (param_name param) w1 = Ok (RealSetter m (param_name param))
    ∧ (∀ m' n, (m', n) ≠ (m, param_name param) →
         paramValues (mediator w1 m') !! n = paramValues (mediator w m') !! n)
    ∧ ∀ fuel' param',
        param_name param' = param_name param → param_expr param' = None →
        is_Some (param_value param') →
        registerParam fuel' m param' w1
        = Throw (SetterAlreadyAllocated (param_name param)).
Proof.
  intros Hv He Hfresh Hnone Hls.
  set (name := param_name param) in *.
  assert (Hprev : getValue m name w = VUndefined)
    by (unfold getValue; by rewrite Hnone).
  assert (Hset : ∃ w0, setValue (S fuel) m name v w = Ok (w0, [])
            ∧ (∀ m' n, paramValues (mediator w0 m') !! n
                       = if strict_eq v VUndefined
                         then paramValues (mediator w m') !! n
                         else if decide ((m', n) = (m, name)) then Some v
                         else paramValues (mediator w m') !! n)
            ∧ ∀ m', allocatedSetters (mediator w0 m')
                    = allocatedSetters (mediator w m')).
  { rewrite setValue_unfold, Hprev, Hls.
    destruct (strict_eq v VUndefined) eqn:Heq.
    - by exists w.
    - eexists. split; [done |]. split.
      + intros m' n. rewrite storeValue_lookup.
        case_decide as H1; case_decide as H2; try done.
        * destruct H2. destruct H1. by subst.
        * injection H2 as -> ->. by destruct H1.
      + intros m'. by destruct (storeValue_sameStructure m name v w m')
          as (_ & _ & -> & _). }
  destruct Hset as (w0 & Hrun & Hvals & Halloc).
  unfold ParamMediator.registerParam, allocateSetter. rewrite Hv, He.
  fold name. rewrite decide_False by done. rewrite Hrun. simpl.
  eexists. split; [done |].
  set (w1 := recordConfig m param _).
  assert (Hpv : ∀ m' n, paramValues (mediator w1 m') !! n
                        = if strict_eq v VUndefined
                          then paramValues (mediator w m') !! n
                          else if decide ((m', n) = (m, name)) then Some v
                          else paramValues (mediator w m') !! n).
  { intros m' n. unfold w1.
    destruct (recordConfig_mediator m m' param
                (setMediator m
                   (setAllocatedSetters
                      ({[name]} ∪ allocatedSetters (mediator w0 m))
                      (mediator w0 m)) w0)) as (-> & _).
    rewrite mediator_setMediator. rewrite <- Hvals.
    by case_decide; subst. }
  assert (Hal : name ∈ allocatedSetters (mediator w1 m)).
  { unfold w1.
    destruct (recordConfig_mediator m m param
                (setMediator m
                   (setAllocatedSetters
                      ({[name]} ∪ allocatedSetters (mediator w0 m))
                      (mediator w0 m)) w0)) as (_ & _ & -> & _).
    rewrite mediator_setMediator_eq. simpl. set_solver. }
  split; [| split; [| split; [| split; [| split]]]].
  - unfold getValue. rewrite Hpv.
    destruct (strict_eq v VUndefined) eqn:Heq.
    + rewrite Hnone. simpl. destruct v; simpl in Heq; done.
    + by rewrite decide_True.
  - unfold hasValue. rewrite bool_decide_eq_true, Hpv.
    destruct (strict_eq v VUndefined) eqn:Heq.
    + rewrite Hnone. split; [by intros [? ?] |].
      intros Hne. apply strict_eq_undefined in Hne. congruence.
    + rewrite decide_True by done. apply strict_eq_undefined in Heq.
      split; [done | by eexists].
  - unfold w1.
    destruct (recordConfig_mediator m m param
                (setMediator m
                   (setAllocatedSetters
                      ({[name]} ∪ allocatedSetters (mediator w0 m))
                      (mediator w0 m)) w0)) as (_ & _ & _ & _ & _ & ->).
    rewrite decide_True by done. by rewrite lookup_insert_eq.
  - unfold getSetter. by rewrite decide_True.
  - intros m' n Hne. rewrite Hpv. destruct (strict_eq v VUndefined); [done |].
    by rewrite decide_False.
  - intros fuel' param' Hname He' [v' Hv'].
    unfold ParamMediator.registerParam, allocateSetter.
    rewrite Hv', He', Hname. fold name. by rewrite decide_True.
Qed.

Lemma map_get_map_set {V} (k k' : string) (v : V) (m : list (string * V)) :
  map_get k' (map_set k v m) = if decide (k = k') then Some v else map_get k' m.
Proof.
  induction m as [| [k0 v0] m IH]; simpl.
  - by case_decide.
  - destruct (decide (k0 = k)) as [-> | Hne]; simpl.
    + by case_decide.
    + destruct (decide (k0 = k')) as [-> | Hne'].
      * by rewrite decide_False.
      * done.
Qed.

Lemma findMediatorForParam_owner (fuel : nat) (m : nat) (paramName : string)
      (w : World) (o : nat) :
  findMediatorForParam fuel m paramName w = Ok (Some o) →
  hasValue w paramName o = true.
Proof.
  revert m. induction fuel as [| fuel IH]; intros m; simpl; [done |].
  destruct (hasValue w paramName m) eqn:E; [by intros [= <-] |].
  destruct (parentFinder (mediator w m)) as [p |]; [apply IH | done].
Qed.

(** The loop over the free variables binds each of them to the mediator
    the lookup finds, and leaves the other bindings as they were. *)
Lemma bindGlobals_returns (fuel : nat) (m : nat) (expr : string)
      (params : list string) (acc bindings : list (string * nat)) (w : World) :
  bindGlobals fuel m expr params acc w = Ok bindings →
  (∀ p, p ∈ params →
     ∃ mp, map_get p bindings = Some mp
           ∧ findMediatorForParam fuel m p w = Ok (Some mp))
  ∧ (∀ p, p ∉ params → map_get p bindings = map_get p acc).
Proof.
  revert acc. induction params as [| q rest IH]; intros acc; simpl.
  - intros [= <-]. split; [| done]. intros p Hin. by apply elem_of_nil in Hin.
  - destruct (findMediatorForParam fuel m q w) as [[mq |] | |] eqn:E; simpl;
      try done.
    intros Hrun. destruct (IH _ Hrun) as [Hin Hout]. split.
    + intros p Hp. destruct (decide (p ∈ rest)) as [Hr | Hr]; [by apply Hin |].
      apply elem_of_cons in Hp as [-> | Hp]; [| done].
      exists mq. rewrite (Hout _ Hr), map_get_map_set.
      by rewrite decide_True.
    + intros p Hp. apply not_elem_of_cons in Hp as [Hne Hr].
      rewrite (Hout _ Hr), map_get_map_set. by rewrite decide_False.
Qed.

(** What [createExpression] changes: the expression cache of the mediator
    it is called on, under the source, and nothing else. *)
Lemma createExpression_returns (fuel : nat) (m : nat) (expr : string)
      (w w1 : World) (e : ExprRefFunction) :
  createExpression fuel m expr w = Ok (w1, e) →
  expressions (mediator w1 m) !! expr = Some e
  ∧ (∀ m' src, (m', src) ≠ (m, expr) →
       expressions (mediator w1 m') !! src = expressions (mediator w m') !! src)
  ∧ (∀ m', paramValues (mediator w1 m') = paramValues (mediator w m')
           ∧ paramListeners (mediator w1 m') = paramListeners (mediator w m')
           ∧ allocatedSetters (mediator w1 m') = allocatedSetters (mediator w m')
           ∧ parentFinder (mediator w1 m') = parentFinder (mediator w m')
           ∧ paramConfigs (mediator w1 m') = paramConfigs (mediator w m'))
  ∧ batches w1 = batches w ∧ nextBatch w1 = nextBatch w
  ∧ microtasks w1 = microtasks w ∧ delivered w1 = delivered w.
Proof.
  unfold ParamMediator.createExpression.
  destruct (expressions (mediator w m) !! expr) as [e0 |] eqn:E.
  - intros [= <- <-]. by repeat split.
  - destruct (createFunction expr) as [f |]; [| done].
    destruct (bindGlobals fuel m expr (globals f) [] w) as [bs | |]; simpl;
      try done.
    intros [= <- <-]. split; [| split; [| split]].
    + rewrite mediator_setMediator_eq. simpl. by rewrite lookup_insert_eq.
    + intros m' src Hne. rewrite mediator_setMediator.
      case_decide; subst; simpl; [| done].
      rewrite lookup_insert_ne; [done |]. congruence.
    + intros m'. rewrite mediator_setMediator. by case_decide; subst.
    + done.
Qed.

(** An expression is bound when it is first compiled, and stays as it was
    bound. [createExpression] of a source that is not in the cache binds
    every free variable of the compiled function to the mediator that
    [findMediatorForParam] finds at that moment, which owns the variable,
    and binds nothing else; the function has no listeners. Afterwards,
    whatever setters are called or allocated, [createExpression] of the
    same source on the same mediator returns the same function with the
    same bindings and changes nothing. *)
Theorem createExpression_binds_once (fuel : nat) (m : nat) (expr : string)
        (w w1 : World) (e : ExprRefFunction) :
  expressions (mediator w m) !! expr = None →
  createExpression fuel m expr w = Ok (w1, e) →
  createFunction expr = Some (fn e)
  ∧ myListeners e = []
  ∧ (∀ p, p ∈ globals (fn e) →
       ∃ mp, map_get p (mediatorsForParams e) = Some mp
             ∧ findMediatorForParam fuel m p w = Ok (Some mp)
             ∧ hasValue w p mp = true)
  ∧ (∀ p, p ∉ globals (fn e) → map_get p (mediatorsForParams e) = None)
  ∧ ∀ w2, rtc mediatorStep w1 w2 →
      ∀ fuel', createExpression fuel' m expr w2 = Ok (w2, e).
Proof.
  intros Hnew Hrun.
  destruct (createExpression_returns _ _ _ _ _ _ Hrun) as (Hcached & _).
  unfold ParamMediator.createExpression in Hrun. rewrite Hnew in Hrun.
  destruct (createFunction expr) as [f |]; [| done].
  destruct (bindGlobals fuel m expr (globals f) [] w) as [bs | |] eqn:Hbind;
    simpl in Hrun; try done.
  injection Hrun as <- <-. simpl.
  destruct (bindGlobals_returns _ _ _ _ _ _ _ Hbind) as [Hin Hout].
  split; [done |]. split; [done |]. split; [| split].
  - intros p Hp. destruct (Hin p Hp) as (mp & Hget & Hfind).
    exists mp. split; [done |]. split; [done |].
    by eapply findMediatorForParam_owner.
  - intros p Hp. by rewrite (Hout p Hp).
  - intros w2 Hsteps fuel'. unfold ParamMediator.createExpression.
    destruct (mediatorStep_kept _ _ Hsteps m) as (-> & _).
    by rewrite Hcached.
Qed.

End Compiler.

Lemma registerParam_value_witness :
  ∃ w1,
    registerParam Examples.demoCreateFunction 1 1 (Examples.staticParam "a" (VNum (Examples.int 1)))
      Examples.family
    = Ok (w1, Some (RealSetter 1 "a"), [])
    ∧ getValue 1 "a" w1 = VNum (Examples.int 1)
    ∧ registerParam Examples.demoCreateFunction 1 1 (Examples.staticParam "a" VNull) w1
      = Throw (SetterAlreadyAllocated "a").
Proof.
  destruct (registerParam_value Examples.demoCreateFunction 0 1
              (Examples.staticParam "a" (VNum (Examples.int 1)))
              (VNum (Examples.int 1)) Examples.family)
    as (w1 & Hrun & Hget & _ & _ & _ & _ & Hagain).
  - reflexivity.
  - reflexivity.
  - vm_compute. set_solver.
  - reflexivity.
  - reflexivity.
  - exists w1. split; [exact Hrun |]. split; [exact Hget |].
    apply Hagain; [reflexivity | reflexivity | by eexists].
Defined.

Lemma createExpression_binds_once_witness :
  ∃ w1 e w2 cs,
    createExpression Examples.demoCreateFunction 2 1 "a"
      MoreExamples.familyWithA
    = Ok (w1, e)
    ∧ map_get "a" (mediatorsForParams e) = Some 0
    ∧ allocateSetter 2 1 "a" (VNum (Examples.int 7)) w1
      = Ok (w2, RealSetter 1 "a", cs)
    ∧ findMediatorForParam 2 1 "a" w2 = Ok (Some 1)
    ∧ createExpression Examples.demoCreateFunction 2 1 "a" w2 = Ok (w2, e).
Proof.
  eexists _, _, _, _. split; [vm_compute; reflexivity |].
  split; [reflexivity |]. split; [vm_compute; reflexivity |].
  split; [reflexivity |].
  pose proof (λ w1 e H,
                proj2 (proj2 (proj2 (proj2
                  (createExpression_binds_once Examples.demoCreateFunction 2 1
                     "a" MoreExamples.familyWithA w1 e eq_refl H)))))
    as Hstable.
  eapply Hstable; [vm_compute; reflexivity |].
  eapply rtc_l; [| apply rtc_refl].
  eapply (step_allocate _ _ 2 1 "a" (VNum (Examples.int 7))).
  vm_compute. reflexivity.
Defined.

End MediatorFacts.

(* ===================================================================== *)
(** * Properties of the parameter mediator: subscriptions *)
(* ===================================================================== *)

Module SubscriptionFacts.
Import ParamMediator LookupFacts SetterFacts ExpressionFacts TickFacts
       RegistrationFacts MediatorFacts.

Lemma foldl_addListenerTo_counters (l : listener)
      (bindings : list (string * nat)) (w : World) :
  nextMediator (foldl (addListenerTo l) w bindings) = nextMediator w
  ∧ nextBatch (foldl (addListenerTo l) w bindings) = nextBatch w.
Proof.
  revert w. induction bindings as [| [p mp] bindings IH]; intros w; [done |].
  cbn [foldl]. by destruct (IH (addListenerTo l w (p, mp))) as [-> ->].
Qed.

(** Everything [addListener] does. *)
Lemma addListener_effect (w w1 : World) (m : nat) (expr : string)
      (l : listener) :
  addListener m expr l w = Ok w1 →
  ∃ e,
    expressions (mediator w m) !! expr = Some e
    ∧ (∀ mp param,
         paramListeners (mediator w1 mp) !! param
         = if decide ((param, mp) ∈ mediatorsForParams e)
           then Some (set_add l (listenersOf w mp param))
           else paramListeners (mediator w mp) !! param)
    ∧ (∀ mp src,
         expressions (mediator w1 mp) !! src
         = if decide ((mp, src) = (m, expr))
           then Some {| fn := fn e; mediatorsForParams := mediatorsForParams e;
                        myListeners := match mediatorsForParams e with
                                       | [] => myListeners e
                                       | _ :: _ => set_add l (myListeners e)
                                       end |}
           else expressions (mediator w mp) !! src)
    ∧ (∀ mp, paramValues (mediator w1 mp) = paramValues (mediator w mp)
             ∧ allocatedSetters (mediator w1 mp)
               = allocatedSetters (mediator w mp)
             ∧ paramConfigs (mediator w1 mp) = paramConfigs (mediator w mp)
             ∧ parentFinder (mediator w1 mp) = parentFinder (mediator w mp))
    ∧ batches w1 = batches w ∧ nextBatch w1 = nextBatch w
    ∧ nextMediator w1 = nextMediator w
    ∧ microtasks w1 = microtasks w ∧ delivered w1 = delivered w.
Proof.
  unfold addListener.
  destruct (expressions (mediator w m) !! expr) as [e |] eqn:He; [| done].
  intros [= <-]. exists e. split; [done |].
  destruct (foldl_addListenerTo l (mediatorsForParams e) w)
    as (Hl & Hm & Hb & Hq & Hd).
  destruct (foldl_addListenerTo_counters l (mediatorsForParams e) w)
    as [Hnm Hnb].
  cbv zeta in *.
  split; [| split; [| split]].
  - intros mp param. rewrite <- Hl. rewrite mediator_setMediator.
    by case_decide; subst.
  - intros mp src. rewrite mediator_setMediator.
    destruct (decide (m = mp)) as [<- | Hne]; simpl.
    + rewrite lookup_insert. destruct (decide (expr = src)) as [<- | Hs].
      * by rewrite decide_True.
      * rewrite decide_False by congruence.
        by destruct (Hm m) as (_ & -> & _).
    + rewrite decide_False by congruence. by destruct (Hm mp) as (_ & -> & _).
  - intros mp. rewrite mediator_setMediator.
    case_decide; subst; simpl; by destruct (Hm mp) as (-> & _ & -> & -> & ->).
  - done.
Qed.

(** Subscribing a function a second time changes nothing: no registry and
    no expression sees the second call. Calling [invalidate] a second
    time changes no registry either. *)
Theorem subscription_idempotent (w w1 : World) (m : nat) (expr : string)
        (l : listener) :
  addListener m expr l w = Ok w1 →
  (∃ w2, addListener m expr l w1 = Ok w2
         ∧ ∀ mp, paramListeners (mediator w2 mp) = paramListeners (mediator w1 mp)
                 ∧ expressions (mediator w2 mp) = expressions (mediator w1 mp))
  ∧ ∃ w3 w4, invalidate m expr w1 = Ok w3 ∧ invalidate m expr w3 = Ok w4
             ∧ ∀ mp, paramListeners (mediator w4 mp)
                     = paramListeners (mediator w3 mp).
Proof.
  intros Hrun.
  destruct (addListener_effect _ _ _ _ _ Hrun) as (e & He & Hl & Hx & _).
  pose proof (Hx m expr) as He1. rewrite decide_True in He1 by done.
  split.
  - destruct (addListener m expr l w1) as [w2 | |] eqn:Hrun2;
      try (unfold addListener in Hrun2; by rewrite He1 in Hrun2).
    exists w2. split; [done |].
    destruct (addListener_effect _ _ _ _ _ Hrun2) as (e1 & He1' & Hl2 & Hx2 & _).
    rewrite He1 in He1'. injection He1' as <-. simpl in *.
    intros mp. split; apply map_eq.
    + intros p. rewrite Hl2. case_decide as Hin; [| done].
      unfold listenersOf. rewrite Hl, decide_True by done. simpl.
      by rewrite set_add_idem.
    + intros src. rewrite Hx2. case_decide as Heq; [| done].
      injection Heq as -> ->. rewrite He1. f_equal.
      destruct (mediatorsForParams e); [done |]. by rewrite set_add_idem.
  - destruct (invalidate_returns _ _ _ _ He1) as (w3 & Hrun3 & Hl3 & Hm3).
    assert (He3 : expressions (mediator w3 m) !! expr = expressions (mediator w1 m) !! expr)
      by (by destruct (Hm3 m) as [_ ->]).
    rewrite He1 in He3.
    destruct (invalidate_returns _ _ _ _ He3) as (w4 & Hrun4 & Hl4 & _).
    exists w3, w4. split; [done |]. split; [done |].
    intros mp. apply map_eq. intros p. rewrite Hl4. case_decide as Hin; [| done].
    rewrite Hl3, decide_True by done.
    destruct (paramListeners (mediator w1 mp) !! p) as [ls |]; simpl; [| done].
    f_equal. rewrite list_filter_filter. apply list_filter_iff. tauto.
Qed.

Lemma subscription_idempotent_witness :
  ∃ w1 w2,
    addListener 0 "a" (Callback 8) Examples.reactive = Ok w1
    ∧ addListener 0 "a" (Callback 8) w1 = Ok w2
    ∧ listenersOf w2 0 "a" = listenersOf w1 0 "a".
Proof.
  eexists _, _. split; [vm_compute; reflexivity |].
  split; [vm_compute; reflexivity |].
  destruct (subscription_idempotent Examples.reactive _ 0 "a" (Callback 8)
              eq_refl) as [(w2 & Hrun & Hsame) _].
  vm_compute in Hrun. injection Hrun as <-.
  unfold listenersOf. by destruct (Hsame 0) as [-> _].
Defined.

Section Compiler.
Variable createFunction : string → option CompiledExpr.

Local Abbreviation createExpression := (createExpression createFunction).
Local Abbreviation activateEntries := (activateEntries createFunction).
Local Abbreviation activateExprRefProps :=
  (activateExprRefProps createFunction).

(** The activated form of a property of mediator [m]. *)
Definition activatedForm (m : nat) (entry : string * prop)
  : string * activatedProp :=
  (entry.1, match entry.2 with
            | PropValue v => Plain v
            | PropExprRef src => Getter m src
            end).

Lemma activateEntries_form (fuel : nat) (m g : nat) (hasListener : bool)
      (props : list (string * prop)) (w w1 : World)
      (activated : list (string * activatedProp)) :
  activateEntries fuel m g hasListener props w = Ok (w1, activated) →
  activated = map (activatedForm m) props.
Proof.
  revert w w1 activated.
  induction props as [| [key [v | src]] props IH]; intros w w1 activated;
    simpl.
  - by intros [= <- <-].
  - destruct (activateEntries fuel m g hasListener props w)
      as [[w2 act] | |] eqn:E; simpl; try done.
    intros [= <- <-]. by rewrite (IH _ _ _ E).
  - destruct (createExpression fuel m src w) as [[w2 e] | |]; simpl; try done.
    destruct (if hasListener then addListener m src (BatchChange g key) w2
              else mret w2) as [w3 | |]; simpl; try done.
    destruct (activateEntries fuel m g hasListener props w3)
      as [[w4 act] | |] eqn:E; simpl; try done.
    intros [= <- <-]. by rewrite (IH _ _ _ E).
Qed.

(** What the loop of [activateExprRefProps] without a listener leaves
    alone, and what it compiles. *)
Lemma activateEntries_silent (fuel : nat) (m g : nat)
      (props : list (string * prop)) (w w1 : World)
      (activated : list (string * activatedProp)) :
  activateEntries fuel m g false props w = Ok (w1, activated) →
  (∀ mp, paramValues (mediator w1 mp) = paramValues (mediator w mp)
         ∧ paramListeners (mediator w1 mp) = paramListeners (mediator w mp)
         ∧ allocatedSetters (mediator w1 mp) = allocatedSetters (mediator w mp))
  ∧ batches w1 = batches w ∧ nextBatch w1 = nextBatch w
  ∧ microtasks w1 = microtasks w ∧ delivered w1 = delivered w
  ∧ (∀ mp src e, expressions (mediator w mp) !! src = Some e →
       expressions (mediator w1 mp) !! src = Some e)
  ∧ (∀ key src, (key, PropExprRef src) ∈ props →
       is_Some (expressions (mediator w1 m) !! src)).
Proof.
  revert w w1 activated.
  induction props as [| [key [v | src]] props IH]; intros w w1 activated;
    simpl.
  - intros [= <- <-]. do 6 (split; [done |]).
    intros key src Hin. by apply elem_of_nil in Hin.
  - destruct (activateEntries fuel m g false props w)
      as [[w2 act] | |] eqn:E; simpl; try done.
    intros [= <- <-]. destruct (IH _ _ _ E) as (H1 & H2 & H3 & H4 & H5 & H6 & H7).
    do 6 (split; [done |]). intros key' src Hin.
    apply elem_of_cons in Hin as [[= _ ?] | Hin]; by eapply H7.
  - destruct (createExpression fuel m src w) as [[w2 e] | |] eqn:Ec; simpl;
      try done.
    destruct (activateEntries fuel m g false props w2)
      as [[w4 act] | |] eqn:E; simpl; try done.
    intros [= <- <-].
    destruct (createExpression_returns _ _ _ _ _ _ _ Ec)
      as (Hc & Hother & Hmed & Hb & Hnb & Hq & Hd).
    destruct (IH _ _ _ E) as (H1 & H2 & H3 & H4 & H5 & H6 & H7).
    split.
    { intros mp. destruct (H1 mp) as (-> & -> & ->).
      by destruct (Hmed mp) as (-> & -> & -> & _). }
    do 4 (split; [congruence |]).
    assert (Hkeep : ∀ mp src0 e0, expressions (mediator w mp) !! src0 = Some e0 →
                      expressions (mediator w2 mp) !! src0 = Some e0).
    { intros mp src0 e0 He0.
      destruct (decide ((mp, src0) = (m, src))) as [[= -> ->] | Hne].
      - unfold ParamMediator.createExpression in Ec. rewrite He0 in Ec.
        injection Ec as <- <-. done.
      - by rewrite Hother. }
    split; [intros mp src0 e0 He0; by apply H6, Hkeep |].
    intros key' src' Hin. apply elem_of_cons in Hin as [[= _ ->] | Hin].
    + exists e. by apply H6.
    + by eapply H7.
Qed.

(** Without a listener, [activateExprRefProps] only compiles: the record
    it returns has the properties of the record given, in order, a plain
    value as it was and an [ExprRef] as a getter; every expression of the
    record is in the cache of the mediator afterwards, and the cached
    expressions are as they were; no listener is registered anywhere, no
    value changes, nothing is queued, and the batch made for the call has
    no listener and no pending property. *)
Theorem activateExprRefProps_silent (fuel : nat) (m : nat)
        (props : list (string * prop)) (w w1 : World) (g : nat)
        (activated : list (string * activatedProp)) :
  activateExprRefProps fuel m props None w = Ok (w1, g, activated) →
  activated = map (activatedForm m) props
  ∧ (∀ mp, paramListeners (mediator w1 mp) = paramListeners (mediator w mp)
           ∧ paramValues (mediator w1 mp) = paramValues (mediator w mp))
  ∧ (∀ mp src e, expressions (mediator w mp) !! src = Some e →
       expressions (mediator w1 mp) !! src = Some e)
  ∧ (∀ key src, (key, PropExprRef src) ∈ props →
       is_Some (expressions (mediator w1 m) !! src))
  ∧ microtasks w1 = microtasks w ∧ delivered w1 = delivered w
  ∧ g = nextBatch w ∧ nextBatch w1 = S g
  ∧ batch w1 g = {| alteredProps := []; batchListener := None |}.
Proof.
  unfold ParamMediator.activateExprRefProps. cbv zeta.
  rewrite bool_decide_eq_false_2 by (by intros [? ?]).
  match goal with
  | |- context [activateEntries _ _ _ _ _ ?w0] => set (w0' := w0)
  end.
  destruct (activateEntries fuel m (nextBatch w) false props w0')
    as [[w2 act] | |] eqn:E; simpl; try done.
  intros [= <- <- <-].
  split; [by eapply activateEntries_form |].
  destruct (activateEntries_silent _ _ _ _ _ _ _ E)
    as (H1 & H2 & H3 & H4 & H5 & H6 & H7).
  split; [intros mp; by destruct (H1 mp) as (-> & -> & _) |].
  split; [done |]. split; [done |]. split; [done |]. split; [done |].
  split; [done |]. split; [done |].
  unfold batch. rewrite H2. unfold w0'. simpl. by rewrite lookup_insert_eq.
Qed.

Lemma set_add_cases (l x : listener) (s : list listener) :
  x ∈ set_add l s ↔ x ∈ s ∨ x = l.
Proof.
  unfold set_add. case_decide as Hin.
  - split; [by left |]. by intros [? | ->].
  - rewrite elem_of_app, list_elem_of_singleton. done.
Qed.

(** What the loop of [activateExprRefProps] with a listener does. *)
Lemma activateEntries_subscribes (fuel : nat) (m g : nat)
      (props : list (string * prop)) (w w1 : World)
      (activated : list (string * activatedProp)) :
  activateEntries fuel m g true props w = Ok (w1, activated) →
  (∀ mp, paramValues (mediator w1 mp) = paramValues (mediator w mp)
         ∧ allocatedSetters (mediator w1 mp) = allocatedSetters (mediator w mp))
  ∧ batches w1 = batches w ∧ nextBatch w1 = nextBatch w
  ∧ microtasks w1 = microtasks w ∧ delivered w1 = delivered w
  ∧ (∀ mp src e, expressions (mediator w mp) !! src = Some e →
       ∃ e', expressions (mediator w1 mp) !! src = Some e'
             ∧ mediatorsForParams e' = mediatorsForParams e)
  ∧ (∀ mp p l, l ∈ listenersOf w mp p → l ∈ listenersOf w1 mp p)
  ∧ (∀ mp p l, l ∈ listenersOf w1 mp p →
       l ∈ listenersOf w mp p
       ∨ ∃ key src, (key, PropExprRef src) ∈ props ∧ l = BatchChange g key)
  ∧ (∀ key src, (key, PropExprRef src) ∈ props →
       ∃ e, expressions (mediator w1 m) !! src = Some e
            ∧ ∀ p mp, (p, mp) ∈ mediatorsForParams e →
                BatchChange g key ∈ listenersOf w1 mp p).
Proof.
  revert w w1 activated.
  induction props as [| [key [v | src]] props IH]; intros w w1 activated;
    simpl.
  - intros [= <- <-]. do 5 (split; [done |]).
    split; [by eauto |]. split; [done |]. split; [by left |].
    intros key src Hin. by apply elem_of_nil in Hin.
  - destruct (activateEntries fuel m g true props w)
      as [[w2 act] | |] eqn:E; simpl; try done.
    intros [= <- <-].
    destruct (IH _ _ _ E) as (H1 & H2 & H3 & H4 & H5 & H6 & H7 & H8 & H9).
    do 7 (split; [done |]). split.
    + intros mp p l Hl. destruct (H8 mp p l Hl) as [? | (k & s0 & Hin & ->)];
        [by left |]. right. exists k, s0. split; [by right | done].
    + intros key' src Hin.
      apply elem_of_cons in Hin as [[= _ ?] | Hin]; by eapply H9.
  - destruct (createExpression fuel m src w) as [[w2 e] | |] eqn:Ec; simpl;
      try done.
    destruct (addListener m src (BatchChange g key) w2) as [w3 | |] eqn:Ea;
      simpl; try done.
    destruct (activateEntries fuel m g true props w3)
      as [[w4 act] | |] eqn:E; simpl; try done.
    intros [= <- <-].
    destruct (createExpression_returns _ _ _ _ _ _ _ Ec)
      as (Hc & Hother & Hmed & Hb & Hnb & Hq & Hd).
    destruct (addListener_effect _ _ _ _ _ Ea)
      as (e2 & He2 & Hl3 & Hx3 & Hm3 & Hb3 & Hnb3 & _ & Hq3 & Hd3).
    rewrite Hc in He2. injection He2 as <-.
    destruct (IH _ _ _ E) as (H1 & H2 & H3 & H4 & H5 & H6 & H7 & H8 & H9).
    assert (Hls3 : ∀ mp p l, l ∈ listenersOf w3 mp p
                    ↔ l ∈ listenersOf w mp p
                      ∨ ((p, mp) ∈ mediatorsForParams e
                         ∧ l = BatchChange g key)).
    { intros mp p l. unfold listenersOf at 1. rewrite Hl3.
      assert (Hsame : listenersOf w2 mp p = listenersOf w mp p).
      { unfold listenersOf. by destruct (Hmed mp) as (_ & -> & _). }
      case_decide as Hin; simpl.
      - rewrite set_add_cases, Hsame. tauto.
      - fold (listenersOf w2 mp p). rewrite Hsame. tauto. }
    assert (Hkeep : ∀ mp src0 e0, expressions (mediator w mp) !! src0 = Some e0 →
             ∃ e', expressions (mediator w3 mp) !! src0 = Some e'
                   ∧ mediatorsForParams e' = mediatorsForParams e0).
    { intros mp src0 e0 He0. rewrite Hx3.
      destruct (decide ((mp, src0) = (m, src))) as [[= -> ->] | Hne].
      - unfold ParamMediator.createExpression in Ec. rewrite He0 in Ec.
        injection Ec as <- <-. by eexists.
      - rewrite Hother by done. by eexists. }
    split.
    { intros mp. destruct (H1 mp) as (-> & ->).
      destruct (Hm3 mp) as (-> & -> & _).
      by destruct (Hmed mp) as (-> & _ & -> & _). }
    do 4 (split; [congruence |]).
    split; [| split; [| split]].
    + intros mp src0 e0 He0.
      destruct (Hkeep _ _ _ He0) as (e' & He' & Hbs).
      destruct (H6 _ _ _ He') as (e'' & He'' & Hbs').
      exists e''. split; [done | congruence].
    + intros mp p l Hl. apply H7, Hls3. by left.
    + intros mp p l Hl. destruct (H8 mp p l Hl) as [Hl3' | (k & s0 & Hin & ->)].
      * apply Hls3 in Hl3' as [? | [_ ->]]; [by left |].
        right. exists key, src. split; [by left | done].
      * right. exists k, s0. split; [by right | done].
    + intros key' src' Hin. apply elem_of_cons in Hin as [[= -> ->] | Hin];
        [| by eapply H9].
      pose proof (Hx3 m src) as He3. rewrite decide_True in He3 by done.
      destruct (H6 _ _ _ He3) as (e4 & He4 & Hbs4). simpl in Hbs4.
      exists e4. split; [done |]. intros p mp Hin. rewrite Hbs4 in Hin.
      apply H7, Hls3. by right.
Qed.

(** With a listener, [activateExprRefProps] subscribes every expression
    property to every variable of its expression: the function that
    batches a change of the property is in the registry of the owning
    mediator of each variable. The registries keep what they had, and
    gain nothing but these functions; no value changes, nothing is
    queued, and the batch of the call has the listener and no pending
    property. *)
Theorem activateExprRefProps_subscribes (fuel : nat) (m : nat)
        (props : list (string * prop)) (cb : nat) (w w1 : World) (g : nat)
        (activated : list (string * activatedProp)) :
  activateExprRefProps fuel m props (Some cb) w = Ok (w1, g, activated) →
  g = nextBatch w
  ∧ batch w1 g = {| alteredProps := []; batchListener := Some cb |}
  ∧ activated = map (activatedForm m) props
  ∧ (∀ key src, (key, PropExprRef src) ∈ props →
       ∃ e, expressions (mediator w1 m) !! src = Some e
            ∧ ∀ p mp, (p, mp) ∈ mediatorsForParams e →
                BatchChange g key ∈ listenersOf w1 mp p)
  ∧ (∀ mp p l, l ∈ listenersOf w mp p → l ∈ listenersOf w1 mp p)
  ∧ (∀ mp p l, l ∈ listenersOf w1 mp p →
       l ∈ listenersOf w mp p
       ∨ ∃ key src, (key, PropExprRef src) ∈ props ∧ l = BatchChange g key)
  ∧ (∀ mp, paramValues (mediator w1 mp) = paramValues (mediator w mp))
  ∧ microtasks w1 = microtasks w ∧ delivered w1 = delivered w.
Proof.
  unfold ParamMediator.activateExprRefProps. cbv zeta.
  rewrite bool_decide_eq_true_2 by (by eexists).
  match goal with
  | |- context [activateEntries _ _ _ _ _ ?w0] => set (w0' := w0)
  end.
  destruct (activateEntries fuel m (nextBatch w) true props w0')
    as [[w2 act] | |] eqn:E; simpl; try done.
  intros [= <- <- <-].
  destruct (activateEntries_subscribes _ _ _ _ _ _ _ E)
    as (H1 & H2 & H3 & H4 & H5 & H6 & H7 & H8 & H9).
  split; [done |]. split.
  { unfold batch. rewrite H2. unfold w0'. simpl. by rewrite lookup_insert_eq. }
  split; [by eapply activateEntries_form |].
  split; [done |]. split; [done |]. split; [done |].
  split; [intros mp; by destruct (H1 mp) as (-> & _) |]. done.
Qed.

End Compiler.

Lemma activateExprRefProps_silent_witness :
  ∃ w1 activated,
    ParamMediator.activateExprRefProps Examples.demoCreateFunction 2 0
      [("size", PropValue (VNum (Examples.int 3)));
       ("next", PropExprRef "a + 1")] None Examples.single
    = Ok (w1, 0, activated)
    ∧ activated = [("size", Plain (VNum (Examples.int 3)));
                   ("next", Getter 0 "a + 1")]
    ∧ listenersOf w1 0 "a" = listenersOf Examples.single 0 "a".
Proof.
  eexists _, _. split; [vm_compute; reflexivity |].
  destruct (activateExprRefProps_silent Examples.demoCreateFunction 2 0
              [("size", PropValue (VNum (Examples.int 3)));
               ("next", PropExprRef "a + 1")] Examples.single _ 0 _ eq_refl)
    as (Hform & Hsame & _).
  split; [exact Hform |].
  exact (f_equal (λ pl, default [] (pl !! "a")) (proj1 (Hsame 0))).
Defined.

Lemma activateExprRefProps_subscribes_witness :
  ∃ w1 activated,
    ParamMediator.activateExprRefProps Examples.demoCreateFunction 2 0
      [("sum", PropExprRef "a + b")] (Some 7) MoreExamples.pair
    = Ok (w1, 0, activated)
    ∧ BatchChange 0 "sum" ∈ listenersOf w1 0 "a"
    ∧ BatchChange 0 "sum" ∈ listenersOf w1 0 "b".
Proof.
  eexists _, _. split; [vm_compute; reflexivity |].
  destruct (activateExprRefProps_subscribes Examples.demoCreateFunction 2 0
              [("sum", PropExprRef "a + b")] 7 MoreExamples.pair _ 0 _ eq_refl)
    as (_ & _ & _ & Hsub & _).
  destruct (Hsub "sum" "a + b") as (e & He & Hin); [by left |].
  vm_compute in He. injection He as <-.
  split; apply Hin; [by left | right; by left].
Defined.

End SubscriptionFacts.

(* ===================================================================== *)
(** * Properties of the batched property changes: several batches *)
(* ===================================================================== *)

Module FlushFacts.
Import ParamMediator TickFacts MediatorFacts.

(** The batched changes of a tick, in order: the batch and the property. *)
Definition applyChanges (w : World) (changes : list (nat * string)) : World :=
  foldl (λ w c, batchPropertyChange c.1 c.2 w) w changes.

(** The batches in the order of their first change, after those of
    [queue]. *)
Definition firstChanged (queue : list nat) (changes : list (nat * string))
  : list nat :=
  foldl (λ q c, set_add c.1 q) queue changes.

(** The properties changed in a batch, in the order of the changes. *)
Definition changedIn (g : nat) (changes : list (nat * string)) : list string :=
  (filter (λ c, c.1 = g) changes).*2.

(** The call a flush of batch [g] makes. *)
Definition deliveryOf (w : World) (g : nat) : nat * list string :=
  (default 0 (batchListener (batch w g)), alteredProps (batch w g)).

(** The queue holds one flush for each batch with pending properties. *)
Definition queued (w : World) (queue : list nat) : Prop :=
  microtasks w = Flush <$> queue
  ∧ NoDup queue
  ∧ ∀ g, g ∈ queue ↔ alteredProps (batch w g) ≠ [].

Lemma applyChanges_queued (changes : list (nat * string)) (w : World)
      (queue : list nat) :
  queued w queue →
  queued (applyChanges w changes) (firstChanged queue changes)
  ∧ (∀ g, alteredProps (batch (applyChanges w changes) g)
          = alteredProps (batch w g) ++ changedIn g changes)
  ∧ (∀ g, batchListener (batch (applyChanges w changes) g)
          = batchListener (batch w g))
  ∧ delivered (applyChanges w changes) = delivered w.
Proof.
  revert w queue. induction changes as [| [g k] changes IH]; intros w queue Hq.
  - split; [done |]. split; [| done]. intros g. unfold changedIn. simpl.
    by rewrite app_nil_r.
  - unfold applyChanges, firstChanged. cbn [foldl fst snd].
    destruct Hq as (Hm & Hnd & Hin).
    destruct (batchPropertyChange_step g k w) as (Ha & Hl & Hmq & Hd).
    cbv zeta in *.
    assert (Hq1 : queued (batchPropertyChange g k w) (set_add g queue)).
    { split; [| split].
      - rewrite Hmq, Hm. unfold set_add.
        destruct (decide (alteredProps (batch w g) = [])) as [He | Hne].
        + rewrite decide_False by (rewrite Hin; naive_solver).
          by rewrite fmap_app.
        + by rewrite decide_True by (rewrite Hin; naive_solver).
      - unfold set_add. destruct (decide (g ∈ queue)) as [Hg | Hg]; [done |].
        apply NoDup_app. split; [done |]. split; [| apply NoDup_singleton].
        intros x Hx Hx'. apply list_elem_of_singleton in Hx'. by subst.
      - intros g'. destruct (decide (g = g')) as [<- | Hne].
        + rewrite Ha. split.
          * intros _. by destruct (alteredProps (batch w g)).
          * intros _. unfold set_add.
            destruct (decide (g ∈ queue)) as [Hg | Hg]; [done |].
            apply elem_of_app. right. by left.
        + rewrite batchPropertyChange_other by done. rewrite <- Hin.
          unfold set_add. destruct (decide (g ∈ queue)) as [Hg | Hg]; [done |].
          rewrite elem_of_app, list_elem_of_singleton. naive_solver. }
    destruct (IH _ _ Hq1) as (Hq2 & Ha2 & Hl2 & Hd2).
    split; [done |]. split; [| split].
    + intros g'. unfold applyChanges in Ha2. rewrite Ha2.
      unfold changedIn. destruct (decide (g = g')) as [<- | Hne].
      * rewrite Ha. rewrite filter_cons_True by done. simpl.
        by rewrite <- app_assoc.
      * rewrite batchPropertyChange_other by done.
        by rewrite filter_cons_False by done.
    + intros g'. unfold applyChanges in Hl2. rewrite Hl2.
      destruct (decide (g = g')) as [<- | Hne]; [done |].
      by rewrite batchPropertyChange_other.
    + unfold applyChanges in Hd2. by rewrite Hd2.
Qed.

Lemma runMicrotasks_queued (queue : list nat) (w : World) :
  queued w queue →
  (∀ g, g ∈ queue → is_Some (batchListener (batch w g))) →
  ∃ w',
    runMicrotasks (S (length queue)) w = Ok w'
    ∧ delivered w' = delivered w ++ (deliveryOf w <$> queue)
    ∧ microtasks w' = []
    ∧ (∀ g, alteredProps (batch w' g) = [])
    ∧ (∀ g, is_Some (batchListener (batch w g)) →
            batchListener (batch w' g) = batchListener (batch w g))
    ∧ mediators w' = mediators w.
Proof.
  revert w. induction queue as [| g queue IH]; intros w (Hm & Hnd & Hin) Hcb.
  - exists w. simpl in *. rewrite Hm. split; [done |].
    split; [by rewrite app_nil_r |]. split; [done |]. split; [| done].
    intros g. destruct (alteredProps (batch w g)) eqn:E; [done |].
    exfalso. eapply not_elem_of_nil. apply Hin. by rewrite E.
  - destruct (Hcb g) as [cb Hl]; [by left |].
    apply NoDup_cons in Hnd as [Hg Hnd].
    cbn [runMicrotasks length]. rewrite Hm. cbn [fmap list_fmap].
    unfold runMicrotask. rewrite batch_setMicrotasks, Hl. simpl.
    set (w1 := setBatch g _ _).
    assert (Hb1 : ∀ g', batch w1 g'
                        = if decide (g = g')
                          then {| alteredProps := []; batchListener := Some cb |}
                          else batch w g').
    { intros g'. unfold w1. by rewrite batch_setBatch. }
    destruct (IH w1) as (w' & Hrun & Hd & Hq & Ha & Hl' & Hmed).
    { split; [done |]. split; [done |]. intros g'. rewrite Hb1.
      case_decide; subst; simpl.
      - split; [done |]. by intros [].
      - rewrite <- Hin. rewrite elem_of_cons. naive_solver. }
    { intros g' Hg'. rewrite Hb1. case_decide; subst; [done |].
      apply Hcb. by right. }
    exists w'. split; [done |]. split; [| split; [done |]; split; [done |]; split].
    + rewrite Hd. unfold w1 at 1. simpl. rewrite <- app_assoc. f_equal.
      simpl. f_equal.
      * unfold deliveryOf. by rewrite Hl.
      * apply list_fmap_ext. intros i g' Hi. unfold deliveryOf.
        rewrite Hb1. rewrite decide_False; [done |]. intros ->.
        apply Hg. by eapply list_elem_of_lookup_2.
    + intros g' Hs. rewrite Hl'; rewrite Hb1; by case_decide; subst.
    + by rewrite Hmed.
Qed.

(** Batches are flushed one by one. When nothing is pending and the
    properties of several activated records change in one tick, in any
    interleaving, the end of the tick calls the listener of each record
    that had a change exactly once, with the changes of that record only,
    in their order; the listeners are called in the order of the first
    change of their records; afterwards nothing is pending. *)
Theorem tick_delivers_each_batch (changes : list (nat * string)) (w : World) :
  microtasks w = [] →
  (∀ g, alteredProps (batch w g) = []) →
  (∀ g, g ∈ changes.*1 → is_Some (batchListener (batch w g))) →
  ∃ w',
    runMicrotasks (S (length (firstChanged [] changes))) (applyChanges w changes)
    = Ok w'
    ∧ delivered w'
      = delivered w
        ++ ((λ g, (default 0 (batchListener (batch w g)), changedIn g changes))
              <$> firstChanged [] changes)
    ∧ NoDup (firstChanged [] changes)
    ∧ (∀ g, g ∈ firstChanged [] changes ↔ g ∈ changes.*1)
    ∧ microtasks w' = []
    ∧ ∀ g, alteredProps (batch w' g) = [].
Proof.
  intros Hm Ha Hcb.
  assert (Hq : queued w []).
  { split; [done |]. split; [apply NoDup_nil_2 |]. intros g. rewrite Ha.
    split; [by intros ?%elem_of_nil | done]. }
  destruct (applyChanges_queued changes w [] Hq) as (Hq1 & Ha1 & Hl1 & Hd1).
  assert (Hgroups : ∀ g, g ∈ firstChanged [] changes ↔ g ∈ changes.*1).
  { intros g. destruct Hq1 as (_ & _ & Hin). rewrite Hin, Ha1, Ha. simpl.
    unfold changedIn. rewrite !list_elem_of_fmap. split.
    - intros Hne. destruct (filter _ changes) as [| c cs] eqn:E; [done |].
      assert (Hc : c ∈ filter (λ c, c.1 = g) changes) by (rewrite E; left).
      apply list_elem_of_filter in Hc as [Hc1 Hc2]. by exists c.
    - intros (c & -> & Hc) E.
      assert (Hc' : c ∈ filter (λ c', c'.1 = c.1) changes)
        by (by apply list_elem_of_filter).
      destruct (filter _ changes); [by apply elem_of_nil in Hc' | done]. }
  destruct (runMicrotasks_queued _ _ Hq1) as (w' & Hrun & Hd & Hq' & Ha' & _).
  { intros g Hg. rewrite Hl1. apply Hcb. by apply Hgroups. }
  exists w'. split; [done |]. split.
  { rewrite Hd, Hd1. f_equal. apply list_fmap_ext. intros i g Hi.
    unfold deliveryOf. by rewrite Hl1, Ha1, Ha. }
  split; [by destruct Hq1 as (_ & ? & _) |]. done.
Qed.

Lemma nothing_pending (w : World) :
  map_Forall (λ _ b, alteredProps b = []) (batches w) →
  ∀ g, alteredProps (batch w g) = [].
Proof.
  intros Hall g. unfold batch.
  destruct (batches w !! g) as [b |] eqn:E; [| done]. exact (Hall g b E).
Qed.

Lemma tick_delivers_each_batch_witness :
  ∃ w',
    runMicrotasks 3
      (applyChanges MoreExamples.twoRecords
         [(1, "y"); (0, "x"); (1, "z"); (1, "y")])
    = Ok w'
    ∧ delivered w' = [(8, ["y"; "z"; "y"]); (7, ["x"])].
Proof.
  destruct (tick_delivers_each_batch [(1, "y"); (0, "x"); (1, "z"); (1, "y")]
              MoreExamples.twoRecords) as (w' & Hrun & Hd & _).
  - reflexivity.
  - apply nothing_pending. apply (bool_decide_unpack _). by vm_compute.
  - intros g Hg. apply list_elem_of_In in Hg. simpl in Hg.
    destruct Hg as [<- | [<- | [<- | [<- | []]]]]; by eexists.
  - exists w'. split; [exact Hrun | exact Hd].
Defined.

End FlushFacts.

(* ===================================================================== *)
(** * Properties of the parameter mediator: every state that can be built *)
(* ===================================================================== *)

Module ReachabilityFacts.
Import ParamMediator LookupFacts SetterFacts ExpressionFacts TickFacts
       RegistrationFacts MediatorFacts SubscriptionFacts.

(** A hierarchy of mediators nothing was registered in. The parent links
    are arbitrary, and stay as they are. *)
Definition blank (w : World) : Prop :=
  ∀ m, paramValues (mediator w m) = ∅
       ∧ paramListeners (mediator w m) = ∅
       ∧ allocatedSetters (mediator w m) = ∅
       ∧ expressions (mediator w m) = ∅.

(** A name with a value has a setter. *)
Definition ownedAreAllocated (w : World) : Prop :=
  ∀ m n, hasValue w n m = true → n ∈ allocatedSetters (mediator w m).

(** Listeners are registered on names with a value only. *)
Definition listenersOnOwned (w : World) : Prop :=
  ∀ m n l, l ∈ listenersOf w m n → hasValue w n m = true.

(** The mediator an expression binds a variable to owns the variable. *)
Definition bindingsOwned (w : World) : Prop :=
  ∀ m src e p mp,
    expressions (mediator w m) !! src = Some e →
    (p, mp) ∈ mediatorsForParams e → hasValue w p mp = true.

(** A listener that re-applies a setter re-applies an allocated one. *)
Definition targetsAllocated (w : World) : Prop :=
  ∀ m n m' n' src,
    Reapply m' n' src ∈ listenersOf w m n →
    n' ∈ allocatedSetters (mediator w m').

Definition consistent (w : World) : Prop :=
  registriesAreSets w ∧ ownedAreAllocated w ∧ listenersOnOwned w
  ∧ bindingsOwned w ∧ targetsAllocated w.

Definition wellFormed (rank : nat * string → nat) (w : World) : Prop :=
  cascadeBounded rank w ∧ consistent w.

Section Compiler.
Variable createFunction : string → option CompiledExpr.

Local Abbreviation createExpression := (createExpression createFunction).
Local Abbreviation registerParam := (registerParam createFunction).
Local Abbreviation activateEntries := (activateEntries createFunction).
Local Abbreviation activateExprRefProps :=
  (activateExprRefProps createFunction).

(** The states the interface leads to from a blank hierarchy. A setter is
    applied to a name it was allocated for, and the functions subscribed
    from outside are those that call nothing of a mediator. *)
Inductive built : World → Prop :=
| built_blank w : blank w → built w
| built_allocate fuel m n v w w1 s cs :
    built w → allocateSetter fuel m n v w = Ok (w1, s, cs) → built w1
| built_setter fuel m n v w w1 cs :
    built w → n ∈ allocatedSetters (mediator w m) →
    setValue fuel m n v w = Ok (w1, cs) → built w1
| built_register fuel m param w w1 s cs :
    built w → registerParam fuel m param w = Ok (w1, s, cs) → built w1
| built_create fuel m src w w1 e :
    built w → createExpression fuel m src w = Ok (w1, e) → built w1
| built_addListener m src id w w1 :
    built w → addListener m src (Callback id) w = Ok w1 → built w1
| built_invalidate m src w w1 :
    built w → invalidate m src w = Ok w1 → built w1
| built_activate fuel m props listener w w1 g activated :
    built w →
    activateExprRefProps fuel m props listener w = Ok (w1, g, activated) →
    built w1
| built_tick fuel w w1 :
    built w → runMicrotasks fuel w = Ok w1 → built w1.

End Compiler.

Lemma blank_wellFormed (w : World) : blank w → wellFormed (λ _, 0) w.
Proof.
  intros Hb.
  assert (Hl : ∀ m n, listenersOf w m n = []).
  { intros m n. unfold listenersOf. destruct (Hb m) as (_ & -> & _).
    by rewrite lookup_empty. }
  assert (Hv : ∀ m n, hasValue w n m = false).
  { intros m n. unfold hasValue. destruct (Hb m) as (-> & _).
    rewrite lookup_empty. apply bool_decide_eq_false. by intros [? ?]. }
  split; [intros m n m' n' src; rewrite Hl; by intros ?%elem_of_nil |].
  split; [intros m n; rewrite Hl; apply NoDup_nil_2 |].
  split; [intros m n; by rewrite Hv |].
  split; [intros m n l; rewrite Hl; by intros ?%elem_of_nil |].
  split.
  - intros m src e p mp. destruct (Hb m) as (_ & _ & _ & ->).
    by rewrite lookup_empty.
  - intros m n m' n' src; rewrite Hl; by intros ?%elem_of_nil.
Qed.

(** A change that keeps the registries, at most adds expressions and
    allocated names, and keeps the owned names owned. *)
Lemma wellFormed_grow rank (w w' : World) :
  (∀ m n, listenersOf w' m n = listenersOf w m n) →
  (∀ m src, is_Some (expressions (mediator w m) !! src) →
            is_Some (expressions (mediator w' m) !! src)) →
  (∀ m, allocatedSetters (mediator w m) ⊆ allocatedSetters (mediator w' m)) →
  (∀ m n, hasValue w n m = true → hasValue w' n m = true) →
  ownedAreAllocated w' → bindingsOwned w' →
  wellFormed rank w → wellFormed rank w'.
Proof.
  intros Hl He Ha Hv Ho Hb (H1 & H2 & H3 & H4 & H5 & H6).
  split.
  { intros m n m' n' src. rewrite Hl. intros Hin.
    destruct (H1 _ _ _ _ _ Hin) as [Hr Hs]. split; [done | by apply He]. }
  split; [intros m n; rewrite Hl; apply H2 |].
  split; [done |].
  split; [intros m n l; rewrite Hl; intros Hin; by eapply Hv, H4 |].
  split; [done |].
  intros m n m' n' src. rewrite Hl. intros Hin. by eapply Ha, H6.
Qed.

Lemma wellFormed_frame rank (w w' : World) :
  sameStructure w w' →
  (∀ m n, hasValue w n m = true → hasValue w' n m = true) →
  ownedAreAllocated w' →
  wellFormed rank w → wellFormed rank w'.
Proof.
  intros Hs Hv Ho Hwf. apply (wellFormed_grow rank w); try done.
  - intros m n. by apply sameStructure_listenersOf.
  - intros m src. by destruct (Hs m) as (_ & -> & _).
  - intros m. by destruct (Hs m) as (_ & _ & -> & _).
  - destruct Hwf as (_ & _ & _ & _ & Hb & _).
    intros m src e p mp. destruct (Hs m) as (_ & -> & _). intros He Hin.
    by eapply Hv, Hb.
Qed.

(** The conditions read four fields of the mediators only. *)
Lemma wellFormed_ext rank (w w' : World) :
  (∀ m, paramValues (mediator w' m) = paramValues (mediator w m)
        ∧ paramListeners (mediator w' m) = paramListeners (mediator w m)
        ∧ allocatedSetters (mediator w' m) = allocatedSetters (mediator w m)
        ∧ expressions (mediator w' m) = expressions (mediator w m)) →
  wellFormed rank w → wellFormed rank w'.
Proof.
  intros Hm Hwf.
  assert (Hv : ∀ m n, hasValue w' n m = hasValue w n m)
    by (intros m n; unfold hasValue; by destruct (Hm m) as (-> & _)).
  pose proof Hwf as (_ & _ & Ho & _ & Hb & _).
  apply (wellFormed_grow rank w); try done.
  - intros m n. unfold listenersOf. by destruct (Hm m) as (_ & -> & _).
  - intros m src. by destruct (Hm m) as (_ & _ & _ & ->).
  - intros m. by destruct (Hm m) as (_ & _ & -> & _).
  - intros m n. by rewrite Hv.
  - intros m n. rewrite Hv. destruct (Hm m) as (_ & _ & -> & _). apply Ho.
  - intros m src e p mp. rewrite Hv. destruct (Hm m) as (_ & _ & _ & ->).
    apply Hb.
Qed.

Lemma targetsAllocated_sameStructure (w w' : World) :
  sameStructure w w' → targetsAllocated w → targetsAllocated w'.
Proof.
  intros Hs Ht m n m' n' src.
  rewrite (sameStructure_listenersOf w w') by done.
  destruct (Hs m') as (_ & _ & -> & _). apply Ht.
Qed.

Lemma storeValue_owned (m : nat) (paramName : string) (v : value) (w : World) :
  paramName ∈ allocatedSetters (mediator w m) →
  ownedAreAllocated w → ownedAreAllocated (storeValue m paramName v w).
Proof.
  intros Ha Ho m' n Hv.
  destruct (storeValue_sameStructure m paramName v w m') as (_ & _ & -> & _).
  unfold hasValue in Hv. apply bool_decide_eq_true in Hv.
  rewrite storeValue_lookup in Hv. case_decide as Heq.
  - by destruct Heq as [-> ->].
  - apply Ho. unfold hasValue. by apply bool_decide_eq_true.
Qed.

(** Setters store under allocated names only. *)
Lemma notify_owned (fuel : nat) (listeners : list listener) :
  (∀ m n v w w' cs,
     targetsAllocated w → ownedAreAllocated w →
     n ∈ allocatedSetters (mediator w m) →
     setValue fuel m n v w = Ok (w', cs) → ownedAreAllocated w') →
  ∀ w w' cs,
    targetsAllocated w → ownedAreAllocated w →
    (∀ m' n' src, Reapply m' n' src ∈ listeners →
       n' ∈ allocatedSetters (mediator w m')) →
    notify (setValue fuel) listeners w = Ok (w', cs) → ownedAreAllocated w'.
Proof.
  intros IH. induction listeners as [| l rest IHrest]; intros w w' cs Ht Ho Hls;
    simpl.
  - by intros [= <- <-].
  - destruct (invokeListener (setValue fuel) l w) as [[w1 c] | |] eqn:E; simpl;
      try done.
    destruct (notify (setValue fuel) rest w1) as [[w2 cs'] | |] eqn:E'; simpl;
      try done.
    intros [= <- <-].
    assert (H1 : sameStructure w w1 ∧ ownedAreAllocated w1).
    { destruct l as [m' n' src | g key | id]; simpl in E.
      - destruct (expressions (mediator w m') !! src) as [e |]; [| done].
        destruct (setValue fuel m' n' (callExpr e VNull w) w)
          as [[w0 cs0] | |] eqn:E0; simpl in E; try done.
        injection E as <- <-. split; [by eapply setValue_sameStructure |].
        eapply IH; [done | done | | done]. eapply Hls. by left.
      - injection E as <- <-. split.
        + intros m. by rewrite batchPropertyChange_mediator.
        + intros m n. unfold hasValue. rewrite !batchPropertyChange_mediator.
          apply Ho.
      - injection E as <- <-. split; [apply sameStructure_refl | done]. }
    destruct H1 as [Hs1 Ho1].
    eapply IHrest; [| done | | done].
    + by apply (targetsAllocated_sameStructure w).
    + intros m' n' src Hin. destruct (Hs1 m') as (_ & _ & -> & _).
      eapply Hls. by right.
Qed.

Lemma setValue_owned (fuel : nat) (m : nat) (n : string) (v : value)
      (w w' : World) (cs : list call) :
  targetsAllocated w → ownedAreAllocated w →
  n ∈ allocatedSetters (mediator w m) →
  setValue fuel m n v w = Ok (w', cs) → ownedAreAllocated w'.
Proof.
  revert m n v w w' cs.
  induction fuel as [| fuel IH]; intros m n v w w' cs Ht Ho Ha; [done |].
  rewrite setValue_unfold. destruct (strict_eq _ _).
  - by intros [= <- <-].
  - pose proof (storeValue_sameStructure m n v w) as Hs.
    apply (notify_owned fuel (listenersOf w m n) IH).
    + by apply (targetsAllocated_sameStructure w).
    + by apply storeValue_owned.
    + intros m' n' src Hin. destruct (Hs m') as (_ & _ & -> & _).
      by eapply Ht.
Qed.

(** A setter applied to a name it was allocated for keeps the conditions. *)
Lemma setValue_wellFormed rank (fuel : nat) (m : nat) (n : string) (v : value)
      (w w' : World) (cs : list call) :
  wellFormed rank w → n ∈ allocatedSetters (mediator w m) →
  setValue fuel m n v w = Ok (w', cs) → wellFormed rank w'.
Proof.
  intros Hwf Ha Hrun. pose proof Hwf as (_ & _ & Ho & _ & _ & Ht).
  destruct (setValue_setterFrame _ _ _ _ _ _ _ Hrun)
    as (Hs & _ & _ & _ & _ & _ & _ & Hv).
  apply (wellFormed_frame rank w); try done. by eapply setValue_owned.
Qed.

(** Allocating a setter: the name is new, so it has neither a value nor
    listeners, and the first call of the setter calls nothing. *)
Lemma allocateSetter_wellFormed rank (fuel : nat) (m : nat) (n : string)
      (v : value) (w w1 : World) (s : ParameterSetter) (cs : list call) :
  wellFormed rank w →
  allocateSetter fuel m n v w = Ok (w1, s, cs) →
  wellFormed rank w1
  ∧ hasValue w n m = false
  ∧ n ∈ allocatedSetters (mediator w1 m)
  ∧ (∀ m' p, listenersOf w1 m' p = listenersOf w m' p)
  ∧ (∀ m', expressions (mediator w1 m') = expressions (mediator w m'))
  ∧ (∀ m' p, hasValue w p m' = true → hasValue w1 p m' = true).
Proof.
  intros Hwf Hrun. pose proof Hwf as (_ & _ & Ho & Hlo & Hb & Ht).
  destruct (allocateSetter_returns _ _ _ _ _ _ _ _ Hrun)
    as (Hfresh & -> & w0 & Hset & ->).
  assert (Hnone : hasValue w n m = false).
  { destruct (hasValue w n m) eqn:E; [| done]. by apply Ho in E. }
  pose proof (setValue_sameStructure _ _ _ _ _ _ _ Hset) as Hs.
  destruct (setValue_setterFrame _ _ _ _ _ _ _ Hset)
    as (_ & _ & _ & _ & _ & _ & _ & Hmono).
  set (w1 := setMediator m _ w0).
  assert (Hf : ∀ m', paramValues (mediator w1 m') = paramValues (mediator w0 m')
                     ∧ paramListeners (mediator w1 m')
                       = paramListeners (mediator w m')
                     ∧ expressions (mediator w1 m') = expressions (mediator w m')
                     ∧ allocatedSetters (mediator w1 m')
                       = if decide (m = m')
                         then {[n]} ∪ allocatedSetters (mediator w m')
                         else allocatedSetters (mediator w m')).
  { intros m'. unfold w1. rewrite mediator_setMediator.
    destruct (Hs m') as (Hl & He & Ha & _).
    case_decide; subst; simpl; by rewrite ?Hl, ?He, ?Ha. }
  assert (Hv1 : ∀ m' p, hasValue w1 p m' = hasValue w0 p m')
    by (intros m' p; unfold hasValue; by destruct (Hf m') as (-> & _)).
  assert (Hl1 : ∀ m' p, listenersOf w1 m' p = listenersOf w m' p)
    by (intros m' p; unfold listenersOf; by destruct (Hf m') as (_ & -> & _)).
  assert (Hin : n ∈ allocatedSetters (mediator w1 m)).
  { destruct (Hf m) as (_ & _ & _ & ->). rewrite decide_True by done.
    set_solver. }
  assert (Hsub : ∀ m', allocatedSetters (mediator w m')
                       ⊆ allocatedSetters (mediator w1 m')).
  { intros m'. destruct (Hf m') as (_ & _ & _ & ->). case_decide; set_solver. }
  assert (Hwritten : ∀ m' p, hasValue w0 p m' = true →
                             hasValue w p m' = true ∨ (m', p) = (m, n)).
  { assert (Hls : listenersOf w m n = []).
    { destruct (listenersOf w m n) as [| l ls] eqn:E; [done |].
      assert (Hl : l ∈ listenersOf w m n) by (rewrite E; left).
      apply Hlo in Hl. congruence. }
    destruct fuel as [| fuel]; [done |].
    rewrite setValue_unfold, Hls in Hset.
    destruct (strict_eq v (getValue m n w)).
    - injection Hset as <- <-. by left.
    - simpl in Hset. injection Hset as <- <-. intros m' p Hv.
      unfold hasValue in Hv. apply bool_decide_eq_true in Hv.
      rewrite storeValue_lookup in Hv. case_decide as Heq.
      + destruct Heq as [-> ->]. by right.
      + left. by apply bool_decide_eq_true. }
  split; [| split; [done |]; split; [done |]; split; [done |]; split].
  - apply (wellFormed_grow rank w); try done.
    + intros m' src. by destruct (Hf m') as (_ & _ & -> & _).
    + intros m' p Hv. rewrite Hv1. by apply Hmono.
    + intros m' p. rewrite Hv1. intros Hv.
      destruct (Hwritten _ _ Hv) as [Hold | [= -> ->]]; [| done].
      by apply Hsub, Ho.
    + intros m' src e p mp. destruct (Hf m') as (_ & _ & -> & _).
      intros He Hbound. rewrite Hv1. by eapply Hmono, Hb.
  - intros m'. by destruct (Hf m') as (_ & _ & -> & _).
  - intros m' p Hv. rewrite Hv1. by apply Hmono.
Qed.

Lemma map_set_elem (k p : string) (v mp : nat) (acc : list (string * nat)) :
  (p, mp) ∈ map_set k v acc → (p, mp) = (k, v) ∨ (p, mp) ∈ acc.
Proof.
  induction acc as [| [k0 v0] acc IH]; simpl.
  - intros Hin%list_elem_of_singleton. by left.
  - case_decide; subst.
    + intros [-> | Hin]%elem_of_cons; [by left | right; by right].
    + intros [-> | Hin]%elem_of_cons; [right; by left |].
      destruct (IH Hin) as [? | ?]; [by left | right; by right].
Qed.

Lemma bindGlobals_elem (fuel : nat) (m : nat) (expr : string)
      (params : list string) (acc bindings : list (string * nat)) (w : World)
      (p : string) (mp : nat) :
  bindGlobals fuel m expr params acc w = Ok bindings →
  (p, mp) ∈ bindings → (p, mp) ∈ acc ∨ hasValue w p mp = true.
Proof.
  revert acc. induction params as [| q rest IH]; intros acc; simpl.
  - intros [= <-]. by left.
  - destruct (findMediatorForParam fuel m q w) as [[mq |] | |] eqn:E; simpl;
      try done.
    intros Hrun Hin. destruct (IH _ Hrun Hin) as [Hacc | ?]; [| by right].
    apply map_set_elem in Hacc as [[= -> ->] | ?]; [| by left].
    right. by eapply findMediatorForParam_owner.
Qed.

Lemma addListener_listenersOf (w w1 : World) (m : nat) (src : string)
      (l : listener) :
  addListener m src l w = Ok w1 →
  ∃ e, expressions (mediator w m) !! src = Some e
       ∧ (∀ mp p, listenersOf w1 mp p
                  = if decide ((p, mp) ∈ mediatorsForParams e)
                    then set_add l (listenersOf w mp p)
                    else listenersOf w mp p)
       ∧ (∀ mp src' e', expressions (mediator w1 mp) !! src' = Some e' →
            ∃ e0, expressions (mediator w mp) !! src' = Some e0
                  ∧ mediatorsForParams e' = mediatorsForParams e0)
       ∧ (∀ mp src', is_Some (expressions (mediator w mp) !! src') →
            is_Some (expressions (mediator w1 mp) !! src'))
       ∧ (∀ mp, paramValues (mediator w1 mp) = paramValues (mediator w mp)
                ∧ allocatedSetters (mediator w1 mp)
                  = allocatedSetters (mediator w mp)).
Proof.
  intros Hrun.
  destruct (addListener_effect _ _ _ _ _ Hrun) as (e & He & Hl & Hx & Hm & _).
  exists e. split; [done |]. split; [| split; [| split]].
  - intros mp p. unfold listenersOf at 1. rewrite Hl. by case_decide.
  - intros mp src' e'. rewrite Hx. case_decide as Heq.
    + injection Heq as -> ->. intros [= <-]. by exists e.
    + intros He'. by exists e'.
  - intros mp src'. rewrite Hx. case_decide; [by eexists | done].
  - intros mp. by destruct (Hm mp) as (-> & -> & _).
Qed.

(** Subscribing keeps the consistency, when a listener that re-applies a
    setter re-applies an allocated one. *)
Lemma addListener_consistent (w w1 : World) (m : nat) (src : string)
      (l : listener) :
  consistent w →
  (∀ m' n' s, l = Reapply m' n' s → n' ∈ allocatedSetters (mediator w m')) →
  addListener m src l w = Ok w1 → consistent w1.
Proof.
  intros (H2 & H3 & H4 & H5 & H6) Hl Hrun.
  destruct (addListener_listenersOf _ _ _ _ _ Hrun)
    as (e & He & Hls & Hx & _ & Hm).
  assert (Hv : ∀ m' n, hasValue w1 n m' = hasValue w n m')
    by (intros m' n; unfold hasValue; by destruct (Hm m') as (-> & _)).
  split; [| split; [| split; [| split]]].
  - intros mp p. rewrite Hls. case_decide; [apply set_add_NoDup |]; apply H2.
  - intros m' n. rewrite Hv. destruct (Hm m') as (_ & ->). apply H3.
  - intros mp p l'. rewrite Hls, Hv. case_decide as Hin; [| apply H4].
    intros [Hold | ->]%set_add_cases; [by eapply H4 | by eapply H5].
  - intros m' src' e' p mp He' Hin. rewrite Hv.
    destruct (Hx _ _ _ He') as (e0 & He0 & Hbs). rewrite Hbs in Hin.
    by eapply H5.
  - intros mp p m' n' s. rewrite Hls. destruct (Hm m') as (_ & ->).
    case_decide as Hin; [| apply H6].
    intros [Hold | <-]%set_add_cases; [by eapply H6 | by eapply Hl].
Qed.

(** Subscribing a function that is not a re-applying listener keeps the
    ranks as well. *)
Lemma addListener_wellFormed rank (w w1 : World) (m : nat) (src : string)
      (l : listener) :
  wellFormed rank w →
  (∀ m' n' s, l ≠ Reapply m' n' s) →
  addListener m src l w = Ok w1 → wellFormed rank w1.
Proof.
  intros [Hr Hc] Hl Hrun. split.
  - destruct (addListener_listenersOf _ _ _ _ _ Hrun)
      as (e & He & Hls & _ & Hx & _).
    intros mp p m' n' s. rewrite Hls. intros Hin.
    assert (Hold : Reapply m' n' s ∈ listenersOf w mp p).
    { case_decide; [| done].
      apply set_add_cases in Hin as [? | Heq]; [done |]. by destruct (Hl m' n' s). }
    destruct (Hr _ _ _ _ _ Hold) as [? ?]. split; [done | by apply Hx].
  - eapply addListener_consistent; [done | | done].
    intros m' n' s ->. by destruct (Hl m' n' s).
Qed.

Lemma filter_nothing (ls : list listener) :
  filter (λ l', l' ∉ ([] : list listener)) ls = ls.
Proof.
  induction ls as [| x xs IH]; [done |].
  rewrite filter_cons_True by apply not_elem_of_nil. by rewrite IH.
Qed.

Lemma invalidate_wellFormed rank (w w1 : World) (m : nat) (src : string) :
  wellFormed rank w → invalidate m src w = Ok w1 → wellFormed rank w1.
Proof.
  intros (H1 & H2 & H3 & H4 & H5 & H6) Hrun.
  destruct (expressions (mediator w m) !! src) as [e |] eqn:He;
    [| unfold invalidate in Hrun; by rewrite He in Hrun].
  destruct (invalidate_returns _ _ _ _ He) as (w2 & Hrun2 & Hl & Hm).
  rewrite Hrun in Hrun2. injection Hrun2 as <-.
  assert (Hv : ∀ m' n, hasValue w1 n m' = hasValue w n m')
    by (intros m' n; unfold hasValue; by destruct (Hm m') as (-> & _)).
  assert (Ha : ∀ m', allocatedSetters (mediator w1 m')
                     = allocatedSetters (mediator w m')).
  { intros m'. unfold invalidate in Hrun. rewrite He in Hrun.
    injection Hrun as <-.
    by destruct (foldl_invalidateAt (myListeners e) (mediatorsForParams e) w)
      as (_ & Hf & _); destruct (Hf m') as (_ & _ & -> & _). }
  assert (Hls : ∀ mp p, ∃ ls : list listener,
            listenersOf w1 mp p = filter (λ l', l' ∉ ls) (listenersOf w mp p)).
  { intros mp p. unfold listenersOf. rewrite Hl. case_decide.
    - exists (myListeners e).
      by destruct (paramListeners (mediator w mp) !! p).
    - exists []. by rewrite filter_nothing. }
  assert (Hsub : ∀ mp p l, l ∈ listenersOf w1 mp p → l ∈ listenersOf w mp p).
  { intros mp p l. destruct (Hls mp p) as [ls ->].
    by intros [_ ?]%list_elem_of_filter. }
  split; [| split; [| split; [| split; [| split]]]].
  - intros mp p m' n' s Hin. destruct (H1 _ _ _ _ _ (Hsub _ _ _ Hin)) as [? ?].
    split; [done |]. by destruct (Hm m') as (_ & ->).
  - intros mp p. destruct (Hls mp p) as [ls ->]. apply NoDup_filter, H2.
  - intros m' n. rewrite Hv, Ha. apply H3.
  - intros mp p l Hin. rewrite Hv. by eapply H4, Hsub.
  - intros m' src' e' p mp. destruct (Hm m') as (_ & ->). rewrite Hv.
    apply H5.
  - intros mp p m' n' s Hin. rewrite Ha. by eapply H6, Hsub.
Qed.

Lemma runMicrotasks_mediators (fuel : nat) (w w1 : World) :
  runMicrotasks fuel w = Ok w1 → mediators w1 = mediators w.
Proof.
  revert w. induction fuel as [| fuel IH]; intros w; simpl; [done |].
  destruct (microtasks w) as [| [g] q]; [by intros [= <-] |].
  unfold runMicrotask. rewrite batch_setMicrotasks.
  destruct (batchListener (batch w g)) as [cb |]; simpl; [| done].
  intros Hrun. by rewrite (IH _ Hrun).
Qed.

Section Compiler.
Variable createFunction : string → option CompiledExpr.

Local Abbreviation createExpression := (createExpression createFunction).
Local Abbreviation registerParam := (registerParam createFunction).
Local Abbreviation activateEntries := (activateEntries createFunction).
Local Abbreviation activateExprRefProps :=
  (activateExprRefProps createFunction).
Local Abbreviation built := (built createFunction).

Lemma createExpression_wellFormed rank (fuel : nat) (m : nat) (src : string)
      (w w1 : World) (e : ExprRefFunction) :
  wellFormed rank w →
  createExpression fuel m src w = Ok (w1, e) →
  wellFormed rank w1.
Proof.
  intros Hwf Hrun. pose proof Hwf as (_ & _ & Ho & _ & Hb & _).
  destruct (createExpression_returns _ _ _ _ _ _ _ Hrun)
    as (Hc & Hother & Hmed & _).
  assert (Hv : ∀ m' n, hasValue w1 n m' = hasValue w n m')
    by (intros m' n; unfold hasValue; by destruct (Hmed m') as (-> & _)).
  apply (wellFormed_grow rank w); try done.
  - intros m' n. unfold listenersOf. by destruct (Hmed m') as (_ & -> & _).
  - intros m' src' Hsome.
    destruct (decide ((m', src') = (m, src))) as [[= -> ->] | Hne];
      [by eexists | by rewrite Hother].
  - intros m'. by destruct (Hmed m') as (_ & _ & -> & _).
  - intros m' n. by rewrite Hv.
  - intros m' n. rewrite Hv. destruct (Hmed m') as (_ & _ & -> & _). apply Ho.
  - intros m' src' e' p mp He' Hin. rewrite Hv.
    destruct (decide ((m', src') = (m, src))) as [[= -> ->] | Hne].
    + rewrite Hc in He'. injection He' as <-.
      unfold ParamMediator.createExpression in Hrun.
      destruct (expressions (mediator w m) !! src) as [e0 |] eqn:E0.
      * injection Hrun as <- <-. by eapply Hb.
      * destruct (createFunction src) as [f |]; [| done].
        destruct (bindGlobals fuel m src (globals f) [] w) as [bs | |] eqn:Hbind;
          simpl in Hrun; try done.
        injection Hrun as <- <-. simpl in Hin.
        destruct (bindGlobals_elem _ _ _ _ _ _ _ _ _ Hbind Hin) as [Hnil | ?];
          [by apply elem_of_nil in Hnil | done].
    + rewrite Hother in He' by done. by eapply Hb.
Qed.

Lemma recordConfig_wellFormed rank (m : nat) (param : VariableParameter)
      (w : World) :
  wellFormed rank w → wellFormed rank (recordConfig m param w).
Proof.
  apply wellFormed_ext. intros m'.
  by destruct (recordConfig_mediator m m' param w) as (-> & -> & -> & -> & _).
Qed.

(** Registering a parameter with an expression: the new parameter ranks
    below every other one. *)
Lemma registerParam_wellFormed rank (fuel : nat) (m : nat)
      (param : VariableParameter) (w w1 : World) (s : option ParameterSetter)
      (cs : list call) :
  wellFormed rank w →
  registerParam fuel m param w = Ok (w1, s, cs) →
  ∃ rank', wellFormed rank' w1.
Proof.
  intros Hwf. unfold ParamMediator.registerParam.
  destruct (param_value param) as [v |], (param_expr param) as [src |];
    try done.
  - destruct (allocateSetter fuel m (param_name param) v w)
      as [[[w0 s0] cs0] | |] eqn:Ea; simpl; try done.
    intros [= <- <- <-]. exists rank. apply recordConfig_wellFormed.
    by destruct (allocateSetter_wellFormed _ _ _ _ _ _ _ _ _ Hwf Ea).
  - set (b := param_name param).
    destruct (createExpression fuel m src w) as [[wa e] | |] eqn:Ec; simpl;
      try done.
    destruct (allocateSetter fuel m b (callExpr e VNull wa) wa)
      as [[[wb s0] cs0] | |] eqn:Ea; simpl; try done.
    destruct (addListener m src (Reapply m b src) wb) as [wc | |] eqn:El;
      simpl; try done.
    intros [= <- <- <-].
    pose proof (createExpression_wellFormed _ _ _ _ _ _ _ Hwf Ec) as Hwfa.
    destruct (allocateSetter_wellFormed _ _ _ _ _ _ _ _ _ Hwfa Ea)
      as (Hwfb & Hnone & Hin & Hlb & Heb & Hmono).
    destruct (addListener_listenersOf _ _ _ _ _ El)
      as (e3 & He3 & Hlc & _ & Hsome & _).
    pose proof Hwfa as (_ & _ & _ & Hloa & Hba & _).
    pose proof Hwfb as (Hrb & Hcb).
    assert (Hnb : (b, m) ∉ mediatorsForParams e3).
    { intros Hbound. rewrite Heb in He3.
      pose proof (Hba _ _ _ _ _ He3 Hbound). congruence. }
    assert (Hempty : listenersOf wc m b = []).
    { rewrite Hlc, decide_False, Hlb by done.
      destruct (listenersOf wa m b) as [| l ls] eqn:E; [done |].
      assert (Hl : l ∈ listenersOf wa m b) by (rewrite E; left).
      apply Hloa in Hl. congruence. }
    exists (λ x, if decide (x = (m, b)) then 0 else S (rank x)).
    apply recordConfig_wellFormed. split.
    + intros mp p m' n' s Hl.
      assert (Hne : (mp, p) ≠ (m, b)).
      { intros [= -> ->]. rewrite Hempty in Hl. by apply elem_of_nil in Hl. }
      rewrite (decide_False (P := (mp, p) = (m, b))) by done.
      rewrite Hlc in Hl.
      assert (Hcases : Reapply m' n' s ∈ listenersOf wb mp p
                       ∨ Reapply m' n' s = Reapply m b src).
      { case_decide; [by apply set_add_cases in Hl | by left]. }
      destruct Hcases as [Hold | [= -> -> ->]].
      * destruct (Hrb _ _ _ _ _ Hold) as [Hlt Hs]. split; [| by apply Hsome].
        destruct (decide ((m', n') = (m, b))); lia.
      * rewrite decide_True by done. split; [lia |]. apply Hsome. by eexists.
    + eapply addListener_consistent; [done | | done].
      by intros m' n' s [= -> -> _].
  - intros [= <- <- <-]. exists rank. by apply recordConfig_wellFormed.
Qed.

Lemma activateEntries_wellFormed rank (fuel : nat) (m g : nat)
      (hasListener : bool) (props : list (string * prop)) (w w1 : World)
      (activated : list (string * activatedProp)) :
  wellFormed rank w →
  activateEntries fuel m g hasListener props w = Ok (w1, activated) →
  wellFormed rank w1.
Proof.
  revert w w1 activated.
  induction props as [| [key [v | src]] props IH]; intros w w1 activated Hwf;
    simpl.
  - by intros [= <- <-].
  - destruct (activateEntries fuel m g hasListener props w)
      as [[w2 act] | |] eqn:E; simpl; try done.
    intros [= <- <-]. by eapply IH.
  - destruct (createExpression fuel m src w) as [[w2 e] | |] eqn:Ec; simpl;
      try done.
    pose proof (createExpression_wellFormed _ _ _ _ _ _ _ Hwf Ec) as Hwf2.
    destruct (if hasListener then addListener m src (BatchChange g key) w2
              else mret w2) as [w3 | |] eqn:Ea; simpl; try done.
    assert (Hwf3 : wellFormed rank w3).
    { destruct hasListener.
      - eapply addListener_wellFormed; [exact Hwf2 | | exact Ea]; by intros ? ? ?.
      - by injection Ea as <-. }
    destruct (activateEntries fuel m g hasListener props w3)
      as [[w4 act] | |] eqn:E; simpl; try done.
    intros [= <- <-]. by eapply IH.
Qed.

(** Every state that can be built satisfies the conditions, for some
    ranks. *)
Lemma built_wellFormed (w : World) : built w → ∃ rank, wellFormed rank w.
Proof.
  induction 1 as [w Hb
                 | fuel m n v w w1 s cs _ [rank IH] Hrun
                 | fuel m n v w w1 cs _ [rank IH] Ha Hrun
                 | fuel m param w w1 s cs _ [rank IH] Hrun
                 | fuel m src w w1 e _ [rank IH] Hrun
                 | m src id w w1 _ [rank IH] Hrun
                 | m src w w1 _ [rank IH] Hrun
                 | fuel m props listener w w1 g activated _ [rank IH] Hrun
                 | fuel w w1 _ [rank IH] Hrun].
  - eexists. by apply blank_wellFormed.
  - exists rank. by destruct (allocateSetter_wellFormed _ _ _ _ _ _ _ _ _ IH Hrun).
  - exists rank. by eapply setValue_wellFormed.
  - by eapply registerParam_wellFormed.
  - exists rank. by eapply createExpression_wellFormed.
  - exists rank. eapply addListener_wellFormed; [exact IH | | exact Hrun]; by intros ? ? ?.
  - exists rank. by eapply invalidate_wellFormed.
  - exists rank. unfold ParamMediator.activateExprRefProps in Hrun.
    cbv zeta in Hrun.
    match type of Hrun with
    | context [activateEntries _ _ _ _ _ ?w0] => set (w0' := w0) in Hrun
    end.
    destruct (activateEntries fuel m (nextBatch w)
                (bool_decide (is_Some listener)) props w0')
      as [[w2 act] | |] eqn:E; simpl in Hrun; try done.
    injection Hrun as <- <- <-.
    eapply activateEntries_wellFormed; [| done].
    by apply (wellFormed_ext rank w).
  - exists rank. apply (wellFormed_ext rank w); [| done].
    intros m. unfold mediator. by rewrite (runMicrotasks_mediators _ _ _ Hrun).
Qed.

(** In every state built from a blank hierarchy through the interface:
    every registry is a set; a name with a value has a setter; listeners
    are registered on names with a value only; every expression in a
    cache binds its variables to mediators that own them; and the
    listeners that re-apply setters are ranked, each below the parameters
    it is registered on, so that no parameter depends on itself. *)
Theorem built_consistent (w : World) :
  built w →
  registriesAreSets w
  ∧ ownedAreAllocated w
  ∧ listenersOnOwned w
  ∧ bindingsOwned w
  ∧ ∃ rank, cascadeBounded rank w.
Proof.
  intros Hb. destruct (built_wellFormed w Hb) as (rank & Hr & H1 & H2 & H3 & H4 & _).
  do 4 (split; [done |]). by exists rank.
Qed.


Lemma built_worldOf_register (fuel : nat) (m : nat) (param : VariableParameter)
      (w : World) :
  built w → built (Examples.worldOf (registerParam fuel m param w) w).
Proof.
  intros Hb. destruct (registerParam fuel m param w) as [[[w1 s] cs] | |] eqn:E;
    simpl; [| done ..]. by eapply built_register.
Qed.

Lemma built_worldOf_create (fuel : nat) (m : nat) (src : string) (w : World) :
  built w → built (Examples.worldOf1 (createExpression fuel m src w) w).
Proof.
  intros Hb. destruct (createExpression fuel m src w) as [[w1 e] | |] eqn:E;
    simpl; [| done ..]. by eapply built_create.
Qed.

Lemma built_worldOf_addListener (m : nat) (src : string) (id : nat)
      (w : World) :
  built w → built (Examples.worldOf0 (addListener m src (Callback id) w) w).
Proof.
  intros Hb. destruct (addListener m src (Callback id) w) as [w1 | |] eqn:E;
    simpl; [| done ..]. by eapply built_addListener.
Qed.

End Compiler.

Lemma blank_emptyWorld : blank emptyWorld.
Proof. intros m. unfold mediator. simpl. by rewrite lookup_empty. Qed.

Lemma blank_newMediator (parent : option nat) (w : World) :
  blank w → blank (newMediator parent w).2.
Proof.
  intros Hb m. unfold mediator, newMediator. simpl. rewrite lookup_insert.
  case_decide; [done | apply Hb].
Qed.

Lemma reactive_built : built Examples.demoCreateFunction Examples.reactive.
Proof.
  unfold Examples.reactive. cbv zeta.
  apply built_worldOf_addListener, built_worldOf_create,
    built_worldOf_register, built_worldOf_register.
  apply built_blank, blank_newMediator, blank_emptyWorld.
Qed.

Lemma built_consistent_witness :
  registriesAreSets Examples.reactive
  ∧ ∃ rank, cascadeBounded rank Examples.reactive.
Proof.
  destruct (built_consistent Examples.demoCreateFunction Examples.reactive
              reactive_built) as (Hsets & _ & _ & _ & Hrank).
  split; [exact Hsets | exact Hrank].
Defined.


End ReachabilityFacts.

(* ===================================================================== *)
(** * Properties of the sample-facet placement: bands in transit *)
(* ===================================================================== *)

Module TransitFacts.
Import SampleFacet SampleFacetFacts.
Local Open Scope Q_scope.

Lemma clamp_unit (x : Q) : 0 <= clamp x 0 1 <= 1.
Proof.
  unfold clamp. split.
  - apply Q.min_glb; [apply Q.le_max_r | lra].
  - apply Q.le_min_r.
Qed.

Lemma clamp_low (x : Q) : x <= 0 → clamp x 0 1 == 0.
Proof.
  intros Hx. unfold clamp. rewrite (Q.max_r x 0) by done.
  apply Q.min_l. lra.
Qed.

Lemma clamp_high (x : Q) : 1 <= x → clamp x 0 1 == 1.
Proof.
  intros Hx. unfold clamp. rewrite (Q.max_l x 0) by lra.
  by apply Q.min_r.
Qed.

(** [smoothstep] between ordered edges: a weight between 0 and 1, 0 up to
    the lower edge and 1 from the upper edge on. *)
Lemma smoothstep_unit (edge0 edge1 x : Q) :
  0 <= smoothstep edge0 edge1 x <= 1.
Proof.
  unfold smoothstep. cbv zeta.
  pose proof (clamp_unit ((x - edge0) / (edge1 - edge0))) as [H0 H1].
  set (t := clamp _ 0 1) in *.
  assert (Ha : 0 <= t * t) by (apply Qmult_le_0_compat; lra).
  assert (Hb : 0 <= (1 - t) * (1 - t)) by (apply Qmult_le_0_compat; lra).
  assert (Hc : 0 <= t * t * (3 - 2 * t)) by (apply Qmult_le_0_compat; lra).
  assert (Hd : 0 <= (1 - t) * (1 - t) * (1 + 2 * t))
    by (apply Qmult_le_0_compat; lra).
  assert (He : 1 - t * t * (3 - 2 * t) == (1 - t) * (1 - t) * (1 + 2 * t))
    by ring.
  split; [done |]. rewrite <- He in Hd. lra.
Qed.

Lemma smoothstep_low (edge0 edge1 x : Q) :
  edge0 < edge1 → x <= edge0 → smoothstep edge0 edge1 x == 0.
Proof.
  intros He Hx. unfold smoothstep. cbv zeta. rewrite clamp_low; [ring |].
  assert (H : 0 < edge1 - edge0) by lra.
  apply Qle_shift_div_r; [done | lra].
Qed.

Lemma smoothstep_high (edge0 edge1 x : Q) :
  edge0 < edge1 → edge1 <= x → smoothstep edge0 edge1 x == 1.
Proof.
  intros He Hx. unfold smoothstep. cbv zeta. rewrite clamp_high; [ring |].
  assert (H : 0 < edge1 - edge0) by lra.
  apply Qle_shift_div_l; [done | lra].
Qed.

(** Bands in transit are faceted. With the upper edge [0.7 + offset] of
    the transition above zero, [applySampleFacet] keeps [x] and places [y]
    between the placements of the left and of the right band: the result
    is their mix by a weight between 0 and 1 that depends on [x] only. Up
    to [x = offset] the weight is 0 and the left band places the vertex;
    from [(x - offset) * 2 = 0.7 + offset] on the weight is 1 and the
    right band places it. *)
Theorem applySampleFacet_transit (u : vec4) (offset : Q) (pos : vec2) :
  isInTransit u = true →
  0 < (7 # 10) + offset →
  let leftY := v4x u + v2y pos * v4y u in
  let rightY := v4z u + v2y pos * v4w u in
  isFacetedSamples u = true
  ∧ v2x (applySampleFacet u offset pos) = v2x pos
  ∧ (∃ fraction,
       0 <= fraction <= 1
       ∧ v2y (applySampleFacet u offset pos) == mix leftY rightY fraction
       ∧ ∀ y, v2y (applySampleFacet u offset (Vec2 (v2x pos) y))
              == mix (v4x u + y * v4y u) (v4z u + y * v4w u) fraction)
  ∧ (v2x pos <= offset → v2y (applySampleFacet u offset pos) == leftY)
  ∧ ((7 # 10) + offset <= (v2x pos - offset) * 2 →
     v2y (applySampleFacet u offset pos) == rightY).
Proof.
  intros Ht Hedge leftY rightY.
  assert (Hf : isFacetedSamples u = true).
  { destruct (isFacetedSamples u) eqn:E; [done |].
    apply vec4_ne_false in E as (Hx & Hy & Hz & Hw). simpl in *.
    assert (Hn : isInTransit u = false).
    { apply (vec2_ne_false (xy u) (zw u)). simpl. split; lra. }
    congruence. }
  assert (Hy : ∀ y, v2y (applySampleFacet u offset (Vec2 (v2x pos) y))
                    == mix (v4x u + y * v4y u) (v4z u + y * v4w u)
                         (smoothstep 0 ((7 # 10) + offset)
                            ((v2x pos - offset) * 2))).
  { intros y. unfold applySampleFacet. rewrite Hf, Ht. simpl.
    unfold mix. ring. }
  assert (Hy0 : v2y (applySampleFacet u offset pos)
                == mix leftY rightY
                     (smoothstep 0 ((7 # 10) + offset)
                        ((v2x pos - offset) * 2))).
  { unfold applySampleFacet. rewrite Hf, Ht. simpl. unfold mix, leftY, rightY.
    ring. }
  split; [done |]. split; [unfold applySampleFacet; by rewrite Hf, Ht |].
  split; [| split].
  - eexists. split; [apply smoothstep_unit |]. by split.
  - intros Hx. rewrite Hy0. unfold mix. rewrite smoothstep_low by lra. ring.
  - intros Hx. rewrite Hy0. unfold mix. rewrite smoothstep_high by lra. ring.
Qed.

Lemma applySampleFacet_transit_witness :
  v2y (applySampleFacet (Vec4 0 (1 # 2) (1 # 2) (1 # 2)) (1 # 10)
         (Vec2 0 (1 # 2)))
  == 0 + (1 # 2) * (1 # 2)
  ∧ v2y (applySampleFacet (Vec4 0 (1 # 2) (1 # 2) (1 # 2)) (1 # 10)
           (Vec2 1 (1 # 2)))
    == (1 # 2) + (1 # 2) * (1 # 2).
Proof.
  split.
  - destruct (applySampleFacet_transit (Vec4 0 (1 # 2) (1 # 2) (1 # 2))
                (1 # 10) (Vec2 0 (1 # 2))) as (_ & _ & _ & Hleft & _);
      [reflexivity | reflexivity |].
    apply Hleft. by vm_compute.
  - destruct (applySampleFacet_transit (Vec4 0 (1 # 2) (1 # 2) (1 # 2))
                (1 # 10) (Vec2 1 (1 # 2))) as (_ & _ & _ & _ & Hright);
      [reflexivity | reflexivity |].
    apply Hright. by vm_compute.
Defined.

End TransitFacts.

(* ===================================================================== *)
(** * Properties of the colour converter and of the rule builder *)
(* ===================================================================== *)

Module MarkFacts.
Import VertexBuilder MarkBuilders BatchFacts.

Section Colors.
Variable d3color : string → option (num * num * num).

Local Abbreviation color2floatArray := (color2floatArray d3color).
Local Abbreviation cachingColor2floatArray :=
  (cachingColor2floatArray d3color).
Local Abbreviation convertColors := (convertColors d3color).

(** Every entry of the cache is what the converter computes for its
    key. *)
Definition soundCache (cache : gmap string (list num)) : Prop :=
  ∀ s value, cache !! s = Some value →
    color2floatArray (ColorString s) = Ok value.

Lemma cachingColor2floatArray_step (cache : gmap string (list num))
      (color : colorValue) :
  soundCache cache → size cache ≤ 30 →
  (cachingColor2floatArray cache color).1 = color2floatArray color
  ∧ soundCache (cachingColor2floatArray cache color).2
  ∧ size (cachingColor2floatArray cache color).2 ≤ 30
  ∧ cache ⊆ (cachingColor2floatArray cache color).2.
Proof.
  intros Hs Hn. unfold MarkBuilders.cachingColor2floatArray.
  destruct color as [| s | r g b]; try done.
  destruct (decide (size cache < 30)) as [Hlt | Hge]; [| done].
  destruct (cache !! s) as [value |] eqn:E; simpl.
  - split; [by rewrite (Hs s value E) | done].
  - destruct (color2floatArray (ColorString s)) as [value | e |] eqn:Ec;
      simpl; try done.
    split; [done |]. split; [| split].
    + intros s' value'. rewrite lookup_insert. case_decide; subst.
      * by intros [= <-].
      * apply Hs.
    + rewrite map_size_insert_None by done. lia.
    + by apply insert_subseteq.
Qed.

Lemma convertColors_sound (cache : gmap string (list num))
      (colors : list colorValue) :
  soundCache cache → size cache ≤ 30 →
  (convertColors cache colors).1 = map color2floatArray colors
  ∧ soundCache (convertColors cache colors).2
  ∧ size (convertColors cache colors).2 ≤ 30.
Proof.
  revert cache. induction colors as [| color colors IH]; intros cache Hs Hn;
    [done |].
  destruct (cachingColor2floatArray_step cache color Hs Hn)
    as (Hr & Hs1 & Hn1 & _).
  simpl. destruct (cachingColor2floatArray cache color) as [r cache1].
  simpl in *. destruct (IH cache1 Hs1 Hn1) as (Hrs & Hs2 & Hn2).
  destruct (convertColors cache1 colors) as [rs cache2]. simpl in *.
  by rewrite Hr, Hrs.
Qed.

(** The cache of the colour converter cannot be seen and stays small:
    whatever colours a converter made by [createCachingColor2floatArray]
    is called with, each call returns, or throws, what
    [color2floatArray] does for that colour, and the cache never holds
    more than 30 colours. A missing colour and the empty string give
    magenta. *)
Theorem cachingColor2floatArray_transparent (colors : list colorValue) :
  (convertColors ∅ colors).1 = map color2floatArray colors
  ∧ size (convertColors ∅ colors).2 ≤ 30
  ∧ color2floatArray ColorMissing
    = Ok [Num.Fin (1 # 1); Num.Fin (0 # 1); Num.Fin (1 # 1)]
  ∧ color2floatArray (ColorString "")
    = Ok [Num.Fin (1 # 1); Num.Fin (0 # 1); Num.Fin (1 # 1)].
Proof.
  destruct (convertColors_sound ∅ colors) as (Hr & _ & Hn).
  - intros s value. by rewrite lookup_empty.
  - rewrite map_size_empty. lia.
  - done.
Qed.

(** A string that [d3-color] cannot parse makes the converter throw, and
    is not cached. *)
Theorem color2floatArray_unparsable (cache : gmap string (list num))
        (s : string) :
  s ≠ "" → d3color s = None → cache !! s = None →
  color2floatArray (ColorString s) = Throw TypeError
  ∧ cachingColor2floatArray cache (ColorString s) = (Throw TypeError, cache).
Proof.
  intros Hs Hd Hc.
  assert (H : color2floatArray (ColorString s) = Throw TypeError).
  { unfold MarkBuilders.color2floatArray. simpl.
    rewrite bool_decide_eq_false_2 by done. by rewrite Hd. }
  split; [done |]. unfold MarkBuilders.cachingColor2floatArray.
  rewrite H, Hc. by case_decide.
Qed.

End Colors.

Lemma color2floatArray_unparsable_witness :
  cachingColor2floatArray (λ _, None) ∅ (ColorString "nocolor")
  = (Throw TypeError, ∅).
Proof.
  by destruct (color2floatArray_unparsable (λ _, None) ∅ "nocolor")
    as [_ ->].
Defined.

Section Rules.
Context {datum : Type}.
Variable convert : datum → attributes.

Local Abbreviation addRule := (addRule datum convert).
Local Abbreviation ruleAddBatch := (ruleAddBatch datum convert).

(** The values current after the vertices of a rule. *)
Definition afterRule (cur : attributes) (d : datum) : attributes :=
  ruleVertex (convert d ∪ cur) (Num.Fin (1 # 2), Num.Fin (1 # 1)).

(** The values current before the [i]-th datum of a batch. *)
Definition currentBefore (cur : attributes) (data : list datum) (i : nat)
  : attributes :=
  foldl afterRule cur (take i data).

(** The six vertices of one rule. *)
Lemma addRule_strip (b : ArrayBuilder) (d : datum) :
  arrays (addRule b d)
  = arrays b ++ (ruleVertex (convert d ∪ current b) <$> ruleStrip)
  ∧ current (addRule b d) = afterRule (current b) d.
Proof.
  unfold MarkBuilders.addRule, addRuleTile, updateSide, updatePos, update,
    pushAll, updateFromDatum, afterRule, ruleVertex, ruleStrip.
  cbn [foldl seq tileCount current arrays fmap list_fmap fst snd].
  set (base := convert d ∪ current b).
  assert (Hnorm : ∀ (s s' p p' : list num) (m : attributes),
            <["side" := s]> (<["pos" := p]> (<["pos" := p']> (<["side" := s']> m)))
            = <["side" := s]> (<["pos" := p]> m)).
  { intros. apply map_eq. intros k. rewrite !lookup_insert.
    by repeat case_decide. }
  assert (Hnorm2 : ∀ (s s' p : list num) (m : attributes),
            <["side" := s]> (<["side" := s']> (<["pos" := p]> m))
            = <["side" := s]> (<["pos" := p]> m)).
  { intros. apply map_eq. intros k. rewrite !lookup_insert.
    by repeat case_decide. }
  assert (Hswap : ∀ (s p : list num) (m : attributes),
            <["pos" := p]> (<["side" := s]> m)
            = <["side" := s]> (<["pos" := p]> m)).
  { intros. apply map_eq. intros k. rewrite !lookup_insert.
    repeat case_decide; congruence. }
  unfold tileCount.
  change (Num.div (Num.of_nat 0) (Num.of_nat 1)) with (Num.Fin (0 # 1)).
  change (Num.div (Num.of_nat 1) (Num.of_nat 1)) with (Num.Fin (1 # 1)).
  rewrite <- !app_assoc. cbn [app].
  rewrite !Hswap, ?Hnorm2, ?Hnorm, ?insert_insert_eq.
  by rewrite ?Hnorm2, ?Hnorm, ?insert_insert_eq.
Qed.

Lemma foldl_addRule_prefix (data : list datum) (b : ArrayBuilder) (k : nat)
      (v : attributes) :
  arrays b !! k = Some v → arrays (foldl addRule b data) !! k = Some v.
Proof.
  revert b. induction data as [| d data IH]; intros b Hk; [done |].
  cbn [foldl]. apply IH. destruct (addRule_strip b d) as [-> _].
  by apply lookup_app_l_Some.
Qed.

Lemma foldl_addRule (data : list datum) (b : ArrayBuilder) :
  vertexCount (foldl addRule b data) = vertexCount b + 6 * length data
  ∧ current (foldl addRule b data) = foldl afterRule (current b) data
  ∧ ∀ i d, data !! i = Some d →
      ∀ j sidePos, ruleStrip !! j = Some sidePos →
        arrays (foldl addRule b data) !! (vertexCount b + 6 * i + j)
        = Some (ruleVertex (convert d ∪ currentBefore (current b) data i)
                  sidePos).
Proof.
  revert b. induction data as [| d0 data IH]; intros b.
  - simpl. split; [lia |]. split; [done |]. by intros i d Hi.
  - cbn [foldl]. destruct (addRule_strip b d0) as [Ha Hc].
    assert (Hn : vertexCount (addRule b d0) = vertexCount b + 6).
    { unfold vertexCount. rewrite Ha, length_app. done. }
    destruct (IH (addRule b d0)) as (Hcount & Hcur & Hvs).
    split; [rewrite Hcount, Hn; simpl; lia |].
    split; [by rewrite Hcur, Hc |].
    intros i d Hi j sidePos Hj.
    assert (Hjlt : j < 6) by (by apply lookup_lt_Some in Hj).
    pose proof (foldl_addRule_prefix data (addRule b d0)) as Hprefix.
    destruct i as [| i].
    + injection Hi as <-. apply Hprefix. rewrite Ha.
      rewrite Nat.mul_0_r, Nat.add_0_r.
      rewrite lookup_app_r by (unfold vertexCount; lia).
      replace (vertexCount b + j - length (arrays b)) with j
        by (unfold vertexCount; lia).
      rewrite list_lookup_fmap, Hj. done.
    + simpl in Hi. specialize (Hvs i d Hi j sidePos Hj).
      rewrite Hn in Hvs.
      replace (vertexCount b + 6 * S i + j) with (vertexCount b + 6 + 6 * i + j)
        by lia.
      rewrite Hvs. unfold currentBefore. cbn [take foldl]. by rewrite Hc.
Qed.

(** A rule is a strip of six vertices. For every datum of a batch, in
    order, [addBatch] appends six vertices that carry the sides and
    positions (-1/2, 0), (-1/2, 0), (1/2, 0), (-1/2, 1), (1/2, 1),
    (1/2, 1), the first and the last being the duplicates that separate
    the strips, and, under the other attribute names, the values of the
    converters for the datum. The batch is recorded under its key with
    the vertex count before it and six vertices for each datum, unless it
    is empty; the vertex index of the builder stays as it was. *)
Theorem ruleAddBatch_strips (key : string) (data : list datum)
        (vb : VertexBuilderState) :
  let vb1 := ruleAddBatch key data vb in
  let before := vertexCount (variableBuilder vb) in
  vertexCount (variableBuilder vb1) = before + 6 * length data
  ∧ index vb1 = index vb
  ∧ rangeMap vb1
    = (if decide (data = []) then rangeMap vb
       else map_set key {| offset := before; count := 6 * length data |}
              (rangeMap vb))
  ∧ ∀ i d, data !! i = Some d →
      ∃ base,
        (∀ a, a ≠ "side" → a ≠ "pos" → is_Some (convert d !! a) →
              base !! a = convert d !! a)
        ∧ ∀ j sidePos, ruleStrip !! j = Some sidePos →
            arrays (variableBuilder vb1) !! (before + 6 * i + j)
            = Some (ruleVertex base sidePos).
Proof.
  cbv zeta. destruct (foldl_addRule data (variableBuilder vb))
    as (Hcount & _ & Hvs).
  unfold MarkBuilders.ruleAddBatch. cbv zeta. rewrite Hcount.
  replace (vertexCount (variableBuilder vb) + 6 * length data
           - vertexCount (variableBuilder vb)) with (6 * length data) by lia.
  assert (Hvb : ∀ vb', variableBuilder vb'
                       = foldl addRule (variableBuilder vb) data →
            vertexCount (variableBuilder vb')
            = vertexCount (variableBuilder vb) + 6 * length data
            ∧ ∀ i d, data !! i = Some d →
                ∃ base,
                  (∀ a, a ≠ "side" → a ≠ "pos" → is_Some (convert d !! a) →
                        base !! a = convert d !! a)
                  ∧ ∀ j sidePos, ruleStrip !! j = Some sidePos →
                      arrays (variableBuilder vb')
                        !! (vertexCount (variableBuilder vb) + 6 * i + j)
                      = Some (ruleVertex base sidePos)).
  { intros vb' ->. split; [done |]. intros i d Hi.
    exists (convert d ∪ currentBefore (current (variableBuilder vb)) data i).
    split; [| by apply Hvs].
    intros a _ _ [v Hv]. rewrite Hv. by apply lookup_union_Some_l. }
  destruct data as [| d0 data].
  - rewrite decide_True by done. rewrite decide_True by done.
    destruct (Hvb (setVariableBuilder (variableBuilder vb) vb) eq_refl)
      as [H1 H2].
    done.
  - rewrite decide_False by (simpl; lia). rewrite decide_False by done.
    match goal with
    | |- context [setRange key ?r ?v] =>
        destruct (Hvb (setRange key r v) eq_refl) as [H1 H2]
    end.
    done.
Qed.

End Rules.

End MarkFacts.

(* ===================================================================== *)
(** * Properties of the text builder *)
(* ===================================================================== *)

Module TextFacts.
Import VertexBuilder MarkBuilders BatchFacts.

Section Text.
Context {datum : Type}.
Variable convert : datum → attributes.
Variable metadata : FontMetadata.
Variable properties : TextProperties.
Variable str : datum → list nat.

Local Abbreviation charTable := (charTable metadata).
Local Abbreviation getChar := (getChar metadata).
Local Abbreviation drawn := (drawn metadata).
Local Abbreviation baselineOffset := (baselineOffset metadata properties).
Local Abbreviation sumAdvances := (sumAdvances metadata).
Local Abbreviation addGlyph := (addGlyph metadata).
Local Abbreviation addGlyphs := (addGlyphs metadata).
Local Abbreviation addText := (addText datum convert metadata properties str).
Local Abbreviation addTexts :=
  (addTexts datum convert metadata properties str).
Local Abbreviation textAddBatch :=
  (textAddBatch datum convert metadata properties str).
Local Abbreviation textVertexCount := (textVertexCount datum metadata str).

Lemma getChar_fallback (fallback : Char) (code : nat) :
  charTable !! 63 = Some fallback → is_Some (getChar code).
Proof.
  intros Hf. unfold MarkBuilders.getChar.
  destruct (charTable !! code); [by eexists | by rewrite Hf].
Qed.

Lemma sumAdvances_returns (fallback : Char) (codes : list nat) (acc : num) :
  charTable !! 63 = Some fallback → ∃ total, sumAdvances acc codes = Ok total.
Proof.
  intros Hf. revert acc. induction codes as [| code codes IH]; intros acc;
    cbn [MarkBuilders.sumAdvances]; [by eexists |].
  destruct (getChar_fallback fallback code Hf) as [c ->]. simpl. apply IH.
Qed.

Lemma vertexCount_addGlyph (baseline x : num) (c : Char) (b : ArrayBuilder) :
  vertexCount (addGlyph baseline x c b) = vertexCount b + 6.
Proof.
  unfold MarkBuilders.addGlyph, updateCX, updateCY, updateTX, updateTY.
  cbv zeta.
  repeat (rewrite vertexCount_pushAll || rewrite vertexCount_update). lia.
Qed.

Lemma addGlyphs_returns (fallback : Char) (baseline x : num)
      (codes : list nat) (b : ArrayBuilder) :
  charTable !! 63 = Some fallback →
  ∃ b1, addGlyphs baseline x codes b = Ok b1
        ∧ vertexCount b1
          = vertexCount b
            + 6 * length (filter (λ code, drawn code = true) codes).
Proof.
  intros Hf. revert x b. induction codes as [| code codes IH]; intros x b;
    cbn [MarkBuilders.addGlyphs].
  - exists b. split; [done | simpl; lia].
  - destruct (getChar_fallback fallback code Hf) as [c Hc]. rewrite Hc.
    assert (Hd : drawn code = bool_decide (id c ≠ 32))
      by (unfold MarkBuilders.drawn; by rewrite Hc).
    destruct (decide (id c = 32)) as [Hs | Hs].
    + rewrite filter_cons_False; [apply IH |].
      rewrite Hd, bool_decide_eq_false_2; [done | by intros ?].
    + rewrite filter_cons_True by (by rewrite Hd, bool_decide_eq_true_2).
      destruct (IH (Num.add x (Num.div (xadvance c) (base metadata)))
                  (addGlyph baseline x c b)) as (b1 & -> & Hn).
      exists b1. split; [done |]. rewrite Hn, vertexCount_addGlyph. simpl. lia.
Qed.

Lemma addText_returns (fallback : Char) (baseline : num) (b : ArrayBuilder)
      (d : datum) :
  charTable !! 63 = Some fallback →
  ∃ b1, addText baseline b d = Ok b1
        ∧ vertexCount b1 = vertexCount b + textVertexCount d.
Proof.
  intros Hf. unfold MarkBuilders.addText, MarkBuilders.textVertexCount.
  destruct (str d) as [| first rest] eqn:E.
  - exists b. split; [done |]. simpl. lia.
  - destruct (sumAdvances_returns fallback (first :: rest) (Num.Fin (0 # 1)) Hf)
      as [total ->].
    destruct (getChar_fallback fallback first Hf) as [c ->].
    cbn [mbind result_bind MarkBuilders.ofChar mret result_ret].
    match goal with
    | |- context [addGlyphs baseline ?x (first :: rest) ?b0] =>
        destruct (addGlyphs_returns fallback baseline x (first :: rest) b0 Hf)
          as (b1 & -> & Hn)
    end.
    exists b1. split; [done |]. rewrite Hn. done.
Qed.

Lemma addTexts_returns (fallback : Char) (baseline : num) (data : list datum)
      (b : ArrayBuilder) :
  charTable !! 63 = Some fallback →
  ∃ b1, addTexts baseline b data = Ok b1
        ∧ vertexCount b1
          = vertexCount b + sum_list (map textVertexCount data).
Proof.
  intros Hf. revert b. induction data as [| d data IH]; intros b; simpl.
  - exists b. split; [done | lia].
  - destruct (addText_returns fallback baseline b d Hf) as (b1 & -> & Hn).
    simpl. destruct (IH b1) as (b2 & -> & Hn2). exists b2.
    split; [done |]. rewrite Hn2, Hn. lia.
Qed.

(** With the glyph 63 in the font, the fallback for every code the font
    lacks, [addBatch] of a text builder returns, and draws six vertices
    for each character whose glyph is not the space (the glyph with id
    32): a character the font lacks is drawn as the fallback, an empty
    string gives no vertex. The batch is recorded under its key with the
    vertex count before it and its number of vertices, unless it has
    none; the vertex index of the builder stays as it was. *)
Theorem textAddBatch_glyphs (key : string) (data : list datum)
        (vb : VertexBuilderState) (fallback : Char) :
  charTable !! 63 = Some fallback →
  let before := vertexCount (variableBuilder vb) in
  let total := sum_list (map textVertexCount data) in
  ∃ vb1,
    textAddBatch key data vb = Ok vb1
    ∧ vertexCount (variableBuilder vb1) = before + total
    ∧ index vb1 = index vb
    ∧ rangeMap vb1
      = (if decide (total = 0) then rangeMap vb
         else map_set key {| offset := before; count := total |} (rangeMap vb))
    ∧ (∀ code, drawn code = true ↔
         ∃ c, (charTable !! code = Some c
               ∨ charTable !! code = None ∧ c = fallback)
              ∧ id c ≠ 32).
Proof.
  intros Hf before total. unfold MarkBuilders.textAddBatch.
  assert (Hb : ∃ baseline, baselineOffset = Ok baseline).
  { unfold MarkBuilders.baselineOffset.
    destruct (getChar_fallback fallback 120 Hf) as [c1 ->].
    destruct (getChar_fallback fallback 88 Hf) as [c2 ->]. simpl.
    by eexists. }
  destruct Hb as [baseline ->]. cbn [mbind result_bind mret result_ret].
  destruct (addTexts_returns fallback baseline data (variableBuilder vb) Hf)
    as (b1 & -> & Hn).
  cbn [mbind result_bind mret result_ret].
  eexists. split; [done |]. fold before total in Hn. rewrite Hn.
  replace (before + total - vertexCount (variableBuilder vb)) with total
    by (unfold before; lia).
  split; [destruct (decide (total = 0)); exact Hn |].
  split; [by destruct (decide (total = 0)) |].
  split; [by destruct (decide (total = 0)) |].
  intros code. unfold MarkBuilders.drawn, MarkBuilders.getChar.
  destruct (charTable !! code) as [c |] eqn:E.
  - rewrite bool_decide_eq_true. split.
    + intros Hne. exists c. split; [by left | done].
    + intros (c' & [[= <-] | [? _]] & Hne); done.
  - rewrite Hf, bool_decide_eq_true. split.
    + intros Hne. exists fallback. split; [by right | done].
    + intros (c' & [? | [_ ->]] & Hne); done.
Qed.

(** A font without the glyph 63 and without the glyph of [x] or of [X]
    cannot be used: [addBatch] throws whatever the data, even for none. *)
Theorem textAddBatch_missing_glyph (key : string) (data : list datum)
        (vb : VertexBuilderState) :
  charTable !! 63 = None →
  charTable !! 120 = None ∨ charTable !! 88 = None →
  textAddBatch key data vb = Throw TypeError.
Proof.
  intros Hf Hx. unfold MarkBuilders.textAddBatch, MarkBuilders.baselineOffset,
    MarkBuilders.getChar.
  rewrite Hf. destruct (charTable !! 120) as [c1 |]; [| done].
  destruct Hx as [? | ->]; done.
Qed.

End Text.

Lemma textAddBatch_glyphs_witness :
  ∃ vb1,
    MoreExamples.textAddBatch MoreExamples.demoFont "k" [[65; 32; 66]; []]
      Examples.newBuilder
    = Ok vb1
    ∧ vertexCount (variableBuilder vb1) = 12.
Proof.
  destruct (textAddBatch_glyphs (λ _, ∅) MoreExamples.demoFont
              MoreExamples.leftAligned (λ d, d) "k" [[65; 32; 66]; []]
              Examples.newBuilder (MoreExamples.glyph 63) eq_refl)
    as (vb1 & Hrun & Hn & _).
  exists vb1. split; [exact Hrun | exact Hn].
Defined.

Lemma textAddBatch_missing_glyph_witness :
  MoreExamples.textAddBatch MoreExamples.poorFont "k" [] Examples.newBuilder
  = Throw TypeError.
Proof.
  apply (textAddBatch_missing_glyph (λ _, ∅) MoreExamples.poorFont
           MoreExamples.leftAligned (λ d, d) "k" [] Examples.newBuilder).
  - reflexivity.
  - left. reflexivity.
Defined.

End TextFacts.

(* ===================================================================== *)
(** * Properties of the vertices of points and of squeezed rects *)
(* ===================================================================== *)

Module GeometryFacts.
Import VertexBuilder BatchFacts.

Section Points.
Context {datum : Type}.
Variable convert : datum → attributes.

Local Abbreviation addPoint := (addPoint datum convert).
Local Abbreviation addBatch := (addBatch datum convert).

(** The vertices of a sequence of points: each is the values the
    converters compute for its point, over the vertex before it. *)
Fixpoint pointVertices (cur : attributes) (points : list datum)
  : list attributes :=
  match points with
  | [] => []
  | p :: rest => (convert p ∪ cur) :: pointVertices (convert p ∪ cur) rest
  end.

Lemma foldl_addPoint_arrays (points : list datum) (vb : VertexBuilderState) :
  arrays (variableBuilder (foldl addPoint vb points))
  = arrays (variableBuilder vb)
    ++ pointVertices (current (variableBuilder vb)) points.
Proof.
  revert vb. induction points as [| p points IH]; intros vb; simpl.
  - by rewrite app_nil_r.
  - rewrite IH. simpl. by rewrite <- app_assoc.
Qed.

Lemma pointVertices_lookup (points : list datum) (cur : attributes) (i : nat)
      (p : datum) :
  points !! i = Some p →
  ∃ v, pointVertices cur points !! i = Some v
       ∧ convert p ⊆ v
       ∧ ∀ a, convert p !! a = None →
           v !! a = match i with
                    | 0 => cur !! a
                    | S j => pointVertices cur points !! j ≫= (.!! a)
                    end.
Proof.
  revert cur i. induction points as [| p0 points IH]; intros cur i Hi; [done |].
  destruct i as [| i].
  - injection Hi as ->. exists (convert p ∪ cur). split; [done |].
    split; [apply map_union_subseteq_l |].
    intros a Ha. by rewrite lookup_union_r.
  - simpl in Hi. destruct (IH (convert p0 ∪ cur) i Hi) as (v & Hv & Hsub & Hrest).
    exists v. split; [done |]. split; [done |]. intros a Ha.
    rewrite (Hrest a Ha). by destruct i.
Qed.

(** [addBatch] stores the points in order, one vertex each: the vertex
    of a point holds, for every attribute a converter computes from the
    point, the value computed; an attribute no converter computes from
    the point keeps the value of the vertex before (of the builder's
    current values, for the first point). *)
Theorem addBatch_vertices (key : string) (points : list datum)
        (vb : VertexBuilderState) :
  ∃ vertices,
    arrays (variableBuilder (addBatch key points vb))
    = arrays (variableBuilder vb) ++ vertices
    ∧ length vertices = length points
    ∧ ∀ i p, points !! i = Some p →
        ∃ v, vertices !! i = Some v
             ∧ convert p ⊆ v
             ∧ ∀ a, convert p !! a = None →
                 v !! a = match i with
                          | 0 => current (variableBuilder vb) !! a
                          | S j => vertices !! j ≫= (.!! a)
                          end.
Proof.
  exists (pointVertices (current (variableBuilder vb)) points).
  split; [| split].
  - unfold VertexBuilder.addBatch. cbv zeta.
    case_decide; simpl; apply foldl_addPoint_arrays.
  - generalize (current (variableBuilder vb)).
    induction points as [| p points IH]; intros cur; simpl; [done |].
    by rewrite IH.
  - intros i p Hi. by apply pointVertices_lookup.
Qed.

End Points.

(** ** Squeezed rects *)







(** ** The strip of a rect *)

Lemma append_x_y (p : string) : p +:+ "x" ≠ p +:+ "y".
Proof. induction p as [| c p IH]; simpl; [done |]. by intros [= ?]. Qed.

Lemma append_x_width (p : string) : p +:+ "x" ≠ "width".
Proof.
  intros H. do 5 (destruct p as [| ? p]; simpl in H; [done |];
                  injection H as _ H).
  by destruct p.
Qed.

Lemma append_x_height (p : string) : p +:+ "x" ≠ "height".
Proof.
  intros H. do 6 (destruct p as [| ? p]; simpl in H; [done |];
                  injection H as _ H).
  by destruct p.
Qed.

Lemma append_y_width (p : string) : p +:+ "y" ≠ "width".
Proof.
  intros H. do 5 (destruct p as [| ? p]; simpl in H; [done |];
                  injection H as _ H).
  by destruct p.
Qed.

Lemma append_y_height (p : string) : p +:+ "y" ≠ "height".
Proof.
  intros H. do 6 (destruct p as [| ? p]; simpl in H; [done |];
                  injection H as _ H).
  by destruct p.
Qed.

Section Rects.
Context {datum : Type}.
Variable convert : datum → attributes.
Variables xAccessor x2Accessor yAccessor y2Accessor : datum → num.
Variable squeezeEncoder : datum → option string.
Variable ATTRIBUTE_PREFIX : string.
Variable visibleRange : num * num.

Local Abbreviation addRect :=
  (addRect datum convert yAccessor y2Accessor squeezeEncoder ATTRIBUTE_PREFIX).
Local Abbreviation addRectDatum :=
  (addRectDatum datum convert xAccessor x2Accessor yAccessor y2Accessor
     squeezeEncoder ATTRIBUTE_PREFIX visibleRange).
Local Abbreviation fullyOutside :=
  (fullyOutside datum xAccessor x2Accessor visibleRange).
Local Abbreviation clamped := (clamped datum xAccessor x2Accessor visibleRange).


(** The attributes the rect builder sets itself. *)
Definition rectAttributes : list string :=
  [ATTRIBUTE_PREFIX +:+ "x"; ATTRIBUTE_PREFIX +:+ "y"; "width"; "height"].

Lemma update_mk (a : string) (v : num) (c : attributes)
      (l : list attributes) :
  update a v {| current := c; arrays := l |}
  = {| current := <[a := [v]]> c; arrays := l |}.
Proof. done. Qed.

Lemma pushAll_mk (c : attributes) (l : list attributes) :
  pushAll {| current := c; arrays := l |}
  = {| current := c; arrays := l ++ [c] |}.
Proof. done. Qed.

Lemma updateFromDatum_mk (d : datum) (c : attributes) (l : list attributes) :
  updateFromDatum datum convert d {| current := c; arrays := l |}
  = {| current := convert d ∪ c; arrays := l |}.
Proof. done. Qed.

(** A vertex with exactly these values. *)
Definition vertexAt (v : attributes) (X Y W H : num) : Prop :=
  v !! (ATTRIBUTE_PREFIX +:+ "x") = Some [X]
  ∧ v !! (ATTRIBUTE_PREFIX +:+ "y") = Some [Y]
  ∧ v !! "width" = Some [W]
  ∧ v !! "height" = Some [H].

(** The x position of the two vertices of a tile. *)
Definition tileX (x width : num) (i : nat) : num :=
  if Num.isFinite width then Num.add x (Num.mul width (Num.of_nat i))
  else if decide (i = 0) then Num.NegInf else Num.PosInf.

(** The six vertices of a rect that is not squeezed. *)
Lemma addRect_strip (d : datum) (x x2 : num) (b : ArrayBuilder) :
  squeezed (squeezeEncoder d) = None →
  let y := (ordered (yAccessor d, y2Accessor d)).1 in
  let y2 := (ordered (yAccessor d, y2Accessor d)).2 in
  let w := Num.sub x2 x in
  let h := Num.sub y2 y in
  ∃ v0 v1 v2 v3 v4 v5,
    addRect d x x2 b
    = Ok {| current := v5; arrays := arrays b ++ [v0; v1; v2; v3; v4; v5] |}
    ∧ vertexAt v0 x y (Num.neg w) (Num.neg h)
    ∧ vertexAt v1 (tileX x w 0) y (Num.neg w) (Num.neg h)
    ∧ vertexAt v2 (tileX x w 0) y2 (Num.neg w) h
    ∧ vertexAt v3 (tileX x w 1) y w (Num.neg h)
    ∧ vertexAt v4 (tileX x w 1) y2 w h
    ∧ vertexAt v5 x2 y2 w h
    ∧ Forall (λ v, ∀ a, a ∉ rectAttributes →
                v !! a = (convert d ∪ current b) !! a)
        [v0; v1; v2; v3; v4; v5].
Proof.
  clear xAccessor x2Accessor visibleRange.
  intros Hsq. unfold ordered. cbn [fst snd].
  unfold VertexBuilder.addRect. cbv zeta.
  destruct (if Num.gt (yAccessor d) (y2Accessor d)
            then (y2Accessor d, yAccessor d)
            else (yAccessor d, y2Accessor d)) as [y y2] eqn:Ey.
  cbn [fst snd].
  rewrite Hsq. unfold tileCount. cbn [seq foldl].
  unfold addTile, tileCount. cbv zeta.
  rewrite !(decide_True (P := 0 = 0)) by done.
  rewrite !(decide_False (P := 1 = 0)) by done.
  rewrite !(decide_True (P := 1 ≤ 1)) by done.
  change (Num.div (Num.of_nat 0) (Num.of_nat 1)) with (Num.of_nat 0).
  change (Num.div (Num.of_nat 1) (Num.of_nat 1)) with (Num.of_nat 1).
  assert (Ht0 : (if Num.isFinite (Num.sub x2 x)
                 then Num.add x (Num.mul (Num.sub x2 x) (Num.of_nat 0))
                 else Num.NegInf) = tileX x (Num.sub x2 x) 0) by done.
  assert (Ht1 : (if Num.isFinite (Num.sub x2 x)
                 then Num.add x (Num.mul (Num.sub x2 x) (Num.of_nat 1))
                 else Num.PosInf) = tileX x (Num.sub x2 x) 1) by done.
  rewrite !Ht0, !Ht1. clear Ht0 Ht1.
  generalize (tileX x (Num.sub x2 x) 0) (tileX x (Num.sub x2 x) 1).
  intros tx0 tx1.
  generalize (Num.sub x2 x) (Num.sub y2 y). intros w h.
  unfold updateX, updateY, updateWidth, updateHeight, vertexAt, rectAttributes.
  pose proof (append_x_y ATTRIBUTE_PREFIX) as Hxy.
  pose proof (append_x_width ATTRIBUTE_PREFIX) as Hxw.
  pose proof (append_x_height ATTRIBUTE_PREFIX) as Hxh.
  pose proof (append_y_width ATTRIBUTE_PREFIX) as Hyw.
  pose proof (append_y_height ATTRIBUTE_PREFIX) as Hyh.
  set (px := ATTRIBUTE_PREFIX +:+ "x") in *.
  set (py := ATTRIBUTE_PREFIX +:+ "y") in *.
  clearbody px py.
  destruct b as [cur arr].
  repeat (rewrite updateFromDatum_mk || rewrite update_mk || rewrite pushAll_mk).
  cbn [current arrays].
  eexists _, _, _, _, _, _. split.
  { rewrite <- !app_assoc. reflexivity. }
  assert (Hother : ∀ (a k : string) (v : list num) (m : attributes),
            a ∉ [px; py; "width"; "height"] → k ∈ [px; py; "width"; "height"] →
            <[k := v]> m !! a = m !! a).
  { intros a k v m Ha Hk. apply lookup_insert_ne. by intros ->. }
  assert (Hin : ∀ k, k = px ∨ k = py ∨ k = "width" ∨ k = "height" →
                     k ∈ [px; py; "width"; "height"]).
  { intros k [-> | [-> | [-> | ->]]]; repeat (first [by left | right]). }
  do 6 (split;
        [repeat split;
         repeat (rewrite lookup_insert_eq
                 || rewrite lookup_insert_ne by (done || congruence));
         done |]).
  repeat apply Forall_cons_2; try apply Forall_nil_2.
  all: intros a Ha.
  all: repeat (rewrite Hother; [| done | apply Hin; tauto]).
  all: try done.
  rewrite !lookup_union.
  repeat (rewrite Hother; [| done | apply Hin; tauto]).
  rewrite lookup_union. by destruct (convert d !! a), (cur !! a).
Qed.


(** A rect without a finite width is drawn across the whole axis. When
    the width of a rect that is not squeezed is not finite, the two
    vertices after the first are at minus infinity and the two before
    the last at plus infinity, whatever the ends of the rect are; the
    first vertex is at its start and the last at its end. *)
Theorem addRectDatum_unbounded (b : ArrayBuilder) (d : datum) (x x2 : num) :
  fullyOutside d = false →
  clamped d = (x, x2) →
  squeezed (squeezeEncoder d) = None →
  Num.isFinite (Num.sub x2 x) = false →
  let y := (ordered (yAccessor d, y2Accessor d)).1 in
  let y2 := (ordered (yAccessor d, y2Accessor d)).2 in
  let w := Num.sub x2 x in
  let h := Num.sub y2 y in
  ∃ v0 v1 v2 v3 v4 v5 b1,
    addRectDatum b d = Ok b1
    ∧ arrays b1 = arrays b ++ [v0; v1; v2; v3; v4; v5]
    ∧ vertexAt v0 x y (Num.neg w) (Num.neg h)
    ∧ vertexAt v1 Num.NegInf y (Num.neg w) (Num.neg h)
    ∧ vertexAt v2 Num.NegInf y2 (Num.neg w) h
    ∧ vertexAt v3 Num.PosInf y w (Num.neg h)
    ∧ vertexAt v4 Num.PosInf y2 w h
    ∧ vertexAt v5 x2 y2 w h.
Proof.
  intros Hout Hcl Hsq Hw. cbv zeta.
  rewrite (RectFacts.addRectDatum_steps convert xAccessor x2Accessor yAccessor
             y2Accessor squeezeEncoder ATTRIBUTE_PREFIX visibleRange).
  rewrite Hout, Hcl. cbn [fst snd].
  destruct (addRect_strip d x x2 b Hsq)
    as (v0 & v1 & v2 & v3 & v4 & v5 & Hrun & H0 & H1 & H2 & H3 & H4 & H5 & Ho).
  cbv zeta in *. unfold tileX in *. rewrite Hw in *.
  rewrite (decide_True (P := 0 = 0)) in * by done.
  rewrite (decide_False (P := 1 = 0)) in * by done.
  exists v0, v1, v2, v3, v4, v5. eexists. split; [exact Hrun |]. done.
Qed.

End Rects.


Lemma addRectDatum_unbounded_witness :
  ∃ v0 v1 v2 v3 v4 v5 b1,
    Examples.rectAddDatum Examples.everywhere emptyArrayBuilder
      MoreExamples.halfLine
    = Ok b1
    ∧ arrays b1 = [v0; v1; v2; v3; v4; v5]
    ∧ v0 !! "attr_x" = Some [Examples.int 5]
    ∧ v1 !! "attr_x" = Some [Num.NegInf].
Proof.
  destruct (addRectDatum_unbounded Examples.rectConvert Examples.x Examples.x2
              Examples.y Examples.y2 Examples.squeeze "attr_"
              Examples.everywhere emptyArrayBuilder MoreExamples.halfLine
              (Examples.int 5) Num.PosInf)
    as (v0 & v1 & v2 & v3 & v4 & v5 & b1 & Hrun & Harr & H0 & H1 & _);
    [reflexivity | reflexivity | reflexivity | reflexivity |].
  exists v0, v1, v2, v3, v4, v5, b1. split; [exact Hrun |].
  split; [exact Harr |].
  destruct H0 as (Hx0 & _). destruct H1 as (Hx1 & _).
  split; [exact Hx0 | exact Hx1].
Defined.

End GeometryFacts.

(* ===================================================================== *)
(** * Properties of the parameter mediator: parameters follow their
      expressions *)
(* ===================================================================== *)

Module SettleFacts.
Import ParamMediator LookupFacts SetterFacts ExpressionFacts TickFacts
       RegistrationFacts MediatorFacts SubscriptionFacts ReachabilityFacts.

(** The value [a] is the value [b], or is strictly equal to it: what a
    setter called with [b] leaves in the store. *)
Definition sameValue (a b : value) : Prop := a = b ∨ strict_eq b a = true.

(** The parameter [n'] of mediator [m'] has the value of the expression
    [src] of that mediator. *)
Definition follows (w : World) (m' : nat) (n' : string) (src : string) : Prop :=
  ∃ e, expressions (mediator w m') !! src = Some e
       ∧ sameValue (getValue m' n' w) (callExpr e VNull w).

(** A listener that re-applies a setter is registered for every variable
    of its expression. *)
Definition subscribed (w : World) : Prop :=
  ∀ m q m' n' src e p mp,
    Reapply m' n' src ∈ listenersOf w m q →
    expressions (mediator w m') !! src = Some e →
    (p, mp) ∈ mediatorsForParams e →
    Reapply m' n' src ∈ listenersOf w mp p.

(** A parameter is re-applied from one expression only. *)
Definition singleSource (w : World) : Prop :=
  ∀ m1 q1 m2 q2 m' n' s1 s2,
    Reapply m' n' s1 ∈ listenersOf w m1 q1 →
    Reapply m' n' s2 ∈ listenersOf w m2 q2 → s1 = s2.

(** A compiled function reads the global object through its properties
    only. *)
Definition respectful (f : CompiledExpr) : Prop :=
  ∀ g g' d, (∀ x, g x = g' x) → run f g d = run f g' d.

Definition respectfulExpressions (w : World) : Prop :=
  ∀ m src e, expressions (mediator w m) !! src = Some e → respectful (fn e).

(** Every re-applied parameter that is not in [dirty] follows its
    expression. *)
Definition settledBut (dirty : nat → string → Prop) (w : World) : Prop :=
  ∀ m q m' n' src,
    Reapply m' n' src ∈ listenersOf w m q → ¬ dirty m' n' →
    follows w m' n' src.

Lemma subscribed_sameStructure (w w' : World) :
  sameStructure w w' → subscribed w → subscribed w'.
Proof.
  intros Hs H m q m' n' src e p mp.
  rewrite !(sameStructure_listenersOf w w') by done.
  destruct (Hs m') as (_ & -> & _). apply H.
Qed.

Lemma singleSource_sameStructure (w w' : World) :
  sameStructure w w' → singleSource w → singleSource w'.
Proof.
  intros Hs H m1 q1 m2 q2 m' n' s1 s2.
  rewrite !(sameStructure_listenersOf w w') by done. apply H.
Qed.

Lemma respectfulExpressions_sameStructure (w w' : World) :
  sameStructure w w' → respectfulExpressions w → respectfulExpressions w'.
Proof.
  intros Hs H m src e. destruct (Hs m) as (_ & -> & _). apply H.
Qed.

Lemma map_get_elem (x : string) (mp : nat) (bindings : list (string * nat)) :
  map_get x bindings = Some mp → (x, mp) ∈ bindings.
Proof.
  induction bindings as [| [k v] bindings IH]; simpl; [done |].
  case_decide; subst.
  - intros [= ->]. by left.
  - intros Hget. right. by apply IH.
Qed.

(** An expression has the same value in two worlds that agree on the
    variables it is bound to. *)
Lemma callExpr_agree (e : ExprRefFunction) (d : value) (w w' : World) :
  respectful (fn e) →
  (∀ p mp, (p, mp) ∈ mediatorsForParams e →
     paramValues (mediator w' mp) !! p = paramValues (mediator w mp) !! p) →
  callExpr e d w' = callExpr e d w.
Proof.
  intros Hr Hsame. unfold callExpr. apply Hr. intros x. unfold globalObject.
  destruct (map_get x (mediatorsForParams e)) as [mp |] eqn:E; [| done].
  unfold getValue. by rewrite (Hsame x mp (map_get_elem _ _ _ E)).
Qed.

Lemma follows_agree (w w' : World) (m' : nat) (n' src : string) :
  respectfulExpressions w →
  expressions (mediator w' m') = expressions (mediator w m') →
  paramValues (mediator w' m') !! n' = paramValues (mediator w m') !! n' →
  (∀ e p mp, expressions (mediator w m') !! src = Some e →
     (p, mp) ∈ mediatorsForParams e →
     paramValues (mediator w' mp) !! p = paramValues (mediator w mp) !! p) →
  follows w m' n' src → follows w' m' n' src.
Proof.
  intros Hr He Hv Hdeps (e & Hc & Hsame). exists e. rewrite He.
  split; [done |]. unfold getValue. rewrite Hv.
  rewrite (callExpr_agree e VNull w w'); [done | by eapply Hr |].
  intros p mp Hin. by eapply Hdeps.
Qed.

Lemma settledBut_mono (dirty dirty' : nat → string → Prop) (w : World) :
  (∀ m' n', dirty m' n' → dirty' m' n') →
  settledBut dirty w → settledBut dirty' w.
Proof. intros Hd H m q m' n' src Hin Hn. eapply H; [done |]. auto. Qed.

Lemma settledBut_mediators (dirty : nat → string → Prop) (w w' : World) :
  respectfulExpressions w →
  (∀ m, mediator w' m = mediator w m) → settledBut dirty w → settledBut dirty w'.
Proof.
  intros Hr Hm H m q m' n' src. unfold listenersOf. rewrite Hm. intros Hin Hn.
  apply (follows_agree w w'); try done.
  - by rewrite Hm.
  - by rewrite Hm.
  - intros e p mp _ _. by rewrite Hm.
  - by eapply H.
Qed.

(** What the induction on the recursion bound proves of a setter call:
    the parameters that followed their expressions before the call do so
    after it, the parameter set apart; the values of the parameters that
    do not rank below the one set are as before, and the one set has the
    value it was set to. *)
Definition settles (rank : nat * string → nat) (fuel : nat) : Prop :=
  ∀ (dirty : nat → string → Prop) m n v w w' cs,
    wellFormed rank w → subscribed w → singleSource w →
    respectfulExpressions w →
    n ∈ allocatedSetters (mediator w m) →
    settledBut (λ m' n', dirty m' n' ∨ (m', n') = (m, n)) w →
    setValue fuel m n v w = Ok (w', cs) →
    settledBut (λ m' n', dirty m' n' ∨ (m', n') = (m, n)) w'
    ∧ (∀ m1 n1, rank (m, n) ≤ rank (m1, n1) → (m1, n1) ≠ (m, n) →
         paramValues (mediator w' m1) !! n1 = paramValues (mediator w m1) !! n1)
    ∧ sameValue (getValue m n w') v
    ∧ sameStructure w w'.

Lemma notify_settles rank (fuel R : nat) :
  settles rank fuel →
  ∀ (listeners : list listener) (dirty : nat → string → Prop) w w' cs,
    wellFormed rank w → subscribed w → singleSource w →
    respectfulExpressions w →
    NoDup listeners →
    (∀ m' n' src, Reapply m' n' src ∈ listeners →
       rank (m', n') < R ∧ ∃ m q, Reapply m' n' src ∈ listenersOf w m q) →
    settledBut (λ m' n', dirty m' n' ∨ ∃ src, Reapply m' n' src ∈ listeners) w →
    notify (setValue fuel) listeners w = Ok (w', cs) →
    settledBut dirty w'
    ∧ (∀ m1 n1, R ≤ rank (m1, n1) →
         paramValues (mediator w' m1) !! n1 = paramValues (mediator w m1) !! n1)
    ∧ sameStructure w w'.
Proof.
  intros IH. induction listeners as [| l rest IHrest];
    intros dirty w w' cs Hwf Hsub Hone Hresp Hnd Hls Hset; simpl.
  - intros [= <- <-]. split; [| split; [done | apply sameStructure_refl]].
    eapply settledBut_mono; [| exact Hset].
    intros m' n' [Hd | [src Hin]]; [done | by apply elem_of_nil in Hin].
  - destruct (invokeListener (setValue fuel) l w) as [[w1 c] | |] eqn:E; simpl;
      try done.
    destruct (notify (setValue fuel) rest w1) as [[w2 cs'] | |] eqn:E'; simpl;
      try done.
    intros [= <- <-]. apply NoDup_cons in Hnd as [Hl Hnd].
    assert (H1 : wellFormed rank w1 ∧ sameStructure w w1
                 ∧ settledBut (λ m' n', dirty m' n'
                                        ∨ ∃ src, Reapply m' n' src ∈ rest) w1
                 ∧ ∀ m1 n1, R ≤ rank (m1, n1) →
                     paramValues (mediator w1 m1) !! n1
                     = paramValues (mediator w m1) !! n1).
    { destruct l as [mp p s0 | g key | id]; simpl in E.
      - destruct (expressions (mediator w mp) !! s0) as [e |] eqn:He; [| done].
        destruct (setValue fuel mp p (callExpr e VNull w) w)
          as [[w0 cs0] | |] eqn:E0; simpl in E; try done.
        injection E as <- <-.
        destruct (Hls mp p s0) as [Hrank (mq & q & Hreg)]; [by left |].
        pose proof Hwf as (Hb & _ & _ & _ & _ & Htgt).
        assert (Halloc : p ∈ allocatedSetters (mediator w mp))
          by (by eapply Htgt).
        destruct (IH (λ m' n', dirty m' n' ∨ ∃ src, Reapply m' n' src ∈ rest)
                    mp p (callExpr e VNull w) w w0 cs0)
          as (Ha & Hframe & Hval & Hs); try done.
        { eapply settledBut_mono; [| exact Hset].
          intros m' n' [Hd | [src [[= -> -> ->] | Hin]%elem_of_cons]].
          - left. by left.
          - by right.
          - left. right. by exists src. }
        split; [by eapply setValue_wellFormed |]. split; [done |]. split.
        + intros m2 q2 m' n' src Hin Hn.
          rewrite (sameStructure_listenersOf w w0) in Hin by done.
          destruct (decide ((m', n') = (mp, p))) as [[= -> ->] | Hne].
          * assert (src = s0) as -> by (by eapply Hone).
            exists e. destruct (Hs mp) as (_ & -> & _). split; [done |].
            rewrite (callExpr_agree e VNull w w0); [done | by eapply Hresp |].
            intros x mx Hx.
            assert (Hrx : rank (mp, p) < rank (mx, x)).
            { eapply Hb. by eapply (Hsub mq q mp p s0 e x mx). }
            apply Hframe; [lia |]. intros [= -> ->]. lia.
          * eapply Ha.
            -- by rewrite (sameStructure_listenersOf w w0).
            -- intros [? | ?]; [by apply Hn | done].
        + intros m1 n1 Hr. apply Hframe; [lia |]. intros [= -> ->]. lia.
      - injection E as <- <-.
        assert (Hm : ∀ m, mediator (batchPropertyChange g key w) m = mediator w m)
          by (intros m; apply batchPropertyChange_mediator).
        split; [| split; [| split]].
        + apply (wellFormed_ext rank w); [| done]. intros m. by rewrite Hm.
        + intros m. by rewrite Hm.
        + apply (settledBut_mediators _ w); [done | done |].
          eapply settledBut_mono; [| exact Hset].
          intros m' n' [Hd | [src [[=] | Hin]%elem_of_cons]]; [by left |].
          right. by exists src.
        + intros m1 n1 _. by rewrite Hm.
      - injection E as <- <-. split; [done |].
        split; [apply sameStructure_refl |]. split; [| done].
        eapply settledBut_mono; [| exact Hset].
        intros m' n' [Hd | [src [[=] | Hin]%elem_of_cons]]; [by left |].
        right. by exists src. }
    destruct H1 as (Hwf1 & Hs1 & Hset1 & Hf1).
    destruct (IHrest dirty w1 w2 cs') as (Ha & Hf2 & Hs2); try done.
    + by apply (subscribed_sameStructure w).
    + by apply (singleSource_sameStructure w).
    + by apply (respectfulExpressions_sameStructure w).
    + intros m' n' src Hin. destruct (Hls m' n' src) as [Hr (m & q & Hreg)];
        [by right |].
      split; [done |]. exists m, q.
      by rewrite (sameStructure_listenersOf w w1).
    + split; [done |]. split.
      * intros m1 n1 Hr. rewrite Hf2, Hf1; auto.
      * by apply (sameStructure_trans w w1).
Qed.

Lemma setValue_settles rank (fuel : nat) : settles rank fuel.
Proof.
  induction fuel as [| fuel IH];
    intros dirty m n v w w' cs Hwf Hsub Hone Hresp Halloc Hset; [done |].
  rewrite setValue_unfold.
  destruct (strict_eq v (getValue m n w)) eqn:Heq.
  - intros [= <- <-]. split; [done |]. split; [done |].
    split; [by right | apply sameStructure_refl].
  - intros Hrun.
    pose proof (storeValue_sameStructure m n v w) as Hs0.
    pose proof Hwf as (Hb & Hsets & Ho & _).
    set (w0 := storeValue m n v w) in *.
    assert (Hl0 : ∀ m' q, listenersOf w0 m' q = listenersOf w m' q)
      by (intros; by apply sameStructure_listenersOf).
    assert (Hwf0 : wellFormed rank w0).
    { apply (wellFormed_frame rank w); try done.
      - by destruct (storeValue_setterFrame m n v w) as (_ & _ & _ & _ & _ & _ & _ & ?).
      - by apply storeValue_owned. }
    destruct (notify_settles rank fuel (rank (m, n)) IH (listenersOf w m n)
                (λ m' n', dirty m' n' ∨ (m', n') = (m, n)) w0 w' cs)
      as (Ha & Hframe & Hs); try done.
    + by apply (subscribed_sameStructure w).
    + by apply (singleSource_sameStructure w).
    + by apply (respectfulExpressions_sameStructure w).
    + intros m' n' src Hin. split; [by eapply Hb |].
      exists m, n. by rewrite Hl0.
    + intros mq q m' n' src Hin Hn. rewrite Hl0 in Hin.
      assert (Hne : (m', n') ≠ (m, n)) by (intros ?; apply Hn; left; by right).
      apply (follows_agree w w0); try done.
      * by destruct (Hs0 m') as (_ & -> & _).
      * unfold w0. rewrite storeValue_lookup. rewrite decide_False; [done |].
        intros [-> ->]. by apply Hne.
      * intros e x mx He Hx. unfold w0. rewrite storeValue_lookup.
        rewrite decide_False; [done |]. intros [-> ->].
        apply Hn. right. exists src. by eapply (Hsub mq q m' n' src e x mx).
      * eapply Hset; [done |]. intros Hd. apply Hn. by left.
    + split; [done |]. split; [| split].
      * intros m1 n1 Hr Hne. rewrite Hframe by done. unfold w0.
        rewrite storeValue_lookup. rewrite decide_False; [done |].
        intros [-> ->]. by apply Hne.
      * left. unfold getValue. rewrite Hframe by lia. unfold w0.
        rewrite storeValue_lookup. by rewrite decide_True.
      * by apply (sameStructure_trans w w0).
Qed.

(** Setting a parameter brings every parameter back to its expression.
    In a state where every listener that re-applies a setter is registered
    for each variable of its expression (and the state is well formed),
    if the parameters with an expression have the value of their
    expression, the parameter set apart, then after a setter call on that
    parameter they have it again, however the changes cascade; and the
    parameter set has the value it was set to. *)
Theorem setter_settles rank (fuel : nat) (m : nat) (n : string) (v : value)
        (w w' : World) (cs : list call) :
  wellFormed rank w → subscribed w → singleSource w →
  respectfulExpressions w →
  n ∈ allocatedSetters (mediator w m) →
  settledBut (λ m' n', (m', n') = (m, n)) w →
  setValue fuel m n v w = Ok (w', cs) →
  settledBut (λ m' n', (m', n') = (m, n)) w'
  ∧ sameValue (getValue m n w') v.
Proof.
  intros Hwf Hsub Hone Hresp Halloc Hset Hrun.
  destruct (setValue_settles rank fuel (λ _ _, False) m n v w w' cs)
    as (Ha & _ & Hv & _); try done.
  - eapply settledBut_mono; [| exact Hset]. intros m' n' ?. by right.
  - split; [| done]. eapply settledBut_mono; [| exact Ha].
    by intros m' n' [[] | ?].
Qed.

(** ** States built without touching the setters of re-applied
       parameters *)

(** What [allocateSetter] stores. *)
Lemma allocateSetter_values rank (fuel : nat) (m : nat) (n : string)
      (v : value) (w w1 : World) (s : ParameterSetter) (cs : list call) :
  wellFormed rank w →
  allocateSetter fuel m n v w = Ok (w1, s, cs) →
  (n ∉ allocatedSetters (mediator w m))
  ∧ sameValue (getValue m n w1) v
  ∧ ∀ m' p, (m', p) ≠ (m, n) →
      paramValues (mediator w1 m') !! p = paramValues (mediator w m') !! p.
Proof.
  intros Hwf Hrun. pose proof Hwf as (_ & _ & Ho & Hlo & _).
  destruct (allocateSetter_returns _ _ _ _ _ _ _ _ Hrun)
    as (Hfresh & -> & w0 & Hset & ->).
  split; [done |].
  assert (Hnone : paramValues (mediator w m) !! n = None).
  { destruct (paramValues (mediator w m) !! n) as [x |] eqn:E; [| done].
    exfalso. apply Hfresh, Ho. unfold hasValue. rewrite E.
    by apply bool_decide_eq_true. }
  assert (Hls : listenersOf w m n = []).
  { destruct (listenersOf w m n) as [| l ls] eqn:E; [done |].
    assert (Hl : l ∈ listenersOf w m n) by (rewrite E; left).
    apply Hlo in Hl. unfold hasValue in Hl. rewrite Hnone in Hl.
    apply bool_decide_eq_true in Hl. by destruct Hl. }
  assert (Hv : ∀ m' p, paramValues
                         (mediator
                            (setMediator m
                               (setAllocatedSetters
                                  ({[n]} ∪ allocatedSetters (mediator w0 m))
                                  (mediator w0 m)) w0) m') !! p
                       = paramValues (mediator w0 m') !! p).
  { intros m' p. rewrite mediator_setMediator. by case_decide; subst. }
  destruct fuel as [| fuel]; [done |].
  rewrite setValue_unfold, Hls in Hset. unfold getValue in *.
  rewrite Hnone in Hset. simpl in Hset.
  destruct (strict_eq v VUndefined) eqn:Heq.
  - injection Hset as <- <-. split.
    + right. rewrite Hv, Hnone. done.
    + intros m' p _. by rewrite Hv.
  - injection Hset as <- <-. split.
    + left. rewrite Hv, storeValue_lookup. by rewrite decide_True.
    + intros m' p Hne. rewrite Hv, storeValue_lookup.
      rewrite decide_False; [done |]. intros [-> ->]. by apply Hne.
Qed.

Section Compiler.
Variable createFunction : string → option CompiledExpr.
Hypothesis createFunction_respectful :
  ∀ src f, createFunction src = Some f → respectful f.

Local Abbreviation createExpression := (createExpression createFunction).
Local Abbreviation registerParam := (registerParam createFunction).
Local Abbreviation activateEntries := (activateEntries createFunction).
Local Abbreviation activateExprRefProps :=
  (activateExprRefProps createFunction).

(** The states the interface leads to from a blank hierarchy when
    [invalidate] is not called and the setter of a re-applied parameter
    is not applied. *)
Inductive quietlyBuilt : World → Prop :=
| quietly_blank w : blank w → quietlyBuilt w
| quietly_allocate fuel m n v w w1 s cs :
    quietlyBuilt w → allocateSetter fuel m n v w = Ok (w1, s, cs) →
    quietlyBuilt w1
| quietly_setter fuel m n v w w1 cs :
    quietlyBuilt w → n ∈ allocatedSetters (mediator w m) →
    (∀ mq q src, Reapply m n src ∉ listenersOf w mq q) →
    setValue fuel m n v w = Ok (w1, cs) → quietlyBuilt w1
| quietly_register fuel m param w w1 s cs :
    quietlyBuilt w → registerParam fuel m param w = Ok (w1, s, cs) →
    quietlyBuilt w1
| quietly_create fuel m src w w1 e :
    quietlyBuilt w → createExpression fuel m src w = Ok (w1, e) →
    quietlyBuilt w1
| quietly_addListener m src id w w1 :
    quietlyBuilt w → addListener m src (Callback id) w = Ok w1 →
    quietlyBuilt w1
| quietly_activate fuel m props listener w w1 g activated :
    quietlyBuilt w →
    activateExprRefProps fuel m props listener w = Ok (w1, g, activated) →
    quietlyBuilt w1
| quietly_tick fuel w w1 :
    quietlyBuilt w → runMicrotasks fuel w = Ok w1 → quietlyBuilt w1.

Lemma quietlyBuilt_built (w : World) :
  quietlyBuilt w → built createFunction w.
Proof.
  induction 1.
  - by apply built_blank.
  - by eapply built_allocate.
  - by eapply built_setter.
  - by eapply built_register.
  - by eapply built_create.
  - by eapply built_addListener.
  - by eapply built_activate.
  - by eapply built_tick.
Qed.

(** Every cached expression was compiled from its source. *)
Definition compiled (w : World) : Prop :=
  ∀ m src e, expressions (mediator w m) !! src = Some e →
    createFunction src = Some (fn e).

Definition settled (w : World) : Prop :=
  subscribed w ∧ singleSource w ∧ compiled w ∧ settledBut (λ _ _, False) w.

Lemma compiled_respectful (w : World) : compiled w → respectfulExpressions w.
Proof using createFunction_respectful. intros Hc m src e He. eapply createFunction_respectful, Hc, He. Qed.

(** A step that keeps the re-applying listeners where they are, changes
    the values of names without a setter only, and keeps the expressions
    or compiles new ones. *)
Lemma settled_step rank (w w' : World) :
  wellFormed rank w → settled w →
  (∀ m q m' n' src,
     Reapply m' n' src ∈ listenersOf w' m q
     ↔ Reapply m' n' src ∈ listenersOf w m q) →
  (∀ m p, p ∈ allocatedSetters (mediator w m) →
     paramValues (mediator w' m) !! p = paramValues (mediator w m) !! p) →
  (∀ m src e, expressions (mediator w m) !! src = Some e →
     ∃ e', expressions (mediator w' m) !! src = Some e'
           ∧ fn e' = fn e ∧ mediatorsForParams e' = mediatorsForParams e) →
  (∀ m src e', expressions (mediator w' m) !! src = Some e' →
     createFunction src = Some (fn e')) →
  settled w'.
Proof using createFunction_respectful.
  intros (Hb & _ & Ho & _ & Hbind & Htgt) (Hsub & Hone & Hc & Hset)
         Hl Hv He Hc'.
  assert (Hback : ∀ m src e' , expressions (mediator w' m) !! src = Some e' →
            is_Some (expressions (mediator w m) !! src) →
            ∃ e, expressions (mediator w m) !! src = Some e
                 ∧ fn e' = fn e ∧ mediatorsForParams e' = mediatorsForParams e).
  { intros m src e' He' [e He0]. exists e. split; [done |].
    destruct (He _ _ _ He0) as (e'' & He'' & Hf & Hm). by simplify_eq. }
  split; [| split; [| split]].
  - intros m q m' n' src e' p mp. rewrite !Hl. intros Hin He' Hp.
    destruct (Hback _ _ _ He') as (e & He0 & _ & Hm); [by eapply Hb |].
    rewrite Hm in Hp. by eapply Hsub.
  - intros m1 q1 m2 q2 m' n' s1 s2. rewrite !Hl. apply Hone.
  - done.
  - intros m q m' n' src. rewrite Hl. intros Hin _.
    destruct (Hset m q m' n' src Hin) as (e & He0 & Hsame); [tauto |].
    destruct (He _ _ _ He0) as (e' & He' & Hf & Hm).
    exists e'. split; [done |]. unfold getValue.
    rewrite Hv by (by eapply Htgt).
    assert (Hcall : callExpr e' VNull w' = callExpr e VNull w).
    { unfold callExpr. rewrite Hf, Hm. fold (callExpr e VNull w').
      fold (callExpr e VNull w).
      apply callExpr_agree;
        [eapply createFunction_respectful, Hc, He0 |].
      intros p mp Hp. apply Hv, Ho. by eapply Hbind. }
    by rewrite Hcall.
Qed.

Lemma settled_ext (w w' : World) :
  settled w →
  (∀ m, paramValues (mediator w' m) = paramValues (mediator w m)
        ∧ paramListeners (mediator w' m) = paramListeners (mediator w m)
        ∧ allocatedSetters (mediator w' m) = allocatedSetters (mediator w m)
        ∧ expressions (mediator w' m) = expressions (mediator w m)) →
  settled w'.
Proof using createFunction_respectful.
  intros (Hsub & Hone & Hc & Hset) Hm.
  assert (Hl : ∀ m q, listenersOf w' m q = listenersOf w m q).
  { intros m q. unfold listenersOf. by destruct (Hm m) as (_ & -> & _). }
  assert (He : ∀ m, expressions (mediator w' m) = expressions (mediator w m)).
  { intros m. by destruct (Hm m) as (_ & _ & _ & ->). }
  split; [| split; [| split]].
  - intros m q m' n' src e p mp. rewrite !Hl, He. apply Hsub.
  - intros m1 q1 m2 q2 m' n' s1 s2. rewrite !Hl. apply Hone.
  - intros m src e. rewrite He. apply Hc.
  - intros m q m' n' src. rewrite Hl. intros Hin Hn.
    apply (follows_agree w w'); [by apply compiled_respectful | done | | |].
    + by destruct (Hm m') as (-> & _).
    + intros e p mp _ _. by destruct (Hm mp) as (-> & _).
    + by eapply Hset.
Qed.

Lemma createExpression_settled rank (fuel : nat) (m : nat) (src : string)
      (w w1 : World) (e : ExprRefFunction) :
  wellFormed rank w → settled w →
  createExpression fuel m src w = Ok (w1, e) → settled w1.
Proof using createFunction_respectful.
  intros Hwf Hs Hrun. pose proof Hs as (_ & _ & Hc & _).
  destruct (expressions (mediator w m) !! src) as [e0 |] eqn:Hcached.
  { unfold ParamMediator.createExpression in Hrun. rewrite Hcached in Hrun.
    by injection Hrun as <- <-. }
  destruct (MediatorFacts.createExpression_returns _ _ _ _ _ _ _ Hrun)
    as (Hnew & Hold & Hm & _).
  destruct (MediatorFacts.createExpression_binds_once _ _ _ _ _ _ _
              Hcached Hrun) as (Hfn & _).
  apply (settled_step rank w w1 Hwf Hs).
  - intros mq q m' n' s. unfold listenersOf.
    by destruct (Hm mq) as (_ & -> & _).
  - intros mq p _. by destruct (Hm mq) as (-> & _).
  - intros m0 s0 e0 He0. exists e0. split; [| done].
    rewrite Hold; [done |]. intros [= -> ->]. congruence.
  - intros m0 s0 e' He'. destruct (decide ((m0, s0) = (m, src))) as [[= -> ->] | Hne].
    + rewrite Hnew in He'. by injection He' as <-.
    + rewrite Hold in He' by done. by eapply Hc.
Qed.

Lemma addListener_settled rank (w w1 : World) (m : nat) (src : string)
      (l : listener) :
  wellFormed rank w → settled w →
  (∀ m' n' s, l ≠ Reapply m' n' s) →
  addListener m src l w = Ok w1 → settled w1.
Proof using createFunction_respectful.
  intros Hwf Hs Hl Hrun. pose proof Hs as (_ & _ & Hc & _).
  destruct (SubscriptionFacts.addListener_effect _ _ _ _ _ Hrun)
    as (e & He & Hls & Hes & Hm & _).
  apply (settled_step rank w w1 Hwf Hs).
  - intros mq q m' n' s. unfold listenersOf at 1. rewrite Hls.
    destruct (decide ((q, mq) ∈ mediatorsForParams e)); [| done].
    simpl. rewrite SubscriptionFacts.set_add_cases. split; [| by left].
    intros [? | Heq]; [done |]. by destruct (Hl m' n' s).
  - intros mq p _. by destruct (Hm mq) as (-> & _).
  - intros m0 s0 e0 He0. rewrite Hes.
    destruct (decide ((m0, s0) = (m, src))) as [[= -> ->] | Hne].
    + eexists. split; [done |]. simpl. rewrite He in He0.
      by injection He0 as <-.
    + by exists e0.
  - intros m0 s0 e'. rewrite Hes.
    destruct (decide ((m0, s0) = (m, src))) as [[= -> ->] | Hne].
    + intros [= <-]. simpl. by eapply Hc.
    + apply Hc.
Qed.

Lemma allocateSetter_settled rank (fuel : nat) (m : nat) (n : string)
      (v : value) (w w1 : World) (s : ParameterSetter) (cs : list call) :
  wellFormed rank w → settled w →
  allocateSetter fuel m n v w = Ok (w1, s, cs) → settled w1.
Proof using createFunction_respectful.
  intros Hwf Hs Hrun. pose proof Hs as (_ & _ & Hc & _).
  destruct (allocateSetter_wellFormed _ _ _ _ _ _ _ _ _ Hwf Hrun)
    as (_ & _ & _ & Hl & He & _).
  destruct (allocateSetter_values _ _ _ _ _ _ _ _ _ Hwf Hrun)
    as (Hfresh & _ & Hv).
  apply (settled_step rank w w1 Hwf Hs).
  - intros mq q m' n' src. by rewrite Hl.
  - intros mq p Hp. apply Hv. intros [= -> ->]. by apply Hfresh.
  - intros m0 s0 e0 He0. exists e0. by rewrite He.
  - intros m0 s0 e'. rewrite He. apply Hc.
Qed.

Lemma recordConfig_settled (m : nat) (param : VariableParameter)
      (w : World) :
  settled w → settled (recordConfig m param w).
Proof using createFunction_respectful.
  intros Hs. apply (settled_ext w); [done |].
  intros m0. unfold recordConfig. rewrite mediator_setMediator.
  by case_decide; subst.
Qed.

Lemma setValue_settled rank (fuel : nat) (m : nat) (n : string) (v : value)
      (w w1 : World) (cs : list call) :
  wellFormed rank w → settled w →
  n ∈ allocatedSetters (mediator w m) →
  (∀ mq q src, Reapply m n src ∉ listenersOf w mq q) →
  setValue fuel m n v w = Ok (w1, cs) → settled w1.
Proof using createFunction_respectful.
  intros Hwf (Hsub & Hone & Hc & Hset) Ha Hfree Hrun.
  pose proof (compiled_respectful _ Hc) as Hr.
  destruct (setValue_settles rank fuel (λ _ _, False) m n v w w1 cs)
    as (Hafter & _ & _ & Hsame); try done.
  { eapply settledBut_mono; [| exact Hset]. tauto. }
  split; [by eapply subscribed_sameStructure |].
  split; [by eapply singleSource_sameStructure |].
  split.
  - intros m0 s0 e0. destruct (Hsame m0) as (_ & -> & _). apply Hc.
  - intros mq q m' n' src Hin _. eapply Hafter; [exact Hin |].
    intros [[] | [= -> ->]]. apply (Hfree mq q src).
    by rewrite <- (sameStructure_listenersOf w w1).
Qed.

(** [registerParam] with an expression: the new parameter holds the value
    of its expression, and is the only new target. *)
Lemma registerParam_settled rank (fuel : nat) (m : nat)
      (param : VariableParameter) (w w1 : World) (s : option ParameterSetter)
      (cs : list call) :
  wellFormed rank w → settled w →
  registerParam fuel m param w = Ok (w1, s, cs) → settled w1.
Proof using createFunction_respectful.
  intros Hwf Hs. unfold ParamMediator.registerParam.
  destruct (param_value param) as [v |], (param_expr param) as [src |];
    try done.
  - destruct (allocateSetter fuel m (param_name param) v w)
      as [[[w0 sb] csb] | |] eqn:Ea; simpl; try done.
    intros [= <- <- <-]. apply recordConfig_settled.
    exact (allocateSetter_settled _ _ _ _ _ _ _ _ _ Hwf Hs Ea).
  - set (b := param_name param).
    destruct (createExpression fuel m src w) as [[wa e] | |] eqn:Ec; simpl;
      try done.
    destruct (allocateSetter fuel m b (callExpr e VNull wa) wa)
      as [[[wb sb] csb] | |] eqn:Ea; simpl; try done.
    destruct (addListener m src (Reapply m b src) wb) as [wc | |] eqn:El;
      simpl; try done.
    intros [= <- <- <-]. apply recordConfig_settled.
    pose proof (createExpression_wellFormed _ _ _ _ _ _ _ _ Hwf Ec) as Hwfa.
    pose proof (createExpression_settled _ _ _ _ _ _ _ Hwf Hs Ec) as Hsa.
    destruct (MediatorFacts.createExpression_returns _ _ _ _ _ _ _ Ec)
      as (Hea & _).
    destruct (allocateSetter_wellFormed _ _ _ _ _ _ _ _ _ Hwfa Ea)
      as (Hwfb & Hnone & Hin & Hlb & Heb & Hmono).
    pose proof (allocateSetter_settled _ _ _ _ _ _ _ _ _ Hwfa Hsa Ea) as Hsb.
    destruct (allocateSetter_values _ _ _ _ _ _ _ _ _ Hwfa Ea)
      as (Hfresh & Hvb & Hother).
    destruct (SubscriptionFacts.addListener_effect _ _ _ _ _ El)
      as (e3 & He3 & Hls & Hes & Hm & _).
    assert (e3 = e) as -> by (rewrite Heb, Hea in He3; congruence).
    pose proof Hwfa as (_ & _ & _ & _ & Hba & Hta).
    pose proof Hsb as (Hsub & Hone & Hc & Hset).
    assert (Hlc : ∀ mq q, listenersOf wc mq q
                          = if decide ((q, mq) ∈ mediatorsForParams e)
                            then set_add (Reapply m b src) (listenersOf wb mq q)
                            else listenersOf wb mq q).
    { intros mq q. unfold listenersOf at 1. rewrite Hls.
      by destruct (decide ((q, mq) ∈ mediatorsForParams e)). }
    assert (Hcases : ∀ mq q t, t ∈ listenersOf wc mq q →
              t ∈ listenersOf wb mq q
              ∨ (t = Reapply m b src ∧ (q, mq) ∈ mediatorsForParams e)).
    { intros mq q t. rewrite Hlc. case_decide; [| by left].
      rewrite SubscriptionFacts.set_add_cases. intros [? | ?]; auto. }
    assert (Hgrow : ∀ mq q t, t ∈ listenersOf wb mq q → t ∈ listenersOf wc mq q).
    { intros mq q t Ht. rewrite Hlc. case_decide; [| done].
      apply SubscriptionFacts.set_add_cases. by left. }
    assert (Hnew : ∀ p mp, (p, mp) ∈ mediatorsForParams e →
              Reapply m b src ∈ listenersOf wc mp p).
    { intros p mp Hp. rewrite Hlc, decide_True by done.
      apply SubscriptionFacts.set_add_cases. by right. }
    assert (Hnotarget : ∀ mq q s', Reapply m b s' ∉ listenersOf wb mq q).
    { intros mq q s' Ht. rewrite Hlb in Ht.
      by apply Hfresh, (Hta _ _ _ _ _ Ht). }
    assert (Hback : ∀ m0 s0 e', expressions (mediator wc m0) !! s0 = Some e' →
              ∃ e0, expressions (mediator wb m0) !! s0 = Some e0
                    ∧ fn e' = fn e0
                    ∧ mediatorsForParams e' = mediatorsForParams e0).
    { intros m0 s0 e'. rewrite Hes.
      destruct (decide ((m0, s0) = (m, src))) as [[= -> ->] | Hne].
      - intros [= <-]. exists e. by rewrite Heb, Hea.
      - intros He'. by exists e'. }
    assert (Hfwd : ∀ m0 s0 e0, expressions (mediator wb m0) !! s0 = Some e0 →
              ∃ e', expressions (mediator wc m0) !! s0 = Some e'
                    ∧ fn e' = fn e0
                    ∧ mediatorsForParams e' = mediatorsForParams e0).
    { intros m0 s0 e0 He0. rewrite Hes.
      destruct (decide ((m0, s0) = (m, src))) as [[= -> ->] | Hne].
      - eexists. split; [done |]. simpl. rewrite Heb, Hea in He0.
        by injection He0 as <-.
      - by exists e0. }
    assert (Hcall : ∀ m0 s0 e' e0,
              expressions (mediator wb m0) !! s0 = Some e0 →
              fn e' = fn e0 →
              mediatorsForParams e' = mediatorsForParams e0 →
              callExpr e' VNull wc = callExpr e0 VNull wb).
    { intros m0 s0 e' e0 He0 Hf Hb'. unfold callExpr. rewrite Hf, Hb'.
      fold (callExpr e0 VNull wc). fold (callExpr e0 VNull wb).
      apply callExpr_agree; [eapply createFunction_respectful, Hc, He0 |].
      intros p mp _. by destruct (Hm mp) as (-> & _). }
    assert (Hvc : ∀ m0 n0, getValue m0 n0 wc = getValue m0 n0 wb).
    { intros m0 n0. unfold getValue. by destruct (Hm m0) as (-> & _). }
    assert (Hewb : expressions (mediator wb m) !! src = Some e)
      by (by rewrite Heb).
    split; [| split; [| split]].
    + intros mq q m' n' s1 e' p mp Hl He' Hp.
      destruct (Hback _ _ _ He') as (e0 & He0 & _ & Hb0). rewrite Hb0 in Hp.
      destruct (Hcases _ _ _ Hl) as [Hold | [[= -> -> ->] _]].
      * by eapply Hgrow, Hsub.
      * apply Hnew. by simplify_eq.
    + intros m1 q1 m2 q2 m' n' s1 s2 H1 H2.
      destruct (Hcases _ _ _ H1) as [Ho1 | [E1 _]],
               (Hcases _ _ _ H2) as [Ho2 | [E2 _]].
      * by eapply Hone.
      * injection E2 as -> -> ->. by destruct (Hnotarget _ _ _ Ho1).
      * injection E1 as -> -> ->. by destruct (Hnotarget _ _ _ Ho2).
      * congruence.
    + intros m0 s0 e' He'.
      destruct (Hback _ _ _ He') as (e0 & He0 & -> & _). by eapply Hc.
    + intros mq q m' n' s1 Hl _.
      destruct (Hcases _ _ _ Hl) as [Hold | [[= -> -> ->] _]].
      * destruct (Hset _ _ _ _ _ Hold) as (e0 & He0 & Hsame); [tauto |].
        destruct (Hfwd _ _ _ He0) as (e' & He' & Hf & Hb').
        exists e'. split; [done |].
        by rewrite Hvc, (Hcall _ _ _ _ He0 Hf Hb').
      * destruct (Hfwd _ _ _ Hewb) as (e' & He' & Hf & Hb').
        exists e'. split; [done |].
        rewrite Hvc, (Hcall _ _ _ _ Hewb Hf Hb').
        rewrite (callExpr_agree e VNull wa wb); [done | |].
        -- apply (createFunction_respectful src). by eapply Hc.
        -- intros p mp Hp. apply Hother. intros [= -> ->].
           pose proof (Hba _ _ _ _ _ Hea Hp). congruence.
  - intros [= <- <- <-]. by apply recordConfig_settled.
Qed.

Lemma activateEntries_settled rank (fuel : nat) (m g : nat)
      (hasListener : bool) (props : list (string * prop)) (w w1 : World)
      (activated : list (string * activatedProp)) :
  wellFormed rank w → settled w →
  activateEntries fuel m g hasListener props w = Ok (w1, activated) →
  settled w1.
Proof using createFunction_respectful.
  revert w w1 activated.
  induction props as [| [key [v | src]] props IH];
    intros w w1 activated Hwf Hs; simpl.
  - by intros [= <- <-].
  - destruct (activateEntries fuel m g hasListener props w)
      as [[w2 act] | |] eqn:E; simpl; try done.
    intros [= <- <-]. by eapply IH.
  - destruct (createExpression fuel m src w) as [[w2 e] | |] eqn:Ec; simpl;
      try done.
    pose proof (createExpression_wellFormed _ _ _ _ _ _ _ _ Hwf Ec) as Hwf2.
    pose proof (createExpression_settled _ _ _ _ _ _ _ Hwf Hs Ec) as Hs2.
    destruct (if hasListener then addListener m src (BatchChange g key) w2
              else mret w2) as [w3 | |] eqn:Ea; simpl; try done.
    assert (Hboth : wellFormed rank w3 ∧ settled w3).
    { destruct hasListener.
      - split.
        + eapply addListener_wellFormed; [exact Hwf2 | | exact Ea];
            by intros ? ? ?.
        + eapply addListener_settled; [exact Hwf2 | exact Hs2 | | exact Ea];
            by intros ? ? ?.
      - by injection Ea as <-. }
    destruct Hboth as [Hwf3 Hs3].
    destruct (activateEntries fuel m g hasListener props w3)
      as [[w4 act] | |] eqn:E; simpl; try done.
    intros [= <- <-]. by eapply IH.
Qed.

Lemma blank_settled (w : World) : blank w → settled w.
Proof.
  intros Hb.
  assert (Hl : ∀ m n, listenersOf w m n = []).
  { intros m n. unfold listenersOf. destruct (Hb m) as (_ & -> & _).
    by rewrite lookup_empty. }
  split; [| split; [| split]].
  - intros m q m' n' src e p mp. rewrite Hl. by intros ?%elem_of_nil.
  - intros m1 q1 m2 q2 m' n' s1 s2. rewrite Hl. by intros ?%elem_of_nil.
  - intros m src e. destruct (Hb m) as (_ & _ & _ & ->).
    by rewrite lookup_empty.
  - intros m q m' n' src. rewrite Hl. by intros ?%elem_of_nil.
Qed.

Lemma quietlyBuilt_invariant (w : World) : quietlyBuilt w → settled w.
Proof using createFunction_respectful.
  induction 1 as [w Hb
                 | fuel m n v w w1 s cs Hq IH Hrun
                 | fuel m n v w w1 cs Hq IH Ha Hfree Hrun
                 | fuel m param w w1 s cs Hq IH Hrun
                 | fuel m src w w1 e Hq IH Hrun
                 | m src id w w1 Hq IH Hrun
                 | fuel m props listener w w1 g activated Hq IH Hrun
                 | fuel w w1 Hq IH Hrun];
    try destruct (built_wellFormed _ _ (quietlyBuilt_built _ Hq))
      as [rank Hwf].
  - by apply blank_settled.
  - exact (allocateSetter_settled _ _ _ _ _ _ _ _ _ Hwf IH Hrun).
  - exact (setValue_settled _ _ _ _ _ _ _ _ Hwf IH Ha Hfree Hrun).
  - exact (registerParam_settled _ _ _ _ _ _ _ _ Hwf IH Hrun).
  - exact (createExpression_settled _ _ _ _ _ _ _ Hwf IH Hrun).
  - eapply addListener_settled; [exact Hwf | exact IH | | exact Hrun];
      by intros ? ? ?.
  - unfold ParamMediator.activateExprRefProps in Hrun. cbv zeta in Hrun.
    match type of Hrun with
    | context [ParamMediator.activateEntries _ _ _ _ _ _ ?w0] =>
        set (w0' := w0) in Hrun
    end.
    destruct (activateEntries fuel m (nextBatch w)
                (bool_decide (is_Some listener)) props w0')
      as [[w2 act] | |] eqn:E; simpl in Hrun; try done.
    injection Hrun as <- <- <-.
    eapply (activateEntries_settled rank); [| | exact E].
    + by apply (wellFormed_ext rank w).
    + by apply (settled_ext w).
  - apply (settled_ext w); [done |].
    intros m. unfold mediator. by rewrite (runMicrotasks_mediators _ _ _ Hrun).
Qed.

End Compiler.

(** The state of [Examples.reactive] after its parameter [a] is set to 5. *)
Definition afterFive : World :=
  Examples.worldOf1 (setValue 2 0 "a" (VNum (Examples.int 5)) Examples.reactive)
    Examples.reactive.

Lemma demoCreateFunction_respectful (src : string) (f : CompiledExpr) :
  Examples.demoCreateFunction src = Some f → respectful f.
Proof.
  unfold Examples.demoCreateFunction.
  repeat case_decide; intros [= <-]; intros g g' d Hg; simpl;
    by rewrite !Hg.
Qed.

Lemma quietlyBuilt_worldOf_register
      (createFunction : string → option CompiledExpr) (fuel : nat) (m : nat)
      (param : VariableParameter) (w : World) :
  quietlyBuilt createFunction w →
  quietlyBuilt createFunction
    (Examples.worldOf (registerParam createFunction fuel m param w) w).
Proof.
  intros Hb.
  destruct (registerParam createFunction fuel m param w)
    as [[[w1 s] cs] | |] eqn:E; simpl; [| done ..].
  by eapply quietly_register.
Qed.

Lemma quietlyBuilt_worldOf_create
      (createFunction : string → option CompiledExpr) (fuel : nat) (m : nat)
      (src : string) (w : World) :
  quietlyBuilt createFunction w →
  quietlyBuilt createFunction
    (Examples.worldOf1 (createExpression createFunction fuel m src w) w).
Proof.
  intros Hb.
  destruct (createExpression createFunction fuel m src w)
    as [[w1 e] | |] eqn:E; simpl; [| done ..].
  by eapply quietly_create.
Qed.

Lemma quietlyBuilt_worldOf_addListener
      (createFunction : string → option CompiledExpr) (m : nat)
      (src : string) (id : nat) (w : World) :
  quietlyBuilt createFunction w →
  quietlyBuilt createFunction
    (Examples.worldOf0 (addListener m src (Callback id) w) w).
Proof.
  intros Hb. destruct (addListener m src (Callback id) w) as [w1 | |] eqn:E;
    simpl; [| done ..]. by eapply quietly_addListener.
Qed.

Lemma reactive_quietlyBuilt :
  quietlyBuilt Examples.demoCreateFunction Examples.reactive.
Proof.
  unfold Examples.reactive. cbv zeta.
  apply quietlyBuilt_worldOf_addListener, quietlyBuilt_worldOf_create,
    quietlyBuilt_worldOf_register, quietlyBuilt_worldOf_register.
  apply quietly_blank, blank_newMediator, blank_emptyWorld.
Qed.

Lemma afterFive_run :
  ∃ cs, setValue 2 0 "a" (VNum (Examples.int 5)) Examples.reactive
        = Ok (afterFive, cs).
Proof.
  unfold afterFive.
  destruct (setValue 2 0 "a" (VNum (Examples.int 5)) Examples.reactive)
    as [[w' cs] | |] eqn:E; [by exists cs | ..];
    vm_compute in E; discriminate.
Qed.

Lemma reactive_allocated : "a" ∈ allocatedSetters (mediator Examples.reactive 0).
Proof. apply (bool_decide_unpack _). by vm_compute. Qed.

Lemma reactive_a_free (mq : nat) (q src : string) :
  Reapply 0 "a" src ∉ listenersOf Examples.reactive mq q.
Proof.
  rewrite reactive_listeners. case_decide; [| by intros ?%elem_of_nil].
  intros [[=] | [[=] | ?%elem_of_nil]%elem_of_cons]%elem_of_cons. done.
Qed.

Lemma afterFive_quietlyBuilt :
  quietlyBuilt Examples.demoCreateFunction afterFive.
Proof.
  destruct afterFive_run as [cs Hrun].
  eapply quietly_setter;
    [exact reactive_quietlyBuilt | exact reactive_allocated
    | exact reactive_a_free | exact Hrun].
Qed.

Lemma afterFive_listeners :
  Reapply 0 "b" "a + 1" ∈ listenersOf afterFive 0 "a".
Proof.
  assert (listenersOf afterFive 0 "a" = [Reapply 0 "b" "a + 1"; Callback 7])
    as -> by (by vm_compute).
  left.
Qed.

(** Built without [invalidate] and without applying the setter of an
    expression-backed parameter, a hierarchy is at rest between calls: a
    listener that re-applies a parameter from an expression is registered
    on every variable of the expression, no parameter is re-applied from
    two expressions, and every re-applied parameter holds the value of its
    expression, up to the [!==] of the setter. The compiled functions are
    to read their variables through the global object only. *)
Theorem quietlyBuilt_settled
        (createFunction : string → option CompiledExpr) (w : World) :
  (∀ src f, createFunction src = Some f → respectful f) →
  quietlyBuilt createFunction w →
  subscribed w ∧ singleSource w
  ∧ ∀ m q m' n' src,
      Reapply m' n' src ∈ listenersOf w m q → follows w m' n' src.
Proof.
  intros Hr Hq.
  destruct (quietlyBuilt_invariant createFunction Hr w Hq)
    as (Hsub & Hone & _ & Hset).
  split; [done |]. split; [done |].
  intros m q m' n' src Hin. eapply Hset; [exact Hin | tauto].
Qed.

Lemma quietlyBuilt_settled_witness :
  singleSource afterFive ∧ follows afterFive 0 "b" "a + 1".
Proof.
  destruct (quietlyBuilt_settled Examples.demoCreateFunction afterFive
              demoCreateFunction_respectful afterFive_quietlyBuilt)
    as (_ & Hone & Hfollows).
  split; [exact Hone |].
  exact (Hfollows 0 "a" 0 "b" "a + 1" afterFive_listeners).
Defined.

Lemma setter_settles_witness :
  follows afterFive 0 "b" "a + 1"
  ∧ sameValue (getValue 0 "a" afterFive) (VNum (Examples.int 5)).
Proof.
  destruct afterFive_run as [cs Hrun].
  destruct (built_wellFormed _ _
              (quietlyBuilt_built _ _ reactive_quietlyBuilt)) as [rank Hwf].
  destruct (quietlyBuilt_invariant _ demoCreateFunction_respectful _
              reactive_quietlyBuilt) as (Hsub & Hone & Hc & Hset).
  destruct (setter_settles rank 2 0 "a" (VNum (Examples.int 5))
              Examples.reactive afterFive cs Hwf Hsub Hone
              (compiled_respectful _ demoCreateFunction_respectful _ Hc)
              reactive_allocated
              (settledBut_mono _ _ _ (λ _ _ (H : False), False_ind _ H) Hset)
              Hrun) as [Hafter Hvalue].
  split; [| exact Hvalue].
  apply (Hafter 0 "a" 0 "b" "a + 1").
  - exact afterFive_listeners.
  - by intros [=].
Defined.

End SettleFacts.
